(** * Distance-vector and link-state routers: a shallow embedding

    The two router classes of the repository, [DVrouter] and [LSrouter], are
    embedded as functions over explicit engine states.  Python dictionaries
    are insertion-ordered association lists, decoded JSON documents are an
    inductive type, exceptions are an explicit outcome that keeps the state
    mutated so far, and [self.send] appends to an output list. *)

From Stdlib Require Import List ZArith Lia Bool String Ascii Permutation.
Import ListNotations.
Local Open Scope Z_scope.

Set Warnings "-register-all".

(* ================================================================= *)
(** ** Python dictionaries *)

Class EqDec (K : Type) := eq_dec : forall x y : K, {x = y} + {x <> y}.

#[global] Instance string_EqDec : EqDec string := string_dec.
#[global] Instance Z_EqDec : EqDec Z := Z.eq_dec.

(** A [dict] keeps its items in insertion order, as Python's does. *)
Definition dict (K V : Type) : Type := list (K * V).

Section Dict.
Context {K V : Type} `{EqDec K}.

(** [d[k]]; [None] is [KeyError]. *)
Fixpoint d_get (k : K) (d : dict K V) : option V :=
  match d with
  | [] => None
  | (k', v) :: d' => if eq_dec k k' then Some v else d_get k d'
  end.

(** [k in d] *)
Definition d_mem (k : K) (d : dict K V) : bool :=
  match d_get k d with Some _ => true | None => false end.

(** [d[k] = v]: an existing key keeps its position, a new key goes last. *)
Fixpoint d_set (k : K) (v : V) (d : dict K V) : dict K V :=
  match d with
  | [] => [(k, v)]
  | (k', v') :: d' =>
      if eq_dec k k' then (k', v) :: d' else (k', v') :: d_set k v d'
  end.

(** [del d[k]] (every call site guards it with [k in d]). *)
Definition d_del (k : K) (d : dict K V) : dict K V :=
  filter (fun kv => if eq_dec k (fst kv) then false else true) d.

Definition d_keys (d : dict K V) : list K := map fst d.
Definition d_values (d : dict K V) : list V := map snd d.

(** The representation invariant of a dictionary: keys are unique. *)
Definition d_wf (d : dict K V) : Prop := NoDup (d_keys d).
End Dict.

(* ================================================================= *)
(** ** Decoded JSON documents and the Python operations applied to them *)

(** What [json.loads] returns.  Numbers are the integers (documents with
    fractional numbers are outside the model). *)
Inductive json : Type :=
| JNull
| JBool (b : bool)
| JInt (n : Z)
| JStr (s : string)
| JArr (xs : list json)
| JObj (kvs : dict string json).

(** The numeric value of an operand of [+], [<], [>=]; [None] is the
    [TypeError] Python raises on a non-number ([bool] is a subtype of
    [int]). *)
Definition py_num (j : json) : option Z :=
  match j with
  | JInt n => Some n
  | JBool b => Some (Z.b2z b)
  | _ => None
  end.

(** [a == b] *)
Fixpoint py_eq (a b : json) {struct a} : bool :=
  match a, b with
  | JNull, JNull => true
  | JBool x, JBool y => Bool.eqb x y
  | JBool x, JInt n => Z.b2z x =? n
  | JInt n, JBool x => n =? Z.b2z x
  | JInt n, JInt m => n =? m
  | JStr s, JStr t => String.eqb s t
  | JArr xs, JArr ys =>
      (fix all2 (xs ys : list json) {struct xs} : bool :=
         match xs, ys with
         | [], [] => true
         | x :: xs', y :: ys' => py_eq x y && all2 xs' ys'
         | _, _ => false
         end) xs ys
  | JObj kvs, JObj kvs' =>
      Nat.eqb (List.length kvs) (List.length kvs') &&
      (fix all (kvs : list (string * json)) {struct kvs} : bool :=
         match kvs with
         | [] => true
         | (k, v) :: r =>
             match d_get k kvs' with
             | Some v' => py_eq v v'
             | None => false
             end && all r
         end) kvs
  | _, _ => false
  end.

(** [needle in hay] on two [str] *)
Fixpoint is_substring (needle hay : string) : bool :=
  String.prefix needle hay ||
  match hay with
  | EmptyString => false
  | String _ hay' => is_substring needle hay'
  end.

(** [s in container]; [None] is [TypeError] (not iterable). *)
Definition py_contains (container : json) (s : string) : option bool :=
  match container with
  | JObj kvs => Some (d_mem s kvs)
  | JArr xs => Some (existsb (fun x => py_eq x (JStr s)) xs)
  | JStr t => Some (is_substring s t)
  | _ => None
  end.

(** [container[s]] with a [str] subscript; [None] is [KeyError] on a
    dictionary and [TypeError] on everything else. *)
Definition py_subscript (container : json) (s : string) : option json :=
  match container with
  | JObj kvs => d_get s kvs
  | _ => None
  end.

(** [container.items()]; [None] is [AttributeError]. *)
Definition py_items (container : json) : option (list (string * json)) :=
  match container with
  | JObj kvs => Some kvs
  | _ => None
  end.

(** Hashable values: what can be a dictionary key or a member of a tuple
    stored in a set. *)
Inductive scalar : Type :=
| SNull
| SBool (b : bool)
| SInt (n : Z)
| SStr (s : string).

(** [hash(j)] succeeds; [None] is [TypeError: unhashable type]. *)
Definition py_hashable (j : json) : option scalar :=
  match j with
  | JNull => Some SNull
  | JBool b => Some (SBool b)
  | JInt n => Some (SInt n)
  | JStr s => Some (SStr s)
  | JArr _ | JObj _ => None
  end.

Definition json_of_scalar (s : scalar) : json :=
  match s with
  | SNull => JNull
  | SBool b => JBool b
  | SInt n => JInt n
  | SStr s => JStr s
  end.

(** Keys as a dictionary or set sees them: [True] and [1] are one key. *)
Inductive pykey : Type :=
| KNull
| KNum (n : Z)
| KStr (s : string).

Definition key_of (s : scalar) : pykey :=
  match s with
  | SNull => KNull
  | SBool b => KNum (Z.b2z b)
  | SInt n => KNum n
  | SStr s => KStr s
  end.

#[global] Instance pykey_EqDec : EqDec pykey.
Proof. intros x y. unfold EqDec in *. decide equality; [apply Z.eq_dec | apply string_dec]. Defined.

Definition scalar_num (s : scalar) : option Z :=
  match s with
  | SInt n => Some n
  | SBool b => Some (Z.b2z b)
  | _ => None
  end.

(** [a > b] on hashable values; [None] is [TypeError]. *)
Definition py_gt (a b : scalar) : option bool :=
  match a, b with
  | SStr s, SStr t => Some (String.ltb t s)
  | _, _ =>
      match scalar_num a, scalar_num b with
      | Some x, Some y => Some (x >? y)
      | _, _ => None
      end
  end.

(* ================================================================= *)
(** ** Packets, sends and outcomes *)

Inductive kind : Type := TRACEROUTE | ROUTING.

(** What [json.loads(packet.content)] makes of the content string. *)
Inductive payload : Type :=
| Unparseable
| Doc (j : json).

(** Modelled from the spec: the [Packet] class is not part of the sources;
    a packet is either a routing-control packet with an opaque payload or a
    traceroute packet, and carries source and destination addresses. *)
Record packet : Type := Packet {
  pkind : kind;
  src_addr : string;
  dst_addr : string;
  content : payload
}.

Definition is_traceroute (p : packet) : bool :=
  match pkind p with TRACEROUTE => true | ROUTING => false end.

(** Modelled from the spec: the [Router] base class is not part of the
    sources; its [send] is the one outbound primitive, a packet on a local
    port.  One call of [self.send(port, packet)] is one entry, and a handler
    returns the entries in the order of the calls. *)
Definition send : Type := (Z * packet)%type.

(** How a piece of code ends: it runs to completion, it raises (the state
    built so far stays), or the model ran out of fuel. *)
Inductive result (A E : Type) : Type :=
| Done (a : A)
| Raised (e : E)
| Diverged.
Arguments Done {A E} a.
Arguments Raised {A E} e.
Arguments Diverged {A E}.

(** [try: body / except Exception: pass] *)
Definition try_except {A : Type} (body : result A A) : result A A :=
  match body with
  | Raised e => Done e
  | r => r
  end.

(** Relaying a data packet, the same in both engines. *)
Fixpoint relay_to_neighbor (nbrs : dict Z (string * Z)) (p : packet) : list send :=
  match nbrs with
  | [] => []
  | (port, (neighbor, _)) :: rest =>
      if String.eqb neighbor (dst_addr p) then [(port, p)]
      else relay_to_neighbor rest p
  end.

Definition relay (forwarding_table : dict string Z) (nbrs : dict Z (string * Z))
    (p : packet) : list send :=
  match d_get (dst_addr p) forwarding_table with
  | Some out_port => [(out_port, p)]
  | None => relay_to_neighbor nbrs p
  end.

(** The iteration order of a Python [set] of strings: some enumeration
    without repetition of the elements inserted, fixed by the interpreter. *)
Record set_iteration : Type := SetIteration {
  iter_order : list string -> list string;
  iter_complete : forall l x, In x (iter_order l) <-> In x l;
  iter_nodup : forall l, NoDup (iter_order l)
}.

Definition insertion_order : set_iteration :=
  {| iter_order := nodup string_dec;
     iter_complete := fun l x => nodup_In string_dec l x;
     iter_nodup := fun l => NoDup_nodup string_dec l |}.

(* ================================================================= *)
(** ** The distance-vector engine ([DVrouter.py]) *)

Module DV.

Record state : Type := State {
  addr : string;
  heartbeat_time : Z;
  last_sent : Z;
  dv : dict string (Z * option Z);         (* destination -> (cost, port) *)
  neighbors : dict Z (string * Z);         (* port -> (neighbor_addr, cost) *)
  neighbor_dvs : dict string json;         (* neighbor_addr -> its vector *)
  forwarding_table : dict string Z         (* destination -> port *)
}.

Definition with_dv (st : state) (d : dict string (Z * option Z)) : state :=
  State (addr st) (heartbeat_time st) (last_sent st) d (neighbors st)
        (neighbor_dvs st) (forwarding_table st).
Definition with_neighbors (st : state) (n : dict Z (string * Z)) : state :=
  State (addr st) (heartbeat_time st) (last_sent st) (dv st) n
        (neighbor_dvs st) (forwarding_table st).
Definition with_neighbor_dvs (st : state) (n : dict string json) : state :=
  State (addr st) (heartbeat_time st) (last_sent st) (dv st) (neighbors st)
        n (forwarding_table st).
Definition with_forwarding_table (st : state) (f : dict string Z) : state :=
  State (addr st) (heartbeat_time st) (last_sent st) (dv st) (neighbors st)
        (neighbor_dvs st) f.
Definition with_last_sent (st : state) (t : Z) : state :=
  State (addr st) (heartbeat_time st) t (dv st) (neighbors st)
        (neighbor_dvs st) (forwarding_table st).

(** [__init__] *)
Definition init (a : string) (heartbeat : Z) : state :=
  State a heartbeat 0 [(a, (0, None))] [] [] [].

(** A handler ends with a state and the packets sent, also when it raises. *)
Definition run : Type := result (state * list send) (state * list send).

(** [send_dv_to_neighbor]: the vector with poison reverse for [port]. *)
Definition poisoned_vector (st : state) (port : Z) : dict string Z :=
  fold_left
    (fun simplified_dv (item : string * (Z * option Z)) =>
       let '(dest, (cost, out_port)) := item in
       match out_port with
       | Some p => if p =? port then d_set dest 16 simplified_dv
                   else d_set dest cost simplified_dv
       | None => d_set dest cost simplified_dv
       end)
    (dv st) [(addr st, 0)].

(** [json.dumps] of a dictionary from destinations to costs, as decoded
    again by the receiver. *)
Definition dumps_vector (v : dict string Z) : payload :=
  Doc (JObj (map (fun kv => (fst kv, JInt (snd kv))) v)).

Definition send_dv_to_neighbor (st : state) (port : Z) : list send :=
  let simplified_dv := poisoned_vector st port in
  match d_get port (neighbors st) with
  | Some (neighbor, _) =>
      [(port, Packet ROUTING (addr st) neighbor (dumps_vector simplified_dv))]
  | None => []
  end.

(** [broadcast_dv] *)
Definition broadcast_dv (st : state) : state * list send :=
  let st := with_dv st (d_set (addr st) (0, None) (dv st)) in
  (st, flat_map (send_dv_to_neighbor st) (d_keys (neighbors st))).

(** The keys inserted into [all_destinations], in the order of insertion;
    [None] is the [AttributeError] of [.keys()] on a stored vector that is
    not a dictionary. *)
Fixpoint advertised_keys (vectors : list json) : option (list string) :=
  match vectors with
  | [] => Some []
  | JObj kvs :: rest =>
      match advertised_keys rest with
      | Some ks => Some (d_keys kvs ++ ks)
      | None => None
      end
  | _ :: _ => None
  end.

Definition all_destinations (st : state) : option (list string) :=
  match advertised_keys (d_values (neighbor_dvs st)) with
  | Some ks => Some (ks ++ map (fun e => fst (snd e)) (neighbors st))
  | None => None
  end.

(** [best_cost] and [best_port] are assigned together; [None] stands for
    [(float('inf'), None)]. *)
Definition best : Type := option (Z * Z).

Definition below (c : Z) (b : best) : bool :=
  match b with
  | None => true
  | Some (best_cost, _) => c <? best_cost
  end.

(** The first inner loop: directly connected neighbors. *)
Definition direct_candidates (dest : string) (nbrs : dict Z (string * Z))
    (b : best) : best :=
  fold_left
    (fun b (e : Z * (string * Z)) =>
       let '(port, (endpoint, cost)) := e in
       if String.eqb endpoint dest && below cost b then Some (cost, port)
       else b)
    nbrs b.

(** One round of the second inner loop; [None] is an exception. *)
Definition via_neighbor (st : state) (dest : string) (b : best)
    (e : Z * (string * Z)) : option best :=
  let '(port, (neighbor, direct_cost)) := e in
  match d_get neighbor (neighbor_dvs st) with
  | None => Some b
  | Some vector =>
      match py_contains vector dest with
      | None => None
      | Some false => Some b
      | Some true =>
          match py_subscript vector dest with
          | None => None
          | Some neighbor_cost =>
              match py_num neighbor_cost with
              | None => None
              | Some nc =>
                  if nc >=? 16 then Some b
                  else
                    let total_cost := direct_cost + nc in
                    if below total_cost b && (total_cost <? 16)
                    then Some (Some (total_cost, port))
                    else Some b
              end
          end
      end
  end.

Fixpoint via_candidates (st : state) (dest : string)
    (nbrs : dict Z (string * Z)) (b : best) : option best :=
  match nbrs with
  | [] => Some b
  | e :: rest =>
      match via_neighbor st dest b e with
      | Some b' => via_candidates st dest rest b'
      | None => None
      end
  end.

Definition best_route (st : state) (dest : string) : option best :=
  via_candidates st dest (neighbors st)
    (direct_candidates dest (neighbors st) None).

(** The body of the loop over [all_destinations]. *)
Definition visit (st : state) (updated : bool) (dest : string)
    : result (state * bool) state :=
  if String.eqb dest (addr st) then Done (st, updated)
  else
    match best_route st dest with
    | None => Raised st
    | Some (Some (best_cost, best_port)) =>
        let better :=
          match d_get dest (dv st) with
          | None => true
          | Some (cost, _) => cost >? best_cost
          end in
        if better then
          let st := with_dv st (d_set dest (best_cost, Some best_port) (dv st)) in
          let st := with_forwarding_table st
                      (d_set dest best_port (forwarding_table st)) in
          Done (st, true)
        else Done (st, updated)
    | Some None =>
        if d_mem dest (dv st) then
          let st := with_dv st (d_del dest (dv st)) in
          let st := if d_mem dest (forwarding_table st)
                    then with_forwarding_table st
                           (d_del dest (forwarding_table st))
                    else st in
          Done (st, true)
        else Done (st, updated)
    end.

Fixpoint visit_all (st : state) (updated : bool) (dests : list string)
    : result (state * bool) state :=
  match dests with
  | [] => Done (st, updated)
  | dest :: rest =>
      match visit st updated dest with
      | Done (st', updated') => visit_all st' updated' rest
      | other => other
      end
  end.

(** [update_distance_vector]: the new state and the value returned. *)
Definition update_distance_vector (S : set_iteration) (st : state)
    : result (state * bool) state :=
  match all_destinations st with
  | None => Raised st
  | Some inserted => visit_all st false (iter_order S inserted)
  end.

(** Whether the received vector differs from the stored one; [None] is an
    exception. *)
Fixpoint differs (old_dv : json) (items : list (string * json)) : option bool :=
  match items with
  | [] => Some false
  | (dest, cost) :: rest =>
      match py_contains old_dv dest with
      | None => None
      | Some false => Some true
      | Some true =>
          match py_subscript old_dv dest with
          | None => None
          | Some old_cost =>
              if negb (py_eq old_cost cost) then Some true
              else differs old_dv rest
          end
      end
  end.

Definition dv_changed (st : state) (neighbor_addr : string)
    (received_dv : json) : option bool :=
  match d_get neighbor_addr (neighbor_dvs st) with
  | None => Some true
  | Some old_dv =>
      match py_items received_dv with
      | None => None
      | Some items => differs old_dv items
      end
  end.

(** The routing branch of [handle_packet], inside the [try]. *)
Definition handle_routing (S : set_iteration) (st : state) (port : Z)
    (p : packet) : run :=
  match d_get port (neighbors st) with
  | None => Raised (st, [])
  | Some (neighbor_addr, _) =>
      match content p with
      | Unparseable => Raised (st, [])
      | Doc received_dv =>
          match dv_changed st neighbor_addr received_dv with
          | None => Raised (st, [])
          | Some changed =>
              let st := with_neighbor_dvs st
                          (d_set neighbor_addr received_dv (neighbor_dvs st)) in
              if changed then
                match update_distance_vector S st with
                | Done (st', true) => Done (broadcast_dv st')
                | Done (st', false) => Done (st', [])
                | Raised st' => Raised (st', [])
                | Diverged => Diverged
                end
              else Done (st, [])
          end
      end
  end.

Definition handle_packet (S : set_iteration) (st : state) (port : Z)
    (p : packet) : run :=
  if is_traceroute p then
    Done (st, relay (forwarding_table st) (neighbors st) p)
  else try_except (handle_routing S st port p).

Definition handle_new_link (S : set_iteration) (st : state)
    (port : Z) (endpoint : string) (cost : Z) : run :=
  let st := with_neighbors st (d_set port (endpoint, cost) (neighbors st)) in
  let install :=
    match d_get endpoint (dv st) with
    | None => true
    | Some (c, _) => c >? cost
    end in
  let st :=
    if install then
      with_forwarding_table
        (with_dv st (d_set endpoint (cost, Some port) (dv st)))
        (d_set endpoint port (forwarding_table st))
    else st in
  match update_distance_vector S st with
  | Done (st, _) =>
      let '(st, sent) := broadcast_dv st in
      if d_mem port (neighbors st)
      then Done (st, sent ++ send_dv_to_neighbor st port)
      else Done (st, sent)
  | Raised st => Raised (st, [])
  | Diverged => Diverged
  end.

(** The destinations collected in [routes_to_update]. *)
Definition routes_through (port : Z) (d : dict string (Z * option Z))
    : list string :=
  flat_map
    (fun (item : string * (Z * option Z)) =>
       let '(dest, (_, out_port)) := item in
       match out_port with
       | Some p => if p =? port then [dest] else []
       | None => []
       end)
    d.

Definition evict (st : state) (dest : string) : state :=
  let st := with_dv st (d_del dest (dv st)) in
  if d_mem dest (forwarding_table st)
  then with_forwarding_table st (d_del dest (forwarding_table st))
  else st.

Definition handle_remove_link (S : set_iteration) (st : state) (port : Z)
    : run :=
  match d_get port (neighbors st) with
  | None => Done (st, [])
  | Some (neighbor_addr, _) =>
      let st := with_neighbors st (d_del port (neighbors st)) in
      let st := if d_mem neighbor_addr (neighbor_dvs st)
                then with_neighbor_dvs st
                       (d_del neighbor_addr (neighbor_dvs st))
                else st in
      let routes_to_update := routes_through port (dv st) in
      let st := fold_left evict routes_to_update st in
      match update_distance_vector S st with
      | Done (st, _) => Done (broadcast_dv st)
      | Raised st => Raised (st, [])
      | Diverged => Diverged
      end
  end.

Definition handle_time (S : set_iteration) (st : state) (time_ms : Z) : run :=
  if time_ms - last_sent st >=? heartbeat_time st then
    match update_distance_vector S st with
    | Done (st, _) =>
        let '(st, sent) := broadcast_dv st in
        Done (with_last_sent st time_ms, sent)
    | Raised st => Raised (st, [])
    | Diverged => Diverged
    end
  else Done (st, []).

(** The four inbound events of the harness. *)
Inductive event : Type :=
| PacketArrival (port : Z) (p : packet)
| LinkUp (port : Z) (endpoint : string) (cost : Z)
| LinkDown (port : Z)
| Tick (time_ms : Z).

Definition handle (S : set_iteration) (st : state) (e : event) : run :=
  match e with
  | PacketArrival port p => handle_packet S st port p
  | LinkUp port endpoint cost => handle_new_link S st port endpoint cost
  | LinkDown port => handle_remove_link S st port
  | Tick time_ms => handle_time S st time_ms
  end.

End DV.

(* ================================================================= *)
(** ** The link-state engine ([LSrouter.py]) *)

Module LS.

Record state : Type := State {
  addr : string;
  heartbeat_time : Z;
  last_sent : Z;
  ls_db : dict pykey json;                 (* origin -> its adjacency list *)
  seq_nums : dict pykey scalar;            (* origin -> last accepted seq *)
  neighbors : dict Z (string * Z);         (* port -> (neighbor_addr, cost) *)
  forwarding_table : dict string Z;        (* destination -> port *)
  packet_history : list (pykey * pykey)    (* set of (origin, seq) *)
}.

Definition with_last_sent (st : state) (t : Z) : state :=
  State (addr st) (heartbeat_time st) t (ls_db st) (seq_nums st)
        (neighbors st) (forwarding_table st) (packet_history st).
Definition with_ls_db (st : state) (d : dict pykey json) : state :=
  State (addr st) (heartbeat_time st) (last_sent st) d (seq_nums st)
        (neighbors st) (forwarding_table st) (packet_history st).
Definition with_seq_nums (st : state) (d : dict pykey scalar) : state :=
  State (addr st) (heartbeat_time st) (last_sent st) (ls_db st) d
        (neighbors st) (forwarding_table st) (packet_history st).
Definition with_neighbors (st : state) (n : dict Z (string * Z)) : state :=
  State (addr st) (heartbeat_time st) (last_sent st) (ls_db st) (seq_nums st)
        n (forwarding_table st) (packet_history st).
Definition with_forwarding_table (st : state) (f : dict string Z) : state :=
  State (addr st) (heartbeat_time st) (last_sent st) (ls_db st) (seq_nums st)
        (neighbors st) f (packet_history st).
Definition with_packet_history (st : state) (h : list (pykey * pykey)) : state :=
  State (addr st) (heartbeat_time st) (last_sent st) (ls_db st) (seq_nums st)
        (neighbors st) (forwarding_table st) h.

(** [__init__] *)
Definition init (a : string) (heartbeat : Z) : state :=
  State a heartbeat 0 [(KStr a, JObj [])] [(KStr a, SInt 0)] [] [] [].

Definition run : Type := result (state * list send) (state * list send).

(** *** The priority queue of [heapq]

    Entries are tuples [(dist, node)], ordered as Python orders tuples.
    [heappop] returns the least entry; equal entries are the same value,
    so the layout of the heap is not observable. *)
Definition entry : Type := (Z * string)%type.

Definition entry_lt (a b : entry) : bool :=
  (fst a <? fst b) || ((fst a =? fst b) && String.ltb (snd a) (snd b)).

Definition entry_eqb (a b : entry) : bool :=
  (fst a =? fst b) && String.eqb (snd a) (snd b).

Fixpoint least (x : entry) (rest : list entry) : entry :=
  match rest with
  | [] => x
  | y :: rest' => least (if entry_lt y x then y else x) rest'
  end.

Fixpoint remove_entry (x : entry) (pq : list entry) : list entry :=
  match pq with
  | [] => []
  | y :: pq' => if entry_eqb x y then pq' else y :: remove_entry x pq'
  end.

Definition heappop (pq : list entry) : option (entry * list entry) :=
  match pq with
  | [] => None
  | x :: rest => let m := least x rest in Some (m, remove_entry m pq)
  end.

Definition heappush (pq : list entry) (x : entry) : list entry := pq ++ [x].

(** *** [calculate_forwarding_table] *)

(** The local variables of the function. *)
Record locals : Type := Locals {
  distances : dict string Z;
  predecessors : dict string string;
  first_hops : dict string Z;
  pq : list entry
}.

(** The first hop recorded for a node whose distance just improved. *)
Definition record_first_hop (st : state) (current neighbor : string)
    (fh : dict string Z) : dict string Z :=
  if String.eqb current (addr st) then
    fold_left
      (fun fh (e : Z * (string * Z)) =>
         let '(port, (endpoint, _)) := e in
         if String.eqb endpoint neighbor then d_set neighbor port fh else fh)
      (neighbors st) fh
  else
    match d_get current fh with
    | Some port => d_set neighbor port fh
    | None => fh
    end.

(** One round of the loop over [self.ls_db[current].items()]; [None] is
    the [TypeError] of [dist + cost]. *)
Definition relax (st : state) (current : string) (dist : Z) (l : locals)
    (item : string * json) : option locals :=
  let '(neighbor, cost) := item in
  match py_num cost with
  | None => None
  | Some c =>
      let new_dist := dist + c in
      let improves :=
        match d_get neighbor (distances l) with
        | None => true
        | Some d => new_dist <? d
        end in
      if improves then
        Some (Locals (d_set neighbor new_dist (distances l))
                     (d_set neighbor current (predecessors l))
                     (record_first_hop st current neighbor (first_hops l))
                     (heappush (pq l) (new_dist, neighbor)))
      else Some l
  end.

Fixpoint relax_all (st : state) (current : string) (dist : Z) (l : locals)
    (items : list (string * json)) : option locals :=
  match items with
  | [] => Some l
  | item :: rest =>
      match relax st current dist l item with
      | Some l' => relax_all st current dist l' rest
      | None => None
      end
  end.

(** One round of [while pq]: [Done] carries the locals to go on with. *)
Definition settle (st : state) (e : entry) (l : locals) : option locals :=
  let '(dist, current) := e in
  let stale :=
    match d_get current (distances l) with
    | Some d => dist >? d
    | None => false
    end in
  if stale then Some l
  else
    match d_get (KStr current) (ls_db st) with
    | None => Some l
    | Some adjacency =>
        match py_items adjacency with
        | None => None
        | Some items => relax_all st current dist l items
        end
    end.

Fixpoint while_pq (fuel : nat) (st : state) (l : locals)
    : result (dict string Z) unit :=
  match fuel with
  | O => Diverged
  | S fuel' =>
      match heappop (pq l) with
      | None => Done (first_hops l)
      | Some (e, pq') =>
          match settle st e (Locals (distances l) (predecessors l)
                                    (first_hops l) pq') with
          | Some l' => while_pq fuel' st l'
          | None => Raised tt
          end
      end
  end.

Definition calculate_forwarding_table (fuel : nat) (st : state)
    : result state state :=
  let st := with_forwarding_table st [] in
  match while_pq fuel st (Locals [(addr st, 0)] [] [] [(0, addr st)]) with
  | Done first_hops => Done (with_forwarding_table st first_hops)
  | Raised _ => Raised st
  | Diverged => Diverged
  end.

(** *** Sending *)

(** [json.dumps(ls_data)] as decoded again by the receiver. *)
Definition dumps_link_state (router : string) (seq : scalar) (links : json)
    : payload :=
  Doc (JObj [("router"%string, JStr router);
             ("seq"%string, json_of_scalar seq);
             ("links"%string, links)]).

(** [broadcast_link_state]; [now] is what [int(time.time() * 1000)]
    evaluates to. *)
Definition broadcast_link_state (now : Z) (st : state) : run :=
  match d_get (KStr (addr st)) (seq_nums st) with
  | None => Raised (st, [])
  | Some seq =>
      match d_get (KStr (addr st)) (ls_db st) with
      | None => Raised (st, [])
      | Some links =>
          let content := dumps_link_state (addr st) seq links in
          Done (with_last_sent st now,
                map (fun e : Z * (string * Z) =>
                       (fst e, Packet ROUTING (addr st) (fst (snd e)) content))
                    (neighbors st))
      end
  end.

(** [flood_packet] *)
Definition flood_packet (st : state) (p : packet) (exclude_port : Z)
    : list send :=
  flat_map (fun port => if port =? exclude_port then [] else [(port, p)])
           (d_keys (neighbors st)).

(** *** The handlers *)

Definition in_history (k : pykey * pykey) (h : list (pykey * pykey)) : bool :=
  existsb (fun k' => if eq_dec (fst k) (fst k')
                     then if eq_dec (snd k) (snd k') then true else false
                     else false) h.

(** [router_addr not in self.seq_nums or seq_num > self.seq_nums[router_addr]] *)
Definition is_newer (st : state) (router_addr seq_num : scalar) : option bool :=
  match d_get (key_of router_addr) (seq_nums st) with
  | None => Some true
  | Some last => py_gt seq_num last
  end.

(** The routing branch of [handle_packet], inside the [try]. *)
Definition handle_routing (fuel : nat) (st : state) (port : Z) (p : packet)
    : run :=
  match content p with
  | Unparseable => Raised (st, [])
  | Doc ls_data =>
      match py_subscript ls_data "router", py_subscript ls_data "seq",
            py_subscript ls_data "links" with
      | Some router_addr, Some seq_num, Some link_state =>
          match py_hashable router_addr, py_hashable seq_num with
          | Some r, Some s =>
              if in_history (key_of r, key_of s) (packet_history st)
              then Done (st, [])
              else
                let st := with_packet_history st
                            ((key_of r, key_of s) :: packet_history st) in
                match is_newer st r s with
                | None => Raised (st, [])
                | Some false => Done (st, [])
                | Some true =>
                    let st := with_seq_nums st
                                (d_set (key_of r) s (seq_nums st)) in
                    let st := with_ls_db st
                                (d_set (key_of r) link_state (ls_db st)) in
                    match calculate_forwarding_table fuel st with
                    | Done st => Done (st, flood_packet st p port)
                    | Raised st => Raised (st, [])
                    | Diverged => Diverged
                    end
                end
          | _, _ => Raised (st, [])
          end
      | _, _, _ => Raised (st, [])
      end
  end.

Definition handle_packet (fuel : nat) (st : state) (port : Z) (p : packet)
    : run :=
  if is_traceroute p then
    Done (st, relay (forwarding_table st) (neighbors st) p)
  else try_except (handle_routing fuel st port p).

(** [self.seq_nums[self.addr] += 1] *)
Definition bump_seq (st : state) : option state :=
  match d_get (KStr (addr st)) (seq_nums st) with
  | None => None
  | Some seq =>
      match scalar_num seq with
      | None => None
      | Some n =>
          Some (with_seq_nums st
                  (d_set (KStr (addr st)) (SInt (n + 1)) (seq_nums st)))
      end
  end.

(** The common tail of the two link handlers. *)
Definition renumber_and_announce (fuel : nat) (now : Z) (st : state) : run :=
  match bump_seq st with
  | None => Raised (st, [])
  | Some st =>
      match calculate_forwarding_table fuel st with
      | Done st => broadcast_link_state now st
      | Raised st => Raised (st, [])
      | Diverged => Diverged
      end
  end.

Definition handle_new_link (fuel : nat) (now : Z) (st : state)
    (port : Z) (endpoint : string) (cost : Z) : run :=
  let st := with_neighbors st (d_set port (endpoint, cost) (neighbors st)) in
  match d_get (KStr (addr st)) (ls_db st) with
  | Some (JObj own) =>
      let st := with_ls_db st
                  (d_set (KStr (addr st))
                         (JObj (d_set endpoint (JInt cost) own)) (ls_db st)) in
      renumber_and_announce fuel now st
  | _ => Raised (st, [])
  end.

Definition handle_remove_link (fuel : nat) (now : Z) (st : state) (port : Z)
    : run :=
  match d_get port (neighbors st) with
  | None => Done (st, [])
  | Some (neighbor_addr, _) =>
      let st := with_neighbors st (d_del port (neighbors st)) in
      match d_get (KStr (addr st)) (ls_db st) with
      | None => Raised (st, [])
      | Some own =>
          match py_contains own neighbor_addr with
          | None => Raised (st, [])
          | Some false => renumber_and_announce fuel now st
          | Some true =>
              match own with
              | JObj kvs =>
                  let st := with_ls_db st
                              (d_set (KStr (addr st))
                                     (JObj (d_del neighbor_addr kvs))
                                     (ls_db st)) in
                  renumber_and_announce fuel now st
              | _ => Raised (st, [])
              end
          end
      end
  end.

Definition handle_time (now : Z) (st : state) (time_ms : Z) : run :=
  if time_ms - last_sent st >=? heartbeat_time st then
    match broadcast_link_state now st with
    | Done (st, sent) => Done (with_last_sent st time_ms, sent)
    | other => other
    end
  else Done (st, []).

Inductive event : Type :=
| PacketArrival (port : Z) (p : packet)
| LinkUp (port : Z) (endpoint : string) (cost : Z)
| LinkDown (port : Z)
| Tick (time_ms : Z).

(** [fuel] bounds the rounds of the shortest-path loop and [now] is the
    reading of the wall clock. *)
Definition handle (fuel : nat) (now : Z) (st : state) (e : event) : run :=
  match e with
  | PacketArrival port p => handle_packet fuel st port p
  | LinkUp port endpoint cost => handle_new_link fuel now st port endpoint cost
  | LinkDown port => handle_remove_link fuel now st port
  | Tick time_ms => handle_time now st time_ms
  end.

End LS.

(* ================================================================= *)
(** ** Specification-side definitions *)

(** The link cost and advertised costs as the data model has them: every
    stored vector is a dictionary from destinations to numbers. *)
Definition vector_ok (j : json) : Prop :=
  exists kvs, j = JObj kvs /\
    forall d c, In (d, c) kvs -> exists n, py_num c = Some n.

Definition vectors_ok (st : DV.state) : Prop :=
  forall n j, In (n, j) (DV.neighbor_dvs st) -> vector_ok j.

(** [dv[self] = (0, none)], the invariant of the data model. *)
Definition self_route (st : DV.state) : Prop :=
  d_get (DV.addr st) (DV.dv st) = Some (0, None).


(** The cost reported on [port] for a route of [dv]. *)
Definition reported (port : Z) (route : Z * option Z) : Z :=
  match snd route with
  | Some p => if p =? port then 16 else fst route
  | None => fst route
  end.

(** A distance-vector state used in the examples: node A with neighbors B
    (port 1) and D (port 2), and a route to C through B.  It is what the
    events of [dv_example_trace] leave. *)
Definition dv_example : DV.state :=
  DV.State "A" 10 0
    [("A"%string, (0, None)); ("B"%string, (1, Some 1));
     ("C"%string, (2, Some 1)); ("D"%string, (3, Some 2))]
    [(1, ("B"%string, 1)); (2, ("D"%string, 3))]
    [("B"%string, JObj [("C"%string, JInt 1)])]
    [("B"%string, 1); ("C"%string, 1); ("D"%string, 2)].

(** Link costs as the data model and the convergence property have them:
    non-negative and below the infinity threshold. *)
Definition link_costs_ok (st : DV.state) : Prop :=
  forall port n c, In (port, (n, c)) (DV.neighbors st) -> 0 <= c < 16.

(** The candidates of the invariant of the data model for destination [d]:
    the direct link costs to [d] and, over the neighbors [n],
    [link_cost(n) + neighbor_dvs[n][d]], each kept only below 16. *)
Definition direct_costs (st : DV.state) (d : string) : list Z :=
  flat_map (fun e : Z * (string * Z) =>
              if String.eqb (fst (snd e)) d then [snd (snd e)] else [])
           (DV.neighbors st).

Definition advertised (st : DV.state) (n d : string) : option Z :=
  match d_get n (DV.neighbor_dvs st) with
  | Some vector =>
      match py_subscript vector d with
      | Some c => py_num c
      | None => None
      end
  | None => None
  end.

Definition relayed_costs (st : DV.state) (d : string) : list Z :=
  flat_map (fun e : Z * (string * Z) =>
              match advertised st (fst (snd e)) d with
              | Some c => [snd (snd e) + c]
              | None => []
              end)
           (DV.neighbors st).

Definition candidates (st : DV.state) (d : string) : list Z :=
  filter (fun c => c <? 16) (direct_costs st d ++ relayed_costs st d).

(** The least element of a list of costs. *)
Fixpoint list_min (l : list Z) : option Z :=
  match l with
  | [] => None
  | c :: l' =>
      match list_min l' with
      | Some m => Some (Z.min c m)
      | None => Some c
      end
  end.

(** The destinations the recomputation looks at: the neighbors and the keys
    of the stored vectors. *)
Definition known_destination (st : DV.state) (d : string) : Prop :=
  (exists port c, In (port, (d, c)) (DV.neighbors st)) \/
  (exists n kvs, In (n, JObj kvs) (DV.neighbor_dvs st) /\ In d (d_keys kvs)).

(** [b] is the least of the costs [cs], reached through a port of [ports]. *)
Definition least_of (ports : list Z) (cs : list Z) (b : DV.best) : Prop :=
  match b with
  | None => cs = []
  | Some (c, p) => In c cs /\ (forall c', In c' cs -> c <= c') /\ In p ports
  end.

(** The costs [update_distance_vector] compares for destination [d]: every
    direct link to [d], and every relayed cost whose advertised part and
    whose sum are both below 16. *)
Definition considered (st : DV.state) (d : string) : list Z :=
  direct_costs st d ++
  flat_map (fun e : Z * (string * Z) =>
              match advertised st (fst (snd e)) d with
              | Some c =>
                  if (c <? 16) && (snd (snd e) + c <? 16)
                  then [snd (snd e) + c] else []
              | None => []
              end)
           (DV.neighbors st).

(** The entry of a visited destination after the recomputation, from the
    best route found and the entry it had. *)
Definition recomputed (b : DV.best) (old : option (Z * option Z))
    : option (Z * option Z) :=
  match b with
  | Some (best_cost, best_port) =>
      match old with
      | None => Some (best_cost, Some best_port)
      | Some (cost, port) =>
          if cost >? best_cost then Some (best_cost, Some best_port)
          else Some (cost, port)
      end
  | None => None
  end.

(** What the recomputation leaves alone. *)
Definition same_links (st st' : DV.state) : Prop :=
  DV.addr st' = DV.addr st /\
  DV.heartbeat_time st' = DV.heartbeat_time st /\
  DV.last_sent st' = DV.last_sent st /\
  DV.neighbors st' = DV.neighbors st /\
  DV.neighbor_dvs st' = DV.neighbor_dvs st.

(** The invariant of the data model as the specification words it: the cost
    of every destination in [dv] is the least candidate, and a destination
    without a candidate below 16 is not in [dv]. *)
Definition dv_invariant (st : DV.state) : Prop :=
  forall d,
    (forall c p, d_get d (DV.dv st) = Some (c, p) ->
                 list_min (candidates st d) = Some c) /\
    (list_min (candidates st d) = None -> d_get d (DV.dv st) = None).

(** Running a sequence of events; [None] when a handler does not complete. *)
Fixpoint dv_run (S : set_iteration) (st : DV.state) (events : list DV.event)
    : option DV.state :=
  match events with
  | [] => Some st
  | e :: rest =>
      match DV.handle S st e with
      | Done (st', _) => dv_run S st' rest
      | _ => None
      end
  end.

Definition vector_packet (src dst : string) (v : dict string Z) : packet :=
  Packet ROUTING src dst (DV.dumps_vector v).

Definition dv_example_trace : list DV.event :=
  [DV.LinkUp 1 "B" 1;
   DV.PacketArrival 1 (vector_packet "B" "A" [("C"%string, 1)]);
   DV.LinkUp 2 "D" 3].

(** Node A learns of C through B at cost 1, then B raises it to 5. *)
Definition cost_increase_trace : list DV.event :=
  [DV.LinkUp 1 "B" 1;
   DV.PacketArrival 1 (vector_packet "B" "A"
     [("B"%string, 0); ("C"%string, 1); ("A"%string, 16)]);
   DV.PacketArrival 1 (vector_packet "B" "A"
     [("B"%string, 0); ("C"%string, 5); ("A"%string, 16)])].

(** Node A has neighbors B and C; B advertises X at cost 1 and C reports X
    as unreachable. *)
Definition withdrawal_trace : list DV.event :=
  [DV.LinkUp 1 "B" 1;
   DV.LinkUp 2 "C" 1;
   DV.PacketArrival 1 (vector_packet "B" "A"
     [("B"%string, 0); ("X"%string, 1); ("A"%string, 16)]);
   DV.PacketArrival 2 (vector_packet "C" "A"
     [("C"%string, 0); ("X"%string, 16); ("A"%string, 16)])].

(** B withdraws X by leaving it out of its vector. *)
Definition withdrawal_packet : packet :=
  vector_packet "B" "A" [("B"%string, 0); ("A"%string, 16)].

(** What the specification says of a routing packet from a known neighbor:
    the vector is stored, the local vector is recomputed, and the result is
    broadcast exactly when the recomputation changed something. *)
Definition stores_recomputes_broadcasts (S : set_iteration) (st : DV.state)
    (port : Z) (p : packet) : Prop :=
  forall neighbor_addr link_cost received,
    d_get port (DV.neighbors st) = Some (neighbor_addr, link_cost) ->
    content p = Doc received ->
    let stored :=
      DV.with_neighbor_dvs st
        (d_set neighbor_addr received (DV.neighbor_dvs st)) in
    exists st' changed,
      DV.update_distance_vector S stored = Done (st', changed) /\
      DV.handle_packet S st port p =
        Done (if changed then DV.broadcast_dv st' else (st', [])).


(** The packet [send_dv_to_neighbor] builds for one entry of the link
    table. *)
Definition vector_for (st : DV.state) (e : Z * (string * Z)) : send :=
  (fst e, Packet ROUTING (DV.addr st) (fst (snd e))
            (DV.dumps_vector (DV.poisoned_vector st (fst e)))).

(** When a received vector counts as changed: the neighbor has no stored
    vector, or some destination of the received vector is missing from the
    stored one or has another cost there. *)
Definition counts_as_changed (st : DV.state) (neighbor_addr : string)
    (received : dict string json) : Prop :=
  d_get neighbor_addr (DV.neighbor_dvs st) = None \/
  exists old d c,
    d_get neighbor_addr (DV.neighbor_dvs st) = Some old /\
    In (d, c) received /\
    (py_subscript old d = None \/
     exists c0, py_subscript old d = Some c0 /\ py_eq c0 c = false).

(* ----------------------------------------------------------------- *)
(** *** Link state: the graph of [ls_db] *)

(** The link-state database as the data model has it: every record is a
    dictionary from neighbors to non-negative numbers. *)
Definition adjacency_ok (j : json) : Prop :=
  exists kvs, j = JObj kvs /\
    forall v c, In (v, c) kvs -> exists w, py_num c = Some w /\ 0 <= w.

Definition ls_db_ok (st : LS.state) : Prop :=
  forall k j, In (k, j) (LS.ls_db st) -> adjacency_ok j.

(** An edge [u -> v] of cost [w] recorded in [ls_db]. *)
Definition edge (st : LS.state) (u v : string) (w : Z) : Prop :=
  exists kvs c,
    d_get (KStr u) (LS.ls_db st) = Some (JObj kvs) /\
    In (v, c) kvs /\ py_num c = Some w.

(** [route st f v c]: a path from the engine's own address to [v] with at
    least one edge, whose first hop is [f] and whose cost is [c]. *)
Inductive route (st : LS.state) : string -> string -> Z -> Prop :=
| route_direct v w :
    edge st (LS.addr st) v w -> route st v v w
| route_step f u v c w :
    route st f u c -> edge st u v w -> route st f v (c + w).

Definition reachable (st : LS.state) (v : string) : Prop :=
  exists f c, route st f v c.

Definition shortest (st : LS.state) (f v : string) (c : Z) : Prop :=
  route st f v c /\ forall f' c', route st f' v c' -> c <= c'.

(** Every neighbor listed in the engine's own record has a port in the link
    table. *)
Definition links_have_ports (st : LS.state) : Prop :=
  forall v w, edge st (LS.addr st) v w ->
    exists port cost, In (port, (v, cost)) (LS.neighbors st).

(** [table] sends exactly the destinations reachable from the engine other
    than itself to the port of the first hop of a shortest path. *)
Definition first_hop_table (st : LS.state) (table : dict string Z) : Prop :=
  (forall v, v <> LS.addr st -> reachable st v ->
     exists port, d_get v table = Some port) /\
  (forall v port, d_get v table = Some port ->
     v <> LS.addr st /\
     exists f c cost,
       shortest st f v c /\ In (port, (f, cost)) (LS.neighbors st)).

(** The property as the specification words it, for every state: every
    reachable destination is in the table with the port of the first hop of
    a shortest path, and every other destination is absent. *)
Definition table_of_all_reachable (st : LS.state) : Prop :=
  exists fuel st',
    LS.calculate_forwarding_table fuel st = Done st' /\
    forall v,
      (reachable st v ->
         exists port f c cost,
           d_get v (LS.forwarding_table st') = Some port /\
           shortest st f v c /\ In (port, (f, cost)) (LS.neighbors st)) /\
      (~ reachable st v -> d_get v (LS.forwarding_table st') = None).

(** The number of edges recorded for the nodes not yet in [processed]. *)
Definition adjacency_size (j : json) : nat :=
  match j with
  | JObj kvs => List.length kvs
  | _ => O
  end.

Definition is_processed (processed : list string) (k : pykey) : bool :=
  match k with
  | KStr u => if In_dec string_dec u processed then true else false
  | _ => false
  end.

Fixpoint pending_edges (processed : list string) (db : dict pykey json) : nat :=
  match db with
  | [] => O
  | (k, j) :: db' =>
      ((if is_processed processed k then O else adjacency_size j)
       + pending_edges processed db')%nat
  end.

(** The invariant of the loop [while pq], with the nodes already taken from
    the queue at their final distance as ghost state. *)
Record dijkstra_inv (st : LS.state) (processed : list string) (l : LS.locals)
    : Prop := {
  inv_self : d_get (LS.addr st) (LS.distances l) = Some 0;
  inv_route : forall v d,
    d_get v (LS.distances l) = Some d -> v <> LS.addr st ->
    exists f, route st f v d /\
      (links_have_ports st ->
       exists port cost, d_get v (LS.first_hops l) = Some port /\
                         In (port, (f, cost)) (LS.neighbors st));
  inv_hops : forall v port,
    d_get v (LS.first_hops l) = Some port ->
    v <> LS.addr st /\ exists d, d_get v (LS.distances l) = Some d;
  inv_queue : forall d v,
    In (d, v) (LS.pq l) ->
    exists dv, d_get v (LS.distances l) = Some dv /\ dv <= d;
  inv_nodup : NoDup (LS.pq l);
  inv_pending : forall v dv,
    d_get v (LS.distances l) = Some dv ->
    In v processed \/ In (dv, v) (LS.pq l);
  inv_processed : forall s,
    In s processed ->
    exists ds, d_get s (LS.distances l) = Some ds /\
      (forall d x, In (d, x) (LS.pq l) -> ds <= d) /\
      (forall d, In (d, s) (LS.pq l) -> ds < d);
  inv_relaxed : forall s ds v w,
    In s processed -> d_get s (LS.distances l) = Some ds ->
    edge st s v w ->
    exists dv, d_get v (LS.distances l) = Some dv /\ dv <= ds + w
}.

(** The invariant inside the loop over the edges of [current], taken from
    the queue at distance [dist]; [done] are the edges already looked at. *)
Record relax_inv (st : LS.state) (processed : list string) (current : string)
    (dist : Z) (done : list (string * json)) (l : LS.locals) : Prop := {
  rel_self : d_get (LS.addr st) (LS.distances l) = Some 0;
  rel_current : d_get current (LS.distances l) = Some dist;
  rel_route : forall v d,
    d_get v (LS.distances l) = Some d -> v <> LS.addr st ->
    exists f, route st f v d /\
      (links_have_ports st ->
       exists port cost, d_get v (LS.first_hops l) = Some port /\
                         In (port, (f, cost)) (LS.neighbors st));
  rel_hops : forall v port,
    d_get v (LS.first_hops l) = Some port ->
    v <> LS.addr st /\ exists d, d_get v (LS.distances l) = Some d;
  rel_queue : forall d v,
    In (d, v) (LS.pq l) ->
    exists dv, d_get v (LS.distances l) = Some dv /\ dv <= d;
  rel_nodup : NoDup (LS.pq l);
  rel_pending : forall v dv,
    d_get v (LS.distances l) = Some dv ->
    In v (current :: processed) \/ In (dv, v) (LS.pq l);
  rel_processed : forall s,
    In s (current :: processed) ->
    exists ds, d_get s (LS.distances l) = Some ds /\ ds <= dist /\
      (forall d, In (d, s) (LS.pq l) -> ds < d);
  rel_bound : forall d x, In (d, x) (LS.pq l) -> dist <= d;
  rel_fresh : ~ In current processed;
  rel_relaxed : forall s ds v w,
    In s processed ->
    d_get s (LS.distances l) = Some ds ->
    edge st s v w ->
    exists dv, d_get v (LS.distances l) = Some dv /\ dv <= ds + w;
  rel_done : forall v c w,
    In (v, c) done -> py_num c = Some w ->
    exists dv, d_get v (LS.distances l) = Some dv /\ dv <= dist + w
}.

(** The first link of node A coming up, and the state it leaves. *)
Definition first_link_up : LS.run :=
  LS.handle 10 0 (LS.init "A" 10) (LS.LinkUp 1 "B" 1).

Definition after_first_link_up : LS.state * list send :=
  match first_link_up with
  | Done x => x
  | Raised x => x
  | Diverged => (LS.init "A" 10, [])
  end.

Arguments inv_self {st processed l} _.
Arguments inv_route {st processed l} _.
Arguments inv_hops {st processed l} _.
Arguments inv_queue {st processed l} _.
Arguments inv_nodup {st processed l} _.
Arguments inv_pending {st processed l} _.
Arguments inv_processed {st processed l} _.
Arguments inv_relaxed {st processed l} _.
Arguments rel_self {st processed current dist done l} _.
Arguments rel_current {st processed current dist done l} _.
Arguments rel_route {st processed current dist done l} _.
Arguments rel_hops {st processed current dist done l} _.
Arguments rel_queue {st processed current dist done l} _.
Arguments rel_nodup {st processed current dist done l} _.
Arguments rel_pending {st processed current dist done l} _.
Arguments rel_processed {st processed current dist done l} _.
Arguments rel_bound {st processed current dist done l} _.
Arguments rel_fresh {st processed current dist done l} _.
Arguments rel_relaxed {st processed current dist done l} _.
Arguments rel_done {st processed current dist done l} _.

(* ----------------------------------------------------------------- *)
(** *** Link state: example states and traces *)

(** Running a sequence of events with a fixed fuel and clock reading;
    [None] when a handler does not complete. *)
Fixpoint ls_run (fuel : nat) (now : Z) (st : LS.state) (events : list LS.event)
    : option LS.state :=
  match events with
  | [] => Some st
  | e :: rest =>
      match LS.handle fuel now st e with
      | Done (st', _) => ls_run fuel now st' rest
      | _ => None
      end
  end.

Definition link_state_packet (src dst : string) (router seq links : json)
    : packet :=
  Packet ROUTING src dst
    (Doc (JObj [("router"%string, router); ("seq"%string, seq);
                ("links"%string, links)])).

(** Node A with neighbor B on port 1, knowing B's record.  It is what the
    events of [ls_example_trace] leave. *)
Definition ls_example : LS.state :=
  LS.State "A" 10 0
    [(KStr "A", JObj [("B"%string, JInt 1)]);
     (KStr "B", JObj [("A"%string, JInt 1); ("C"%string, JInt 1)])]
    [(KStr "A", SInt 1); (KStr "B", SInt 1)]
    [(1, ("B"%string, 1))]
    [("B"%string, 1); ("C"%string, 1)]
    [(KStr "B", KNum 1)].

Definition ls_example_trace : list LS.event :=
  [LS.LinkUp 1 "B" 1;
   LS.PacketArrival 1
     (link_state_packet "B" "A" (JStr "B") (JInt 1)
        (JObj [("A"%string, JInt 1); ("C"%string, JInt 1)]))].

(** A record that names the receiver itself as origin, with a sequence
    number above its own (one of its records from before a restart). *)
Definition own_record_packet : packet :=
  link_state_packet "B" "A" (JStr "A") (JInt 7) (JObj [("Z"%string, JInt 1)]).

Definition own_record_trace : list LS.event :=
  [LS.LinkUp 1 "B" 1; LS.PacketArrival 1 own_record_packet].

(** [ls_db[self]] is the mapping from the neighbor addresses of the link
    table to the link costs. *)
Definition in_sync (st : LS.state) : Prop :=
  exists own,
    d_get (KStr (LS.addr st)) (LS.ls_db st) = Some (JObj own) /\
    forall e j,
      d_get e own = Some j <->
      exists port c, j = JInt c /\ In (port, (e, c)) (LS.neighbors st).

Definition endpoints (st : LS.state) : list string :=
  map (fun e : Z * (string * Z) => fst (snd e)) (LS.neighbors st).

(** The property as the specification states it: every handler that
    completes keeps the
    synchronisation. *)
Definition sync_preserved (fuel : nat) (now : Z) (st : LS.state)
    (e : LS.event) : Prop :=
  in_sync st ->
  forall st' out, LS.handle fuel now st e = Done (st', out) -> in_sync st'.

(** The events under which the synchronisation is kept: a tick, a link
    down, a link up on an unused port to an address that is not yet a
    neighbor, a data packet, and a routing packet that does not name the
    engine itself as origin. *)
Definition keeps_own_record (st : LS.state) (e : LS.event) : Prop :=
  match e with
  | LS.PacketArrival _ p =>
      is_traceroute p = true \/
      forall ls_data, content p = Doc ls_data ->
        py_subscript ls_data "router" <> Some (JStr (LS.addr st))
  | LS.LinkUp port endpoint _ =>
      ~ In port (d_keys (LS.neighbors st)) /\ ~ In endpoint (endpoints st)
  | LS.LinkDown _ => True
  | LS.Tick _ => True
  end.

(** The state and the packets a run ends with, whether or not it raised. *)
Definition ends_with (r : LS.run) (st' : LS.state) (out : list send) : Prop :=
  r = Done (st', out) \/ r = Raised (st', out).

(** A run with the reading of the wall clock taken out of the state. *)
Definition forget_clock (r : LS.run) : LS.run :=
  match r with
  | Done (st, out) => Done (LS.with_last_sent st 0, out)
  | Raised (st, out) => Raised (LS.with_last_sent st 0, out)
  | Diverged => Diverged
  end.

(** Determinism as the specification states it: the outcome of a handler
    is determined by the
    state and the arguments of the event. *)
Definition determined_by_state_and_event : Prop :=
  forall fuel now now' st e,
    LS.handle fuel now st e = LS.handle fuel now' st e.

(** Whether [sequence] is newer than what is recorded for [origin]. *)
Definition newer (st : LS.state) (origin : string) (sequence : Z) : Prop :=
  match d_get (KStr origin) (LS.seq_nums st) with
  | None => True
  | Some last => exists n, scalar_num last = Some n /\ n < sequence
  end.

(** The sequence number recorded for [origin], if any, is a number. *)
Definition seq_ok (st : LS.state) (origin : string) : Prop :=
  forall last, d_get (KStr origin) (LS.seq_nums st) = Some last ->
    exists n, scalar_num last = Some n.

(** The state after a record is accepted, before the recomputation. *)
Definition accepted (st : LS.state) (origin : string) (sequence : Z)
    (links : json) : LS.state :=
  let st := LS.with_packet_history st
              ((KStr origin, KNum sequence) :: LS.packet_history st) in
  let st := LS.with_seq_nums st
              (d_set (KStr origin) (SInt sequence) (LS.seq_nums st)) in
  LS.with_ls_db st (d_set (KStr origin) links (LS.ls_db st)).

(** The engine's own record agrees with the link table, in which no two
    ports lead to the same neighbor. *)
Definition own_record_ok (st : LS.state) : Prop :=
  in_sync st /\ NoDup (endpoints st) /\ d_wf (LS.neighbors st).

(** Two malformed payloads: a link-state record whose cost is a string, and
    a distance vector whose cost is a string. *)
Definition malformed_record_packet : packet :=
  link_state_packet "B" "A" (JStr "B") (JInt 2)
    (JObj [("A"%string, JStr "far")]).

Definition malformed_vector_packet : packet :=
  Packet ROUTING "B" "A" (Doc (JObj [("C"%string, JStr "far")])).

(** A newer record of B, as node A of [ls_example] receives it. *)
Definition newer_record_packet : packet :=
  link_state_packet "B" "A" (JStr "B") (JInt 2)
    (JObj [("A"%string, JInt 1)]).

(* ================================================================= *)
(** ** Further properties: definitions *)

(** The neighbor address of an entry of the link table. *)
Definition endpoint_of (e : Z * (string * Z)) : string := fst (snd e).

(** What relaying [p] sends, given the forwarding table and the link
    table: the packet itself on the port of the table, else on the port of
    the first link to the destination, else nothing. *)
Definition relayed (forwarding_table : dict string Z)
    (nbrs : dict Z (string * Z)) (p : packet) (out : list send) : Prop :=
  match d_get (dst_addr p) forwarding_table with
  | Some port => out = [(port, p)]
  | None =>
      (out = [] /\ ~ In (dst_addr p) (map endpoint_of nbrs)) \/
      (exists before port cost after,
         nbrs = before ++ (port, (dst_addr p, cost)) :: after /\
         ~ In (dst_addr p) (map endpoint_of before) /\
         out = [(port, p)])
  end.

(** How a run of a distance-vector handler ends, completed or raised. *)
Definition dv_ends (r : DV.run) (st' : DV.state) (out : list send) : Prop :=
  r = Done (st', out) \/ r = Raised (st', out).

(** The tables of the distance-vector engine agree: the engine's own route
    is [(0, None)], the forwarding table holds exactly the ports of [dv],
    and every such port is a port of the link table. *)
Definition dv_tables_ok (st : DV.state) : Prop :=
  d_wf (DV.dv st) /\
  self_route st /\
  (forall d port,
     d_get d (DV.forwarding_table st) = Some port <->
     exists c, d_get d (DV.dv st) = Some (c, Some port)) /\
  (forall d c port,
     d_get d (DV.dv st) = Some (c, Some port) ->
     In port (d_keys (DV.neighbors st))).

(** A link to the engine's own address must not have a negative cost. *)
Definition dv_event_ok (st : DV.state) (e : DV.event) : Prop :=
  match e with
  | DV.LinkUp _ endpoint cost => endpoint <> DV.addr st \/ 0 <= cost
  | _ => True
  end.

(** Every cost of [dv] and of the link table is below the infinity
    threshold. *)
Definition dv_costs_bounded (st : DV.state) : Prop :=
  (forall d c p, d_get d (DV.dv st) = Some (c, p) -> c < 16) /\
  (forall port n c, In (port, (n, c)) (DV.neighbors st) -> c < 16).

Definition dv_cost_ok (e : DV.event) : Prop :=
  match e with
  | DV.LinkUp _ _ cost => cost < 16
  | _ => True
  end.

(** Every port of the link-state forwarding table is a port of the link
    table. *)
Definition ls_ports_live (st : LS.state) : Prop :=
  forall d port,
    d_get d (LS.forwarding_table st) = Some port ->
    In port (d_keys (LS.neighbors st)).

(** The packets [broadcast_link_state] sends for a record. *)
Definition announcements (st : LS.state) (seq : scalar) (links : json)
    : list send :=
  map (fun e : Z * (string * Z) =>
         (fst e, Packet ROUTING (LS.addr st) (fst (snd e))
                   (LS.dumps_link_state (LS.addr st) seq links)))
      (LS.neighbors st).

(** The two writes of [update_distance_vector] and [handle_new_link] that
    install a route. *)
Definition install (st : DV.state) (dest : string) (cost port : Z) : DV.state :=
  DV.with_forwarding_table
    (DV.with_dv st (d_set dest (cost, Some port) (DV.dv st)))
    (d_set dest port (DV.forwarding_table st)).

(** The events other than the arrival of a data packet. *)
Definition dv_routing_event (e : DV.event) : Prop :=
  match e with
  | DV.PacketArrival _ p => is_traceroute p = false
  | _ => True
  end.

(** [s] is the vector of [st], with poison reverse, addressed to the
    neighbor of one of its links and sent on the port of that link. *)
Definition dv_advertisement (st : DV.state) (s : send) : Prop :=
  exists port n c,
    In (port, (n, c)) (DV.neighbors st) /\
    s = (port, Packet ROUTING (DV.addr st) n
                 (DV.dumps_vector (DV.poisoned_vector st port))).

(** Another iteration order of a set: the reverse of the order of
    insertion. *)
Definition reverse_order : set_iteration :=
  {| iter_order := fun l => rev (nodup string_dec l);
     iter_complete := fun l x =>
       iff_trans (iff_sym (in_rev (nodup string_dec l) x))
                 (nodup_In string_dec l x);
     iter_nodup := fun l => NoDup_rev (NoDup_nodup string_dec l) |}.

(** [new] is [old] or greater than it, as Python compares them. *)
Definition seq_not_older (new old : scalar) : Prop :=
  new = old \/ py_gt new old = Some true.

(** Every origin with a sequence number in [st] still has one in [st'],
    the same or a greater one. *)
Definition seq_nums_advance (st st' : LS.state) : Prop :=
  forall k old,
    d_get k (LS.seq_nums st) = Some old ->
    exists new, d_get k (LS.seq_nums st') = Some new /\ seq_not_older new old.

(** A link comes up, or a link of the link table goes down. *)
Definition ls_link_change (st : LS.state) (e : LS.event) : Prop :=
  match e with
  | LS.LinkUp _ _ _ => True
  | LS.LinkDown port => d_mem port (LS.neighbors st) = true
  | _ => False
  end.

(** Every port of the first hops found so far is a port of the link
    table. *)
Definition first_hops_live (st : LS.state) (fh : dict string Z) : Prop :=
  forall x port, d_get x fh = Some port -> In port (d_keys (LS.neighbors st)).

(** The neighbor B of [dv_example], with its link to A on port 1. *)
Definition dv_peer_example : DV.state :=
  DV.State "B" 10 0
    [("B"%string, (0, None)); ("A"%string, (1, Some 1))]
    [(1, ("A"%string, 1))]
    []
    [("A"%string, 1)].

(** A link-state state the link handlers can work on: every record of
    [ls_db] is a dictionary of non-negative costs, the engine has a record
    of its own, and its own sequence number is a number. *)
Definition ls_ready (st : LS.state) : Prop :=
  ls_db_ok st /\
  (exists own, d_get (KStr (LS.addr st)) (LS.ls_db st) = Some (JObj own)) /\
  (exists seq n, d_get (KStr (LS.addr st)) (LS.seq_nums st) = Some seq /\
                 scalar_num seq = Some n).

(** The events that carry no record of another engine: a data packet, a
    link coming up with a non-negative cost, a link going down, a tick. *)
Definition ls_local_event (e : LS.event) : Prop :=
  match e with
  | LS.PacketArrival _ p => is_traceroute p = true
  | LS.LinkUp _ _ cost => 0 <= cost
  | _ => True
  end.

(* ================================================================= *)
(** ** Dictionary lemmas *)

Section DictFacts.
Context {K V : Type} `{EqDec K}.
Implicit Types (k : K) (v : V) (d : dict K V).

Lemma d_get_set_eq k v d : d_get k (d_set k v d) = Some v.
Proof.
  induction d as [|[k' v'] d IH]; simpl.
  - destruct (eq_dec k k); congruence.
  - destruct (eq_dec k k') as [->|Hne]; simpl.
    + destruct (eq_dec k' k'); congruence.
    + destruct (eq_dec k k'); congruence.
Qed.

Lemma d_get_set_neq k k' v d : k <> k' -> d_get k' (d_set k v d) = d_get k' d.
Proof.
  intros Hne. induction d as [|[k0 v0] d IH]; simpl.
  - destruct (eq_dec k' k); congruence.
  - destruct (eq_dec k k0) as [->|]; simpl.
    + destruct (eq_dec k' k0); congruence.
    + destruct (eq_dec k' k0); congruence.
Qed.

Lemma d_get_set k k' v d :
  d_get k' (d_set k v d) = if eq_dec k' k then Some v else d_get k' d.
Proof.
  destruct (eq_dec k' k) as [->|Hne].
  - apply d_get_set_eq.
  - apply d_get_set_neq; congruence.
Qed.

Lemma d_get_del_eq k d : d_get k (d_del k d) = None.
Proof.
  induction d as [|[k' v'] d IH]; simpl; auto.
  destruct (eq_dec k k'); simpl; auto.
  destruct (eq_dec k k'); congruence.
Qed.

Lemma d_get_del_neq k k' d : k <> k' -> d_get k' (d_del k d) = d_get k' d.
Proof.
  intros Hne. induction d as [|[k0 v0] d IH]; simpl; auto.
  destruct (eq_dec k k0) as [->|]; simpl.
  - destruct (eq_dec k' k0); congruence.
  - destruct (eq_dec k' k0); congruence.
Qed.

Lemma d_get_del k k' d :
  d_get k' (d_del k d) = if eq_dec k' k then None else d_get k' d.
Proof.
  destruct (eq_dec k' k) as [->|Hne].
  - apply d_get_del_eq.
  - apply d_get_del_neq; congruence.
Qed.

Lemma d_get_In k v d : d_get k d = Some v -> In (k, v) d.
Proof.
  induction d as [|[k' v'] d IH]; simpl; [discriminate|].
  destruct (eq_dec k k') as [->|]; intros E.
  - inversion E; auto.
  - auto.
Qed.

Lemma d_get_None k d : d_get k d = None <-> ~ In k (d_keys d).
Proof.
  induction d as [|[k' v'] d IH]; simpl.
  - tauto.
  - destruct (eq_dec k k') as [->|Hne].
    + split; [discriminate | intros N; exfalso; apply N; auto].
    + rewrite IH. split; intros N; [intros [E|I]; [congruence|auto] | auto].
Qed.

Lemma d_get_Some_key k v d : d_get k d = Some v -> In k (d_keys d).
Proof. intros E. apply d_get_In in E. apply (in_map fst) in E. exact E. Qed.

Lemma d_key_get k d : In k (d_keys d) -> exists v, d_get k d = Some v.
Proof.
  intros I. destruct (d_get k d) eqn:E; eauto.
  apply d_get_None in E. contradiction.
Qed.

Lemma In_d_get k v d : d_wf d -> In (k, v) d -> d_get k d = Some v.
Proof.
  unfold d_wf. induction d as [|[k' v'] d IH]; simpl; [tauto|].
  intros ND [E|I].
  - inversion E; subst. destruct (eq_dec k k); congruence.
  - inversion ND; subst. destruct (eq_dec k k') as [->|].
    + exfalso. apply H2. apply (in_map fst) in I. exact I.
    + auto.
Qed.



Lemma d_keys_set k k' v d :
  In k' (d_keys (d_set k v d)) <-> k' = k \/ In k' (d_keys d).
Proof.
  induction d as [|[k0 v0] d IH]; simpl.
  - split; intros [E|F]; auto; try tauto.
  - destruct (eq_dec k k0) as [->|Hne]; simpl.
    + split; [intros [E|I]; auto | intros [E|[E|I]]; subst; auto].
    + rewrite IH. tauto.
Qed.

Lemma d_keys_del k k' d : In k' (d_keys (d_del k d)) <-> k' <> k /\ In k' (d_keys d).
Proof.
  induction d as [|[k0 v0] d IH]; simpl; [tauto|].
  destruct (eq_dec k k0) as [->|Hne]; simpl.
  - rewrite IH. split; [tauto|]. intros [N [E|I]]; [congruence | auto].
  - rewrite IH. split; [intros [E|I]; [subst; auto | tauto] | tauto].
Qed.

Lemma d_wf_set k v d : d_wf d -> d_wf (d_set k v d).
Proof.
  unfold d_wf. induction d as [|[k0 v0] d IH]; simpl; intros ND.
  - constructor; [simpl; tauto | constructor].
  - inversion ND; subst. destruct (eq_dec k k0) as [->|Hne]; simpl.
    + constructor; auto.
    + constructor; auto. intros I. apply d_keys_set in I. destruct I; congruence.
Qed.

Lemma d_wf_del k d : d_wf d -> d_wf (d_del k d).
Proof.
  unfold d_wf. induction d as [|[k0 v0] d IH]; simpl; intros ND; auto.
  inversion ND; subst. destruct (eq_dec k k0); simpl; auto.
  constructor; auto. intros I. apply d_keys_del in I. tauto.
Qed.

Lemma d_del_In k k' v d : In (k', v) (d_del k d) <-> k' <> k /\ In (k', v) d.
Proof.
  unfold d_del. rewrite filter_In. simpl.
  destruct (eq_dec k k') as [->|]; split; intros [A B]; split; auto; congruence.
Qed.

Lemma d_set_fresh k v d : ~ In k (d_keys d) -> d_set k v d = d ++ [(k, v)].
Proof.
  induction d as [|[k0 v0] d IH]; simpl; auto.
  intros N. destruct (eq_dec k k0) as [->|]; [tauto|].
  rewrite IH; auto.
Qed.

End DictFacts.

Lemma d_set_In {K V : Type} `{EqDec K} (k k' : K) (v v' : V) (d : dict K V) :
  In (k', v') (d_set k v d) -> v' = v \/ In (k', v') d.
Proof.
  induction d as [|[k0 v0] d IH]; simpl.
  - intros [E|[]]. inversion E; auto.
  - destruct (eq_dec k k0) as [->|Hne]; simpl.
    + intros [E|I]; [inversion E; auto | auto].
    + intros [E|I]; [auto | destruct (IH I); auto].
Qed.

(* ================================================================= *)
(** ** Tactics for closed examples *)

Ltac solve_nodup :=
  repeat (constructor; [simpl; intuition (try discriminate; try congruence) | ]);
  try constructor.

(* ================================================================= *)
(** ** Distance vector: what is sent *)

Lemma fold_set_get {V W : Type} (g : V -> W) (l : dict string V) :
  d_wf l ->
  forall (acc : dict string W) (d : string),
    d_get d (fold_left (fun acc kv => d_set (fst kv) (g (snd kv)) acc) l acc) =
    match d_get d l with
    | Some v => Some (g v)
    | None => d_get d acc
    end.
Proof.
  unfold d_wf. induction l as [|[k v] l IH]; simpl; intros ND acc d; auto.
  inversion ND; subst. rewrite IH by assumption.
  destruct (eq_dec d k) as [->|Hne].
  - assert (E : d_get k l = None) by (apply d_get_None; assumption).
    rewrite E. apply d_get_set_eq.
  - destruct (d_get d l); auto. apply d_get_set_neq. congruence.
Qed.

Lemma poisoned_vector_fold st port :
  DV.poisoned_vector st port =
  fold_left (fun acc kv => d_set (fst kv) (reported port (snd kv)) acc)
            (DV.dv st) [(DV.addr st, 0)].
Proof.
  unfold DV.poisoned_vector. generalize [(DV.addr st, 0)].
  induction (DV.dv st) as [|[dest [cost out]] l IH]; simpl; intros acc; auto.
  rewrite <- IH. f_equal. unfold reported; simpl.
  destruct out as [p|]; auto. destruct (p =? port); auto.
Qed.

Lemma poisoned_vector_get st port d :
  d_wf (DV.dv st) ->
  d_get d (DV.poisoned_vector st port) =
  match d_get d (DV.dv st) with
  | Some route => Some (reported port route)
  | None => if eq_dec d (DV.addr st) then Some 0 else None
  end.
Proof.
  intros W. rewrite poisoned_vector_fold, (fold_set_get (reported port)) by assumption.
  destruct (d_get d (DV.dv st)); auto.
Qed.

Lemma d_get_map_values {V W : Type} (g : V -> W) (l : dict string V) d :
  d_get d (map (fun kv => (fst kv, g (snd kv))) l) = option_map g (d_get d l).
Proof.
  induction l as [|[k v] l IH]; simpl; auto.
  destruct (eq_dec d k); auto.
Qed.

Lemma d_keys_map_values {V W : Type} (g : V -> W) (l : dict string V) :
  d_keys (map (fun kv => (fst kv, g (snd kv))) l) = d_keys l.
Proof. unfold d_keys. rewrite map_map. apply map_ext. auto. Qed.

(** [broadcast_dv] restores the engine's own route before it sends, and
    every vector a handler sends is sent after it. *)
Lemma broadcast_dv_self_route st : self_route (fst (DV.broadcast_dv st)).
Proof. unfold self_route, DV.broadcast_dv. simpl. apply d_get_set_eq. Qed.

(** C3: the vector sent on port [p] reports 16 for every destination routed
    through [p], 0 for the engine's own address and the cost in [dv] for
    every other destination; nothing else is reported, so no cost below 16
    reaches the neighbor for a route that points back at it. *)
Theorem C3_split_horizon_poison_reverse :
  forall (st : DV.state) (p : Z) (neighbor : string) (link_cost : Z),
    d_wf (DV.dv st) ->
    self_route st ->
    d_get p (DV.neighbors st) = Some (neighbor, link_cost) ->
    exists vec,
      DV.send_dv_to_neighbor st p =
        [(p, Packet ROUTING (DV.addr st) neighbor (Doc (JObj vec)))] /\
      d_get (DV.addr st) vec = Some (JInt 0) /\
      (forall d c, d_get d (DV.dv st) = Some (c, Some p) ->
                   d_get d vec = Some (JInt 16)) /\
      (forall d c out, d_get d (DV.dv st) = Some (c, out) -> out <> Some p ->
                       d_get d vec = Some (JInt c)) /\
      (forall d, In d (d_keys vec) -> In d (d_keys (DV.dv st))) /\
      (forall d c j, d_get d (DV.dv st) = Some (c, Some p) ->
                     d_get d vec = Some j -> exists n, j = JInt n /\ 16 <= n).
Proof.
  intros st p neighbor link_cost W Self Nb.
  unfold DV.send_dv_to_neighbor, DV.dumps_vector. rewrite Nb.
  eexists. split; [reflexivity|].
  assert (G : forall d, d_get d (map (fun kv => (fst kv, JInt (snd kv)))
                                    (DV.poisoned_vector st p)) =
                        match d_get d (DV.dv st) with
                        | Some route => Some (JInt (reported p route))
                        | None => if eq_dec d (DV.addr st) then Some (JInt 0) else None
                        end).
  { intros d. rewrite (d_get_map_values JInt), poisoned_vector_get by assumption.
    destruct (d_get d (DV.dv st)); simpl; auto. destruct (eq_dec d (DV.addr st)); auto. }
  assert (P16 : forall d c, d_get d (DV.dv st) = Some (c, Some p) ->
                   d_get d (map (fun kv => (fst kv, JInt (snd kv)))
                                (DV.poisoned_vector st p)) = Some (JInt 16)).
  { intros d c E. rewrite G, E. unfold reported; simpl. rewrite Z.eqb_refl. reflexivity. }
  repeat split.
  - rewrite G. unfold self_route in Self. rewrite Self. reflexivity.
  - exact P16.
  - intros d c out E Hne. rewrite G, E. unfold reported; simpl.
    destruct out as [q|]; auto. destruct (q =? p) eqn:Q; auto.
    apply Z.eqb_eq in Q. congruence.
  - intros d I. apply d_key_get in I. destruct I as [j I]. rewrite G in I.
    destruct (d_get d (DV.dv st)) eqn:E.
    + eapply d_get_Some_key; eauto.
    + destruct (eq_dec d (DV.addr st)) as [->|]; [|discriminate].
      unfold self_route in Self. congruence.
  - intros d c j E J. rewrite (P16 d c E) in J. inversion J. exists 16. split; [reflexivity|lia].
Qed.

Lemma dv_example_reachable :
  dv_run insertion_order (DV.init "A" 10) dv_example_trace = Some dv_example.
Proof. vm_compute. reflexivity. Qed.

Lemma C3_witness :
  exists vec,
    DV.send_dv_to_neighbor dv_example 1 =
      [(1, Packet ROUTING "A" "B" (Doc (JObj vec)))] /\
    d_get "A"%string vec = Some (JInt 0) /\
    (forall d c, d_get d (DV.dv dv_example) = Some (c, Some 1) ->
                 d_get d vec = Some (JInt 16)) /\
    (forall d c out, d_get d (DV.dv dv_example) = Some (c, out) -> out <> Some 1 ->
                     d_get d vec = Some (JInt c)) /\
    (forall d, In d (d_keys vec) -> In d (d_keys (DV.dv dv_example))) /\
    (forall d c j, d_get d (DV.dv dv_example) = Some (c, Some 1) ->
                   d_get d vec = Some j -> exists n, j = JInt n /\ 16 <= n).
Proof.
  apply (C3_split_horizon_poison_reverse dv_example 1 "B" 1).
  - unfold d_wf; simpl. solve_nodup.
  - reflexivity.
  - reflexivity.
Defined.

(** C10: removing a link on a port that is not in the neighbor table does
    nothing in either engine: the state is returned as it was (so no
    sequence number moves) and nothing is sent. *)
Theorem C10_remove_unknown_port_is_noop :
  forall (port : Z),
    (forall S st, ~ In port (d_keys (DV.neighbors st)) ->
                  DV.handle_remove_link S st port = Done (st, [])) /\
    (forall fuel now st, ~ In port (d_keys (LS.neighbors st)) ->
                  LS.handle_remove_link fuel now st port = Done (st, [])).
Proof.
  intros port. split.
  - intros S st N. apply d_get_None in N. unfold DV.handle_remove_link. rewrite N. reflexivity.
  - intros fuel now st N. apply d_get_None in N. unfold LS.handle_remove_link. rewrite N. reflexivity.
Qed.

Lemma C10_witness :
  DV.handle_remove_link insertion_order dv_example 7 = Done (dv_example, []) /\
  LS.handle_remove_link 5 1000 (LS.init "A" 10) 7 = Done (LS.init "A" 10, []).
Proof.
  split.
  - apply (proj1 (C10_remove_unknown_port_is_noop 7)). simpl. intuition lia.
  - apply (proj2 (C10_remove_unknown_port_is_noop 7)). simpl. intuition.
Defined.

(* ================================================================= *)
(** ** Distance vector: the recomputation *)

Lemma advertised_keys_ok (vals : list json) :
  (forall j, In j vals -> vector_ok j) ->
  exists ks, DV.advertised_keys vals = Some ks /\
    forall d, In d ks <-> exists kvs, In (JObj kvs) vals /\ In d (d_keys kvs).
Proof.
  induction vals as [|j vals IH]; intros OK; simpl.
  - exists []. split; auto. simpl. split; [tauto | intros (? & [] & _)].
  - destruct (OK j (or_introl eq_refl)) as (kvs & -> & _).
    destruct IH as (ks & E & Hks); [intros; apply OK; right; auto|].
    rewrite E. exists (d_keys kvs ++ ks). split; auto.
    intros d. rewrite in_app_iff, Hks. split.
    + intros [I | (kvs' & I & I')]; [exists kvs | exists kvs']; auto.
    + intros (kvs' & [E'|I] & I'); [inversion E'; subst; auto | right; eauto].
Qed.

Lemma all_destinations_ok (st : DV.state) :
  vectors_ok st ->
  exists ds, DV.all_destinations st = Some ds /\
    forall d, In d ds <-> known_destination st d.
Proof.
  intros OK. unfold DV.all_destinations.
  destruct (advertised_keys_ok (d_values (DV.neighbor_dvs st))) as (ks & E & Hks).
  { intros j I. unfold d_values in I. apply in_map_iff in I.
    destruct I as ([n j'] & <- & I). eapply OK; eauto. }
  rewrite E. eexists; split; [reflexivity|].
  intros d. rewrite in_app_iff, Hks, in_map_iff. unfold known_destination. split.
  - intros [(kvs & I & I') | ([port [n c]] & <- & I)].
    + right. unfold d_values in I. apply in_map_iff in I.
      destruct I as ([n j] & Ej & I). simpl in Ej; subst. eauto.
    + left; simpl; eauto.
  - intros [(port & c & I) | (n & kvs & I & I')].
    + right. exists (port, (d, c)); auto.
    + left. exists kvs. split; auto. unfold d_values.
      apply in_map_iff. exists (n, JObj kvs); auto.
Qed.

(** The recomputation reads the link table and the stored vectors only. *)
Lemma via_neighbor_frame st st' dest b e :
  DV.neighbor_dvs st' = DV.neighbor_dvs st ->
  DV.via_neighbor st' dest b e = DV.via_neighbor st dest b e.
Proof. intros E. unfold DV.via_neighbor. rewrite E. reflexivity. Qed.

Lemma via_candidates_frame st st' dest nbrs b :
  DV.neighbor_dvs st' = DV.neighbor_dvs st ->
  DV.via_candidates st' dest nbrs b = DV.via_candidates st dest nbrs b.
Proof.
  intros E. revert b. induction nbrs as [|e nbrs IH]; simpl; intros b; auto.
  rewrite (via_neighbor_frame st st' dest b e E).
  destruct (DV.via_neighbor st dest b e); auto.
Qed.

Lemma best_route_frame st st' dest :
  DV.neighbors st' = DV.neighbors st ->
  DV.neighbor_dvs st' = DV.neighbor_dvs st ->
  DV.best_route st' dest = DV.best_route st dest.
Proof.
  intros E1 E2. unfold DV.best_route. rewrite E1. apply via_candidates_frame; auto.
Qed.

Lemma least_of_app_nil ports cs b : least_of ports cs b -> least_of ports (cs ++ []) b.
Proof. rewrite app_nil_r. auto. Qed.

Lemma least_of_snoc ports cs b c p :
  least_of ports cs b -> In p ports ->
  least_of ports (cs ++ [c]) (if DV.below c b then Some (c, p) else b).
Proof.
  intros L Ip. destruct b as [[bc bp]|]; simpl in *.
  - destruct L as (I & Min & Ibp). destruct (c <? bc) eqn:C.
    + apply Z.ltb_lt in C. repeat split; auto.
      * apply in_or_app; right; simpl; auto.
      * intros c' I'. apply in_app_or in I'. destruct I' as [I'|[<-|[]]]; [|lia].
        specialize (Min c' I'). lia.
    + apply Z.ltb_ge in C. repeat split; auto.
      * apply in_or_app; auto.
      * intros c' I'. apply in_app_or in I'. destruct I' as [I'|[<-|[]]]; auto.
  - subst cs. simpl. repeat split; auto. intros c' [<-|[]]. lia.
Qed.

Lemma least_of_ports_mono ports ports' cs b :
  (forall p, In p ports -> In p ports') -> least_of ports cs b -> least_of ports' cs b.
Proof.
  intros Sub. destruct b as [[c p]|]; simpl; auto. intros (A & B & C); auto.
Qed.

Lemma direct_candidates_least ports dest nbrs :
  (forall e, In e nbrs -> In (fst e) ports) ->
  forall cs b,
    least_of ports cs b ->
    least_of ports
      (cs ++ flat_map (fun e : Z * (string * Z) =>
                         if String.eqb (fst (snd e)) dest then [snd (snd e)] else [])
                      nbrs)
      (DV.direct_candidates dest nbrs b).
Proof.
  unfold DV.direct_candidates.
  induction nbrs as [|[port [endpoint cost]] nbrs IH]; simpl; intros Hp cs b L.
  - apply least_of_app_nil; auto.
  - assert (Ip : In port ports) by (apply (Hp (port, (endpoint, cost))); auto).
    destruct (String.eqb endpoint dest) eqn:E; simpl.
    + replace (cs ++ cost :: _) with ((cs ++ [cost]) ++
        flat_map (fun e : Z * (string * Z) =>
                    if String.eqb (fst (snd e)) dest then [snd (snd e)] else []) nbrs)
        by (rewrite <- app_assoc; reflexivity).
      apply IH; [intros; apply Hp; auto|]. apply least_of_snoc; auto.
    + apply IH; [intros; apply Hp; auto | auto].
Qed.

Lemma via_neighbor_least st ports dest cs b port n lc :
  vectors_ok st -> In port ports -> least_of ports cs b ->
  exists b',
    DV.via_neighbor st dest b (port, (n, lc)) = Some b' /\
    least_of ports
      (cs ++ match advertised st n dest with
             | Some c => if (c <? 16) && (lc + c <? 16) then [lc + c] else []
             | None => []
             end) b'.
Proof.
  intros OK Ip L. unfold DV.via_neighbor, advertised.
  destruct (d_get n (DV.neighbor_dvs st)) as [vector|] eqn:G.
  2:{ exists b. split; auto. apply least_of_app_nil; auto. }
  destruct (OK n vector (d_get_In _ _ _ G)) as (kvs & -> & Num). simpl.
  unfold d_mem. destruct (d_get dest kvs) as [c|] eqn:Gc.
  2:{ exists b. split; auto. apply least_of_app_nil; auto. }
  destruct (Num dest c (d_get_In _ _ _ Gc)) as (nc & ->).
  destruct (nc >=? 16) eqn:Ge.
  - exists b. split; auto.
    assert (Lt : (nc <? 16) = false) by (apply Z.ltb_ge; apply Z.geb_le in Ge; lia).
    rewrite Lt. simpl. apply least_of_app_nil; auto.
  - assert (Lt : (nc <? 16) = true).
    { apply Z.ltb_lt. destruct (Z.geb_spec nc 16); [discriminate | lia]. }
    rewrite Lt. simpl. destruct (lc + nc <? 16) eqn:T.
    + rewrite andb_true_r.
      exists (if DV.below (lc + nc) b then Some (lc + nc, port) else b).
      split; [destruct (DV.below (lc + nc) b); reflexivity|].
      apply least_of_snoc; auto.
    + rewrite andb_false_r. exists b. split; auto. apply least_of_app_nil; auto.
Qed.

Lemma via_candidates_least st ports dest nbrs :
  vectors_ok st ->
  (forall e, In e nbrs -> In (fst e) ports) ->
  forall cs b,
    least_of ports cs b ->
    exists b',
      DV.via_candidates st dest nbrs b = Some b' /\
      least_of ports
        (cs ++ flat_map (fun e : Z * (string * Z) =>
                           match advertised st (fst (snd e)) dest with
                           | Some c =>
                               if (c <? 16) && (snd (snd e) + c <? 16)
                               then [snd (snd e) + c] else []
                           | None => []
                           end) nbrs) b'.
Proof.
  intros OK. induction nbrs as [|[port [n lc]] nbrs IH]; simpl; intros Hp cs b L.
  - exists b. split; auto. apply least_of_app_nil; auto.
  - assert (Ip : In port ports) by (apply (Hp (port, (n, lc))); auto).
    destruct (via_neighbor_least st ports dest cs b port n lc OK Ip L) as (b1 & E1 & L1).
    unfold DV.via_neighbor in E1. unfold DV.via_neighbor. rewrite E1.
    destruct (IH (fun e I => Hp e (or_intror I)) _ b1 L1) as (b' & E' & L').
    exists b'. split; auto. rewrite <- app_assoc in L'. exact L'.
Qed.

(** Under the data model the search for the best route does not raise and
    finds the least of the costs it considers, through a port of the link
    table. *)
Lemma best_route_least st dest :
  vectors_ok st ->
  exists b,
    DV.best_route st dest = Some b /\
    least_of (d_keys (DV.neighbors st)) (considered st dest) b.
Proof.
  intros OK. unfold DV.best_route, considered, direct_costs.
  assert (Hp : forall e, In e (DV.neighbors st) -> In (fst e) (d_keys (DV.neighbors st))).
  { intros e I. unfold d_keys. apply in_map; auto. }
  pose proof (direct_candidates_least (d_keys (DV.neighbors st)) dest
                (DV.neighbors st) Hp [] None eq_refl) as L0.
  simpl in L0.
  exact (via_candidates_least st _ dest (DV.neighbors st) OK Hp _ _ L0).
Qed.

Lemma flat_map_ext_in {A B : Type} (f g : A -> list B) (l : list A) :
  (forall a, In a l -> f a = g a) -> flat_map f l = flat_map g l.
Proof.
  induction l as [|a l IH]; simpl; intros E; auto.
  rewrite (E a), IH; auto.
Qed.

Lemma filter_flat_map {A B : Type} (f : B -> bool) (g : A -> list B) (l : list A) :
  filter f (flat_map g l) = flat_map (fun a => filter f (g a)) l.
Proof.
  induction l as [|a l IH]; simpl; auto. rewrite filter_app, IH. reflexivity.
Qed.

(** With link costs in range the costs considered are the candidates of
    the data model. *)
Lemma considered_candidates st d :
  link_costs_ok st -> considered st d = candidates st d.
Proof.
  intros LC. unfold considered, candidates, direct_costs, relayed_costs.
  rewrite filter_app, !filter_flat_map. f_equal.
  - apply flat_map_ext_in. intros [port [n c]] I. simpl.
    destruct (String.eqb n d); simpl; auto.
    destruct (LC port n c I) as [_ Hc]. apply Z.ltb_lt in Hc. rewrite Hc. reflexivity.
  - apply flat_map_ext_in. intros [port [n c]] I. simpl.
    destruct (advertised st n d) as [a|]; simpl; auto.
    destruct (LC port n c I) as [Hc0 _].
    destruct (c + a <? 16) eqn:T.
    + apply Z.ltb_lt in T. assert (A : (a <? 16) = true) by (apply Z.ltb_lt; lia).
      rewrite A. reflexivity.
    + rewrite andb_false_r. reflexivity.
Qed.

Lemma list_min_spec l :
  match list_min l with
  | None => l = []
  | Some m => In m l /\ forall c, In c l -> m <= c
  end.
Proof.
  induction l as [|c l IH]; simpl; auto.
  destruct (list_min l) as [m|].
  - destruct IH as [I Min]. split.
    + destruct (Z.min_spec c m) as [[_ ->]|[_ ->]]; auto.
    + intros c' [<-|I']; [lia | specialize (Min c' I'); lia].
  - subst l. split; auto. intros c' [<-|[]]. lia.
Qed.

Lemma least_of_list_min ports cs b :
  least_of ports cs b -> list_min cs = option_map fst b.
Proof.
  intros L. pose proof (list_min_spec cs) as M.
  destruct b as [[c p]|]; simpl in *.
  - destruct L as (I & Min & _). destruct (list_min cs) as [m|].
    + destruct M as [Im Mm]. f_equal. specialize (Min m Im). specialize (Mm c I). lia.
    + subst cs. destruct I.
  - subst cs. reflexivity.
Qed.

Lemma same_links_refl st : same_links st st.
Proof. unfold same_links; auto. Qed.

Lemma same_links_trans st1 st2 st3 :
  same_links st1 st2 -> same_links st2 st3 -> same_links st1 st3.
Proof. unfold same_links; intros (?&?&?&?&?) (?&?&?&?&?); repeat split; congruence. Qed.

Lemma same_links_vectors_ok st st' :
  same_links st st' -> vectors_ok st -> vectors_ok st'.
Proof. intros (_&_&_&_&E) OK. unfold vectors_ok. rewrite E. exact OK. Qed.

(** One destination of the loop: only its own entry moves, to [recomputed]. *)
Lemma visit_spec st updated dest b :
  DV.best_route st dest = Some b ->
  dest <> DV.addr st ->
  exists st' updated',
    DV.visit st updated dest = Done (st', updated') /\
    same_links st st' /\
    d_get dest (DV.dv st') = recomputed b (d_get dest (DV.dv st)) /\
    (forall d, d <> dest ->
       d_get d (DV.dv st') = d_get d (DV.dv st) /\
       d_get d (DV.forwarding_table st') = d_get d (DV.forwarding_table st)) /\
    ((updated' = updated /\ st' = st) \/
     (updated' = true /\ d_get dest (DV.dv st') <> d_get dest (DV.dv st))).
Proof.
  intros B Hne. unfold DV.visit.
  destruct (String.eqb_spec dest (DV.addr st)) as [E|_]; [contradiction|].
  rewrite B. destruct b as [[bc bp]|]; simpl.
  - destruct (d_get dest (DV.dv st)) as [[c p]|] eqn:G.
    + destruct (c >? bc) eqn:C.
      * eexists _, _. split; [reflexivity|]. simpl.
        split; [unfold same_links; simpl; auto 10|]. rewrite d_get_set_eq.
        split; [reflexivity|]. split.
        { intros d Hd. rewrite !d_get_set_neq by congruence. auto. }
        right. split; auto. intros X. inversion X; subst.
        rewrite Z.gtb_ltb, Z.ltb_irrefl in C. discriminate.
      * eexists _, _. split; [reflexivity|].
        split; [unfold same_links; simpl; auto 10|]. auto.
    + eexists _, _. split; [reflexivity|]. simpl.
      split; [unfold same_links; simpl; auto 10|]. rewrite d_get_set_eq.
      split; [reflexivity|]. split.
      { intros d Hd. rewrite !d_get_set_neq by congruence. auto. }
      right. split; auto. discriminate.
  - unfold d_mem at 1. destruct (d_get dest (DV.dv st)) as [r|] eqn:G.
    + destruct (d_mem dest (DV.forwarding_table st)); simpl;
        (eexists _, _; split; [reflexivity|]; simpl;
         split; [unfold same_links; simpl; auto 10|]; rewrite d_get_del_eq;
         split; [reflexivity|]; split;
         [intros d Hd; rewrite ?d_get_del_neq by congruence; auto
         |right; split; auto; discriminate]).
    + eexists _, _. split; [reflexivity|].
      split; [unfold same_links; simpl; auto 10|]. auto.
Qed.

Lemma visit_self st updated :
  DV.visit st updated (DV.addr st) = Done (st, updated).
Proof. unfold DV.visit. rewrite String.eqb_refl. reflexivity. Qed.

(** The whole loop, over destinations visited once each. *)
Lemma visit_all_spec dests :
  NoDup dests ->
  forall st updated,
    vectors_ok st ->
    exists st' updated',
      DV.visit_all st updated dests = Done (st', updated') /\
      same_links st st' /\
      (forall d, In d dests -> d <> DV.addr st ->
         exists b, DV.best_route st d = Some b /\
                   least_of (d_keys (DV.neighbors st)) (considered st d) b /\
                   d_get d (DV.dv st') = recomputed b (d_get d (DV.dv st))) /\
      (forall d, ~ In d dests \/ d = DV.addr st ->
         d_get d (DV.dv st') = d_get d (DV.dv st) /\
         d_get d (DV.forwarding_table st') = d_get d (DV.forwarding_table st)) /\
      ((updated' = updated /\ st' = st) \/
       (updated' = true /\ exists d, d_get d (DV.dv st') <> d_get d (DV.dv st))).
Proof.
  induction 1 as [|dest dests Hnotin ND IH]; intros st updated OK; simpl.
  - exists st, updated. split; auto. split; [apply same_links_refl|].
    split; [intros d []|]. split; auto.
  - destruct (string_dec dest (DV.addr st)) as [->|Hne].
    + rewrite visit_self.
      destruct (IH st updated OK) as (st' & u' & E & SL & Vis & Fr & Ch).
      exists st', u'. split; auto. split; auto. split.
      * intros d [<-|I] Hd; [congruence | auto].
      * split; auto. intros d [N | ->]; apply Fr; auto.
    + destruct (best_route_least st dest OK) as (b & B & L).
      destruct (visit_spec st updated dest b B Hne)
        as (st1 & u1 & E1 & SL1 & G1 & Fr1 & Ch1).
      rewrite E1.
      assert (OK1 : vectors_ok st1) by (eapply same_links_vectors_ok; eauto).
      destruct (IH st1 u1 OK1) as (st' & u' & E & SL & Vis & Fr & Ch).
      assert (A1 : DV.addr st1 = DV.addr st) by apply SL1.
      exists st', u'. split; auto.
      split; [eapply same_links_trans; eauto|].
      split; [|split].
      * intros d [<-|I] Hd.
        { exists b. split; auto. split; auto.
          destruct (Fr dest (or_introl Hnotin)) as [-> _]. exact G1. }
        { assert (d <> dest) by (intros ->; contradiction).
          destruct (Vis d I) as (b' & B' & L' & G'); [congruence|].
          destruct SL1 as (_&_&_&En&Ev).
          rewrite (best_route_frame st st1 d En Ev) in B'.
          exists b'. split; auto. split.
          - unfold considered, direct_costs, advertised in *.
            rewrite En, Ev in L'. exact L'.
          - rewrite G'. destruct (Fr1 d H) as [-> _]. reflexivity. }
      * intros d Hd.
        assert (Hd1 : ~ In d dests \/ d = DV.addr st1).
        { destruct Hd as [N | ->]; [left; intros I; apply N; right; auto | right; auto]. }
        assert (Hd2 : d <> dest).
        { destruct Hd as [N | ->]; [intros ->; apply N; left; auto | congruence]. }
        destruct (Fr d Hd1) as [-> ->]. apply Fr1; auto.
      * destruct Ch as [[-> ->]|[-> (d & Hd)]].
        { destruct Ch1 as [[-> ->]|[-> Hd]]; auto.
          right. split; auto. exists dest. exact Hd. }
        { right. split; auto.
          destruct Ch1 as [[_ ->]|[_ Hd1]]; [exists d; auto|].
          destruct (string_dec d dest) as [->|Hdd].
          - exfalso. apply Hd. apply Fr. left; auto.
          - destruct (In_dec string_dec d dests) as [I|N].
            + exists d. destruct (Fr1 d Hdd) as [<- _]. exact Hd.
            + exists dest. destruct (Fr dest (or_introl Hnotin)) as [-> _]. exact Hd1. }
Qed.

(* ================================================================= *)
(** ** Distance vector: [update_distance_vector] and the handlers *)

(** Under the data model [update_distance_vector] returns; it moves the
    entries of the known destinations to [recomputed], leaves the others,
    and its flag tells whether [dv] changed. *)
Lemma update_distance_vector_spec (S : set_iteration) st :
  vectors_ok st ->
  exists st' changed,
    DV.update_distance_vector S st = Done (st', changed) /\
    same_links st st' /\
    (forall d, known_destination st d -> d <> DV.addr st ->
       exists b, DV.best_route st d = Some b /\
                 least_of (d_keys (DV.neighbors st)) (considered st d) b /\
                 d_get d (DV.dv st') = recomputed b (d_get d (DV.dv st))) /\
    (forall d, ~ known_destination st d \/ d = DV.addr st ->
       d_get d (DV.dv st') = d_get d (DV.dv st) /\
       d_get d (DV.forwarding_table st') = d_get d (DV.forwarding_table st)) /\
    ((changed = false /\ st' = st) \/
     (changed = true /\ exists d, d_get d (DV.dv st') <> d_get d (DV.dv st))).
Proof.
  intros OK. unfold DV.update_distance_vector.
  destruct (all_destinations_ok st OK) as (ds & E & Hds). rewrite E.
  destruct (visit_all_spec (iter_order S ds) (iter_nodup S ds) st false OK)
    as (st' & u' & Ev & SL & Vis & Fr & Ch).
  exists st', u'. split; auto. split; auto. split; [|split].
  - intros d K Hd. apply Vis; auto. apply iter_complete, Hds; auto.
  - intros d [N | ->]; apply Fr; auto.
    left. intros I. apply N. apply Hds. apply (proj1 (iter_complete S ds d)). exact I.
  - destruct Ch as [[-> ->]|[-> X]]; auto.
Qed.

(** C2, amended: after [update_distance_vector], with link costs in range,
    a known destination other than the engine itself is absent from [dv]
    when no candidate stays below 16, and otherwise holds the smaller of its
    previous cost and the least candidate (the least candidate when it was
    absent): a cost is lowered, never raised.  The engine's own entry is
    left as it was. *)
Theorem C2_recomputation_never_raises_a_cost :
  forall (S : set_iteration) (st : DV.state),
    vectors_ok st ->
    link_costs_ok st ->
    exists st' changed,
      DV.update_distance_vector S st = Done (st', changed) /\
      (forall d, candidates st' d = candidates st d) /\
      (forall d, known_destination st d -> d <> DV.addr st ->
         match list_min (candidates st d) with
         | None => d_get d (DV.dv st') = None
         | Some m =>
             exists c p,
               d_get d (DV.dv st') = Some (c, p) /\
               c = match d_get d (DV.dv st) with
                   | Some (c0, _) => Z.min c0 m
                   | None => m
                   end
         end) /\
      d_get (DV.addr st) (DV.dv st') = d_get (DV.addr st) (DV.dv st).
Proof.
  intros S st OK LC.
  destruct (update_distance_vector_spec S st OK)
    as (st' & changed & E & SL & Vis & Fr & _).
  exists st', changed. split; auto. split; [|split].
  - intros d. destruct SL as (_&_&_&En&Ev).
    unfold candidates, direct_costs, relayed_costs, advertised. rewrite En, Ev. reflexivity.
  - intros d K Hd. destruct (Vis d K Hd) as (b & _ & L & G).
    rewrite (considered_candidates st d LC) in L.
    rewrite (least_of_list_min _ _ _ L). rewrite G.
    destruct b as [[bc bp]|]; simpl; auto.
    destruct (d_get d (DV.dv st)) as [[c0 p0]|].
    + destruct (c0 >? bc) eqn:C.
      * eexists _, _. split; [reflexivity|]. apply Z.gtb_lt in C. lia.
      * eexists _, _. split; [reflexivity|].
        rewrite Z.gtb_ltb in C. apply Z.ltb_ge in C. lia.
    + eexists _, _. split; reflexivity.
  - apply Fr; auto.
Qed.

Lemma C2_witness :
  exists st' changed,
    DV.update_distance_vector insertion_order dv_example = Done (st', changed) /\
    (forall d, candidates st' d = candidates dv_example d) /\
    (forall d, known_destination dv_example d -> d <> DV.addr dv_example ->
       match list_min (candidates dv_example d) with
       | None => d_get d (DV.dv st') = None
       | Some m =>
           exists c p,
             d_get d (DV.dv st') = Some (c, p) /\
             c = match d_get d (DV.dv dv_example) with
                 | Some (c0, _) => Z.min c0 m
                 | None => m
                 end
       end) /\
    d_get (DV.addr dv_example) (DV.dv st') =
      d_get (DV.addr dv_example) (DV.dv dv_example).
Proof.
  apply (C2_recomputation_never_raises_a_cost insertion_order dv_example).
  - intros n j [E|[]]. inversion E; subst. eexists; split; [reflexivity|].
    intros d c [E'|[]]. inversion E'; subst. eexists; reflexivity.
  - intros port n c [E|[E|[]]]; inversion E; subst; lia.
Defined.

(** C2 as stated fails: after B raises its cost to C from 1 to 5, node A
    still holds C at cost 2 although the only candidate is 6. *)
Lemma C2_counterexample :
  exists st',
    dv_run insertion_order (DV.init "A" 10) cost_increase_trace = Some st' /\
    ~ dv_invariant st'.
Proof.
  eexists. split; [vm_compute; reflexivity|].
  intros Inv. destruct (Inv "C"%string) as [H _].
  specialize (H 2 (Some 1) eq_refl). vm_compute in H. discriminate.
Qed.

(* ----------------------------------------------------------------- *)
(** *** A routing packet from a known neighbor *)

Lemma In_d_set {V : Type} (k k' : string) (v v' : V) (d : dict string V) :
  In (k', v') (d_set k v d) -> (k' = k /\ v' = v) \/ In (k', v') d.
Proof.
  induction d as [|[k0 v0] d IH]; simpl.
  - intros [E|[]]. inversion E; auto.
  - destruct (eq_dec k k0) as [->|Hne]; simpl.
    + intros [E|I]; [inversion E; auto | auto].
    + intros [E|I]; [auto | destruct (IH I); auto].
Qed.

Lemma differs_spec (old : dict string json) (items : list (string * json)) :
  exists ch,
    DV.differs (JObj old) items = Some ch /\
    (ch = true <->
     exists d c, In (d, c) items /\
       (d_get d old = None \/
        exists c0, d_get d old = Some c0 /\ py_eq c0 c = false)).
Proof.
  induction items as [|[d c] items IH]; simpl.
  - exists false. split; auto. split; [discriminate | intros (? & ? & [] & _)].
  - unfold d_mem. destruct (d_get d old) as [c0|] eqn:G.
    + destruct (py_eq c0 c) eqn:Q; simpl.
      * destruct IH as (ch & E & H). exists ch. split; auto.
        rewrite H. split.
        { intros (d' & c' & I & X). exists d', c'. auto. }
        { intros (d' & c' & [Ei|I] & X); [|eauto].
          inversion Ei; subst. destruct X as [X|(c1 & X & Y)]; congruence. }
      * exists true. split; auto. split; auto. intros _.
        exists d, c. split; auto. right. eauto.
    + exists true. split; auto. split; auto. intros _.
      exists d, c. split; auto.
Qed.

(** What the routing branch does with a well-formed vector of a known
    neighbor: the vector is stored in any case; when the neighbor had no
    stored vector, or a destination of the received vector is missing from
    the stored one or has another cost there, the local vector is
    recomputed, and the result is broadcast exactly when the recomputation
    changed [dv]. *)
Lemma vector_of_known_neighbor :
  forall (S : set_iteration) (st : DV.state) (port : Z) (p : packet)
         (neighbor_addr : string) (link_cost : Z) (received : dict string json),
    is_traceroute p = false ->
    d_get port (DV.neighbors st) = Some (neighbor_addr, link_cost) ->
    content p = Doc (JObj received) ->
    vectors_ok st ->
    vector_ok (JObj received) ->
    let stored :=
      DV.with_neighbor_dvs st
        (d_set neighbor_addr (JObj received) (DV.neighbor_dvs st)) in
    exists counted st' changed,
      DV.dv_changed st neighbor_addr (JObj received) = Some counted /\
      (counts_as_changed st neighbor_addr received -> counted = true) /\
      DV.update_distance_vector S stored = Done (st', changed) /\
      (changed = true <->
       exists d, d_get d (DV.dv st') <> d_get d (DV.dv stored)) /\
      DV.handle_packet S st port p =
        Done (if counted && changed then DV.broadcast_dv st' else (stored, [])).
Proof.
  intros S st port p n lc received Tr Nb Ct OK OKr stored.
  assert (OKs : vectors_ok stored).
  { intros n' j I. simpl in I. apply In_d_set in I.
    destruct I as [[_ ->]|I]; [exact OKr | eapply OK; eauto]. }
  destruct (update_distance_vector_spec S stored OKs)
    as (st' & changed & Eu & _ & _ & _ & Ch).
  assert (Hch : changed = true <->
                exists d, d_get d (DV.dv st') <> d_get d (DV.dv stored)).
  { destruct Ch as [[-> ->]|[-> X]].
    - split; [discriminate | intros (d & Hd); congruence].
    - tauto. }
  assert (Hc : exists counted,
             DV.dv_changed st n (JObj received) = Some counted /\
             (counts_as_changed st n received -> counted = true)).
  { unfold DV.dv_changed, counts_as_changed.
    destruct (d_get n (DV.neighbor_dvs st)) as [old|] eqn:G.
    - destruct (OK n old (d_get_In _ _ _ G)) as (kvs & -> & _). simpl.
      destruct (differs_spec kvs received) as (ch & E & H).
      exists ch. split; auto. rewrite H.
      intros [X|(old & d & c & Eo & I & X)]; [discriminate|].
      inversion Eo; subst. exists d, c. auto.
    - exists true. split; auto. }
  destruct Hc as (counted & Ec & Hcounted).
  exists counted, st', changed. split; auto. split; auto. split; auto. split; auto.
  unfold DV.handle_packet. rewrite Tr. unfold DV.handle_routing.
  rewrite Nb, Ct, Ec. fold stored.
  destruct counted; simpl; auto.
  rewrite Eu. destruct changed; simpl; auto.
  destruct Ch as [[_ ->]|[X _]]; [reflexivity | discriminate].
Qed.

(** C6 at a withdrawn destination.  Node B, whose link to X went down,
    evicts X and sends its neighbor A a vector without X (the first part:
    this is the packet [handle_remove_link] itself emits).  Node A holds B's
    earlier vector with X at cost 1 and routes X through B.  The loop that
    checks whether the vector changed runs over the received destinations
    only, so it reports no change: the new vector is stored, but nothing is
    recomputed and nothing is sent, and the route to X through B stays in
    [dv] and in the forwarding table.  Recomputing on the stored vector, as
    the property requires, drops X, reports a change and leads to a
    broadcast.  Had B reported X at cost 16 instead, the same code would
    have detected the change, dropped X and broadcast (the last part). *)
Theorem C6_withdrawn_destination_is_missed :
  (exists b b',
     dv_run insertion_order (DV.init "B" 10)
       [DV.LinkUp 1 "A" 1; DV.LinkUp 2 "X" 1] = Some b /\
     DV.handle insertion_order b (DV.LinkDown 2) =
       Done (b', [(1, withdrawal_packet)])) /\
  (exists st stored st1,
     dv_run insertion_order (DV.init "A" 10) withdrawal_trace = Some st /\
     d_get "B"%string (DV.neighbor_dvs st) =
       Some (JObj [("B"%string, JInt 0); ("X"%string, JInt 1);
                   ("A"%string, JInt 16)]) /\
     d_get "X"%string (DV.dv st) = Some (2, Some 1) /\
     DV.dv_changed st "B"
       (JObj [("B"%string, JInt 0); ("A"%string, JInt 16)]) = Some false /\
     DV.handle_packet insertion_order st 1 withdrawal_packet =
       Done (stored, []) /\
     d_get "B"%string (DV.neighbor_dvs stored) =
       Some (JObj [("B"%string, JInt 0); ("A"%string, JInt 16)]) /\
     d_get "X"%string (DV.dv stored) = Some (2, Some 1) /\
     d_get "X"%string (DV.forwarding_table stored) = Some 1 /\
     DV.update_distance_vector insertion_order stored = Done (st1, true) /\
     d_get "X"%string (DV.dv st1) = None /\
     snd (DV.broadcast_dv st1) <> [] /\
     ~ stores_recomputes_broadcasts insertion_order st 1 withdrawal_packet) /\
  (exists st st' out,
     dv_run insertion_order (DV.init "A" 10) withdrawal_trace = Some st /\
     DV.handle_packet insertion_order st 1
       (vector_packet "B" "A"
          [("B"%string, 0); ("X"%string, 16); ("A"%string, 16)]) =
       Done (st', out) /\
     d_get "X"%string (DV.dv st') = None /\
     out <> []).
Proof.
  split; [|split].
  - eexists. eexists. split; vm_compute; reflexivity.
  - eexists. eexists. eexists.
    split; [vm_compute; reflexivity|].
    split; [vm_compute; reflexivity|].
    split; [vm_compute; reflexivity|].
    split; [vm_compute; reflexivity|].
    split; [vm_compute; reflexivity|].
    split; [vm_compute; reflexivity|].
    split; [vm_compute; reflexivity|].
    split; [vm_compute; reflexivity|].
    split; [vm_compute; reflexivity|].
    split; [vm_compute; reflexivity|].
    split; [vm_compute; discriminate|].
    intros H.
    destruct (H "B"%string 1
                (JObj [("B"%string, JInt 0); ("A"%string, JInt 16)])
                eq_refl eq_refl) as (st' & changed & Eu & Eh).
    vm_compute in Eu. inversion Eu; subst. vm_compute in Eh. discriminate.
  - eexists. eexists. eexists.
    split; [vm_compute; reflexivity|].
    split; [vm_compute; reflexivity|].
    split; [vm_compute; reflexivity | vm_compute; discriminate].
Qed.

(* ----------------------------------------------------------------- *)
(** *** Link removal *)

Lemma routes_through_In port (d : dict string (Z * option Z)) dest :
  In dest (DV.routes_through port d) <-> exists c, In (dest, (c, Some port)) d.
Proof.
  unfold DV.routes_through. rewrite in_flat_map. split.
  - intros ([k [c out]] & I & X). destruct out as [q|]; [|destruct X].
    destruct (Z.eqb_spec q port) as [->|]; [|destruct X].
    destruct X as [<-|[]]. eauto.
  - intros (c & I). exists (dest, (c, Some port)). split; auto.
    rewrite Z.eqb_refl. simpl; auto.
Qed.

Lemma evict_all_spec dests :
  forall st,
    let st1 := fold_left DV.evict dests st in
    same_links st st1 /\
    (forall d, In d dests ->
       d_get d (DV.dv st1) = None /\ d_get d (DV.forwarding_table st1) = None) /\
    (forall d, ~ In d dests ->
       d_get d (DV.dv st1) = d_get d (DV.dv st) /\
       d_get d (DV.forwarding_table st1) = d_get d (DV.forwarding_table st)).
Proof.
  induction dests as [|dest dests IH]; intros st; simpl.
  - split; [apply same_links_refl|]. split; [intros d []|auto].
  - destruct (IH (DV.evict st dest)) as (SL & Ev & Fr).
    assert (E1 : same_links st (DV.evict st dest) /\
                 d_get dest (DV.dv (DV.evict st dest)) = None /\
                 d_get dest (DV.forwarding_table (DV.evict st dest)) = None /\
                 forall d, d <> dest ->
                   d_get d (DV.dv (DV.evict st dest)) = d_get d (DV.dv st) /\
                   d_get d (DV.forwarding_table (DV.evict st dest)) =
                     d_get d (DV.forwarding_table st)).
    { unfold DV.evict. simpl. unfold d_mem.
      destruct (d_get dest (DV.forwarding_table st)) eqn:G; simpl.
      - split; [unfold same_links; simpl; auto 10|].
        rewrite !d_get_del_eq. repeat split; auto;
          rewrite d_get_del_neq by congruence; auto.
      - split; [unfold same_links; simpl; auto 10|].
        rewrite d_get_del_eq. repeat split; auto.
        rewrite d_get_del_neq by congruence; auto. }
    destruct E1 as (SL1 & D1 & F1 & Fr1).
    split; [eapply same_links_trans; eauto|]. split.
    + intros d [<-|I]; [|auto].
      destruct (In_dec string_dec dest dests) as [I|N]; [auto|].
      destruct (Fr dest N) as [-> ->]. auto.
    + intros d N.
      assert (N1 : ~ In d dests) by tauto.
      assert (N2 : d <> dest) by (intros ->; tauto).
      destruct (Fr d N1) as [-> ->]. apply Fr1; auto.
Qed.

(** Whether the recomputation looks at a destination is decidable. *)
Lemma known_destination_dec st d :
  vectors_ok st -> known_destination st d \/ ~ known_destination st d.
Proof.
  intros OK. destruct (all_destinations_ok st OK) as (ds & _ & H).
  destruct (In_dec string_dec d ds) as [I|N].
  - left. apply H, I.
  - right. intros K. apply N, H, K.
Qed.

Lemma broadcast_dv_sends st :
  d_wf (DV.neighbors st) ->
  snd (DV.broadcast_dv st) =
  map (vector_for (fst (DV.broadcast_dv st))) (DV.neighbors st).
Proof.
  intros W. unfold DV.broadcast_dv. simpl.
  set (st' := DV.with_dv st _).
  assert (G : forall e, In e (DV.neighbors st) ->
                DV.send_dv_to_neighbor st' (fst e) = [vector_for st' e]).
  { intros [port [n c]] I. unfold DV.send_dv_to_neighbor. simpl.
    rewrite (In_d_get _ _ _ W I). reflexivity. }
  unfold d_keys. revert G. generalize (DV.neighbors st) as l.
  induction l as [|e l IH]; simpl; intros G; auto.
  rewrite (G e) by auto. simpl. f_equal. apply IH. intros; apply G; auto.
Qed.



(* ================================================================= *)
(** ** Link state: the priority queue *)

Lemma entry_eqb_eq (a b : LS.entry) : LS.entry_eqb a b = true <-> a = b.
Proof.
  destruct a as [d u], b as [d' u']. unfold LS.entry_eqb. simpl.
  rewrite andb_true_iff, Z.eqb_eq, String.eqb_eq. split.
  - intros [-> ->]; reflexivity.
  - intros E. inversion E; auto.
Qed.

Lemma least_In x rest : In (LS.least x rest) (x :: rest).
Proof.
  revert x. induction rest as [|y rest IH]; intros x; simpl; auto.
  destruct (IH (if LS.entry_lt y x then y else x)) as [E|I]; auto.
  destruct (LS.entry_lt y x); auto.
Qed.

Lemma least_le x rest y : In y (x :: rest) -> fst (LS.least x rest) <= fst y.
Proof.
  revert x y. induction rest as [|z rest IH]; intros x y I; simpl.
  - destruct I as [<-|[]]. lia.
  - set (m := if LS.entry_lt z x then z else x).
    assert (Hm : fst m <= fst x /\ fst m <= fst z).
    { subst m. unfold LS.entry_lt.
      destruct (fst z <? fst x) eqn:A; simpl.
      - apply Z.ltb_lt in A. lia.
      - apply Z.ltb_ge in A. destruct (fst z =? fst x) eqn:B; simpl.
        + apply Z.eqb_eq in B. destruct (String.ltb (snd z) (snd x)); lia.
        + lia. }
    pose proof (IH m m (or_introl eq_refl)) as H0.
    destruct I as [<-|[<-|I]]; try lia.
    apply IH. right; auto.
Qed.

Lemma remove_entry_In m pq x : In x (LS.remove_entry m pq) -> In x pq.
Proof.
  induction pq as [|y pq IH]; simpl; auto.
  destruct (LS.entry_eqb m y); simpl; intros; intuition.
Qed.

Lemma In_remove_entry m pq x : In x pq -> x <> m -> In x (LS.remove_entry m pq).
Proof.
  induction pq as [|y pq IH]; simpl; auto.
  intros [<-|I] Hne.
  - destruct (LS.entry_eqb m y) eqn:E; [|left; auto].
    apply entry_eqb_eq in E. congruence.
  - destruct (LS.entry_eqb m y); [auto | right; auto].
Qed.

Lemma remove_entry_NoDup m pq :
  NoDup pq -> NoDup (LS.remove_entry m pq) /\ ~ In m (LS.remove_entry m pq).
Proof.
  induction 1 as [|y pq Hy ND IH]; simpl.
  - split; [constructor | tauto].
  - destruct (LS.entry_eqb m y) eqn:E.
    + apply entry_eqb_eq in E. subst y. auto.
    + destruct IH as [IH1 IH2]. split.
      * constructor; auto. intros I. apply Hy. eapply remove_entry_In; eauto.
      * intros [->|I]; [|auto].
        assert (X : LS.entry_eqb m m = true) by (apply entry_eqb_eq; reflexivity).
        congruence.
Qed.

Lemma remove_entry_length m pq :
  In m pq -> S (List.length (LS.remove_entry m pq)) = List.length pq.
Proof.
  induction pq as [|y pq IH]; simpl; [tauto|].
  intros I. destruct (LS.entry_eqb m y) eqn:E; auto.
  simpl. f_equal. apply IH. destruct I as [->|I]; auto.
  assert (X : LS.entry_eqb m m = true) by (apply entry_eqb_eq; reflexivity).
  congruence.
Qed.

(** [heappop] takes an entry of least distance out of the queue. *)
Lemma heappop_spec pq e pq' :
  LS.heappop pq = Some (e, pq') ->
  In e pq /\ pq' = LS.remove_entry e pq /\ forall y, In y pq -> fst e <= fst y.
Proof.
  destruct pq as [|x rest]; simpl; [discriminate|].
  intros E. inversion E; subst. clear E. split; [|split].
  - apply least_In.
  - reflexivity.
  - intros y I. apply least_le. exact I.
Qed.

Lemma heappop_None pq : LS.heappop pq = None -> pq = [].
Proof. destruct pq; simpl; [auto | discriminate]. Qed.

(* ================================================================= *)
(** ** Link state: shortest paths *)

Lemma edge_items st u kvs v c w :
  ls_db_ok st ->
  d_get (KStr u) (LS.ls_db st) = Some (JObj kvs) ->
  In (v, c) kvs ->
  py_num c = Some w ->
  edge st u v w /\ 0 <= w.
Proof.
  intros OK G I N. split.
  - exists kvs, c. auto.
  - destruct (OK _ _ (d_get_In _ _ _ G)) as (kvs' & E & H).
    inversion E; subst kvs'. destruct (H v c I) as (w' & N' & Hw). congruence.
Qed.

Lemma edge_nonneg st u v w : ls_db_ok st -> edge st u v w -> 0 <= w.
Proof.
  intros OK (kvs & c & G & I & N). eapply edge_items; eauto.
Qed.

Lemma route_nonneg st f v c : ls_db_ok st -> route st f v c -> 0 <= c.
Proof.
  intros OK R. induction R as [v w E | f u v c w R IH E].
  - eapply edge_nonneg; eauto.
  - pose proof (edge_nonneg st u v w OK E). lia.
Qed.

Lemma NoDup_snoc {A : Type} (l : list A) (x : A) :
  NoDup l -> ~ In x l -> NoDup (l ++ [x]).
Proof.
  induction 1 as [|y l Hy ND IH]; simpl; intros N.
  - constructor; [tauto | constructor].
  - constructor.
    + intros I. apply in_app_or in I. destruct I as [I|[E|[]]]; [auto|].
      subst. apply N. left; reflexivity.
    + apply IH. intros I. apply N. right; exact I.
Qed.

(** What [record_first_hop] writes. *)
Lemma record_first_hop_other st current neighbor fh x :
  x <> neighbor ->
  d_get x (LS.record_first_hop st current neighbor fh) = d_get x fh.
Proof.
  intros Hne. unfold LS.record_first_hop.
  destruct (String.eqb current (LS.addr st)).
  - generalize fh. induction (LS.neighbors st) as [|[port [endpoint c]] l IH];
      simpl; intros fh0; auto.
    rewrite IH. destruct (String.eqb endpoint neighbor); auto.
    apply d_get_set_neq. congruence.
  - destruct (d_get current fh); auto. apply d_get_set_neq. congruence.
Qed.

Lemma record_first_hop_self st neighbor fh :
  (exists port cost, In (port, (neighbor, cost)) (LS.neighbors st)) ->
  exists port cost,
    d_get neighbor (LS.record_first_hop st (LS.addr st) neighbor fh) = Some port /\
    In (port, (neighbor, cost)) (LS.neighbors st).
Proof.
  unfold LS.record_first_hop. rewrite String.eqb_refl.
  induction (LS.neighbors st) as [|[port [endpoint c]] l IH] using rev_ind.
  - intros (? & ? & []).
  - intros (p & cost & I). rewrite fold_left_app. simpl.
    destruct (String.eqb_spec endpoint neighbor) as [->|Hne].
    + exists port, c. rewrite d_get_set_eq. split; auto.
      apply in_or_app. right. left. reflexivity.
    + apply in_app_or in I. destruct I as [I|[E|[]]].
      * destruct IH as (p' & c' & G & I'); [eauto|].
        exists p', c'. split; auto. apply in_or_app; auto.
      * inversion E; subst. congruence.
Qed.

Lemma record_first_hop_relay st current neighbor fh port :
  current <> LS.addr st ->
  d_get current fh = Some port ->
  d_get neighbor (LS.record_first_hop st current neighbor fh) = Some port.
Proof.
  intros Hne G. unfold LS.record_first_hop.
  destruct (String.eqb_spec current (LS.addr st)); [contradiction|].
  rewrite G. apply d_get_set_eq.
Qed.

Lemma record_first_hop_keys st current neighbor fh x port :
  d_get x (LS.record_first_hop st current neighbor fh) = Some port ->
  x = neighbor \/ d_get x fh = Some port.
Proof.
  intros G. destruct (string_dec x neighbor) as [->|Hne]; auto.
  rewrite record_first_hop_other in G by assumption. auto.
Qed.

(** One edge of [current]: the invariant of the inner loop is kept and the
    queue grows by at most one entry. *)
Lemma relax_step st processed current dist done l v c w :
  ls_db_ok st ->
  py_num c = Some w ->
  edge st current v w ->
  relax_inv st processed current dist done l ->
  exists l',
    LS.relax st current dist l (v, c) = Some l' /\
    relax_inv st processed current dist (done ++ [(v, c)]) l' /\
    (List.length (LS.pq l') <= List.length (LS.pq l) + 1)%nat.
Proof.
  intros OK Nc E R. pose proof (edge_nonneg st current v w OK E) as Hw.
  assert (Hdist : 0 <= dist).
  { destruct (string_dec current (LS.addr st)) as [->|Hne].
    - pose proof (rel_self R) as A. pose proof (rel_current R) as B.
      rewrite A in B. inversion B. lia.
    - destruct (rel_route R current dist (rel_current R) Hne) as (f & Rt & _).
      eapply route_nonneg; eauto. }
  unfold LS.relax. rewrite Nc.
  destruct (match d_get v (LS.distances l) with
            | Some d => dist + w <? d
            | None => true
            end) eqn:Imp.
  - (* the distance of [v] improves *)
    assert (Hnew : forall dv, d_get v (LS.distances l) = Some dv -> dist + w < dv).
    { intros dv G. rewrite G in Imp. apply Z.ltb_lt in Imp. exact Imp. }
    assert (Hvself : v <> LS.addr st).
    { intros ->. specialize (Hnew 0 (rel_self R)). lia. }
    assert (Hvproc : forall s, In s (current :: processed) -> s <> v).
    { intros s I ->. destruct (rel_processed R v I) as (ds & G & Hle & _).
      specialize (Hnew ds G). lia. }
    assert (Hvcur : v <> current).
    { intros ->. apply (Hvproc current); simpl; auto. }
    eexists. split; [reflexivity|]. split; [|simpl; unfold LS.heappush; rewrite length_app; simpl; lia].
    assert (Hmono : forall x dx, d_get x (LS.distances l) = Some dx ->
              exists dx', d_get x (d_set v (dist + w) (LS.distances l)) = Some dx' /\
                          dx' <= dx).
    { intros x dx G. destruct (string_dec x v) as [->|Hx].
      - exists (dist + w). rewrite d_get_set_eq. split; auto.
        specialize (Hnew dx G). lia.
      - exists dx. rewrite d_get_set_neq by congruence. split; auto. lia. }
    constructor; simpl.
    + rewrite d_get_set_neq by congruence. apply (rel_self R).
    + rewrite d_get_set_neq by congruence. apply (rel_current R).
    + intros x d G Hx. destruct (string_dec x v) as [->|Hxv].
      * rewrite d_get_set_eq in G. inversion G; subst d. clear G.
        destruct (string_dec current (LS.addr st)) as [Ec|Hc].
        { assert (dist = 0).
          { pose proof (rel_self R) as A. pose proof (rel_current R) as B.
            rewrite Ec in B. rewrite A in B. inversion B; reflexivity. }
          subst dist. simpl. exists v. split.
          - apply route_direct. rewrite <- Ec. exact E.
          - intros H. rewrite Ec in E. rewrite Ec.
            apply record_first_hop_self. apply (H v w E). }
        { destruct (rel_route R current dist (rel_current R) Hc) as (f & Rt & Hp).
          exists f. split; [eapply route_step; eauto|].
          intros H. destruct (Hp H) as (port & cost & G & I).
          exists port, cost. split; auto.
          apply record_first_hop_relay; auto. }
      * rewrite d_get_set_neq in G by congruence.
        destruct (rel_route R x d G Hx) as (f & Rt & Hp).
        exists f. split; auto. intros H. destruct (Hp H) as (port & cost & G' & I).
        exists port, cost. rewrite record_first_hop_other by assumption. auto.
    + intros x port G. apply record_first_hop_keys in G. destruct G as [->|G].
      * split; auto. exists (dist + w). apply d_get_set_eq.
      * destruct (rel_hops R x port G) as (Hx & d & Gd). split; auto.
        destruct (Hmono x d Gd) as (d' & Gd' & _). eauto.
    + intros d x I. unfold LS.heappush in I. apply in_app_or in I.
      destruct I as [I|[I|[]]].
      * destruct (rel_queue R d x I) as (dx & G & Hle).
        destruct (Hmono x dx G) as (dx' & G' & Hle'). exists dx'. split; auto. lia.
      * inversion I; subst. exists (dist + w). rewrite d_get_set_eq. split; auto. lia.
    + unfold LS.heappush. apply NoDup_snoc; [apply (rel_nodup R)|].
      intros I. destruct (rel_queue R _ _ I) as (dv & G & Hle).
      specialize (Hnew dv G). lia.
    + intros x dx G. unfold LS.heappush. destruct (string_dec x v) as [->|Hxv].
      * rewrite d_get_set_eq in G. inversion G; subst.
        right. apply in_or_app. right. left. reflexivity.
      * rewrite d_get_set_neq in G by congruence.
        destruct (rel_pending R x dx G) as [I|I]; [left; exact I|].
        right. apply in_or_app. left. exact I.
    + intros s I. destruct (rel_processed R s I) as (ds & G & Hle & Hst).
      exists ds. rewrite d_get_set_neq by (apply not_eq_sym, Hvproc; exact I).
      split; auto. split; auto.
      intros d Iq. unfold LS.heappush in Iq. apply in_app_or in Iq.
      destruct Iq as [Iq|[Iq|[]]]; [auto|].
      inversion Iq; subst. exfalso. apply (Hvproc s I). reflexivity.
    + intros d x I. unfold LS.heappush in I. apply in_app_or in I.
      destruct I as [I|[I|[]]]; [apply (rel_bound R d x I)|].
      inversion I; subst. lia.
    + apply (rel_fresh R).
    + intros s ds x w0 I G Ed.
      assert (Hs : s <> v) by (apply Hvproc; right; exact I).
      rewrite d_get_set_neq in G by congruence.
      destruct (rel_relaxed R s ds x w0 I G Ed) as (dx & Gx & Hle).
      destruct (Hmono x dx Gx) as (dx' & Gx' & Hle'). exists dx'. split; auto. lia.
    + intros x c0 w0 I N0. apply in_app_or in I. destruct I as [I|[I|[]]].
      * destruct (rel_done R x c0 w0 I N0) as (dx & Gx & Hle).
        destruct (Hmono x dx Gx) as (dx' & Gx' & Hle'). exists dx'. split; auto. lia.
      * inversion I; subst. exists (dist + w). rewrite d_get_set_eq.
        split; auto. rewrite Nc in N0. inversion N0. lia.
  - (* no improvement *)
    eexists. split; [reflexivity|]. split; [|lia].
    destruct (d_get v (LS.distances l)) as [dv|] eqn:G; [|discriminate].
    apply Z.ltb_ge in Imp.
    constructor; try solve [apply R].
    intros x c0 w0 I N0. apply in_app_or in I. destruct I as [I|[I|[]]].
    + apply (rel_done R x c0 w0 I N0).
    + inversion I; subst. exists dv. split; auto.
      rewrite Nc in N0. inversion N0. lia.
Qed.

Lemma relax_all_spec st processed current dist :
  ls_db_ok st ->
  forall todo done l,
    (forall v c, In (v, c) todo ->
       exists w, py_num c = Some w /\ edge st current v w) ->
    relax_inv st processed current dist done l ->
    exists l',
      LS.relax_all st current dist l todo = Some l' /\
      relax_inv st processed current dist (done ++ todo) l' /\
      (List.length (LS.pq l') <= List.length (LS.pq l) + List.length todo)%nat.
Proof.
  intros OK. induction todo as [|[v c] todo IH]; intros done l Ht R; simpl.
  - exists l. rewrite app_nil_r. split; auto. split; auto. lia.
  - destruct (Ht v c (or_introl eq_refl)) as (w & Nc & E).
    destruct (relax_step st processed current dist done l v c w OK Nc E R)
      as (l1 & E1 & R1 & L1).
    unfold LS.relax in E1. unfold LS.relax. rewrite E1.
    destruct (IH (done ++ [(v, c)]) l1) as (l' & E' & R' & L').
    { intros v' c' I. apply Ht. right; exact I. }
    { exact R1. }
    exists l'. split; auto. rewrite <- app_assoc in R'. split; auto. lia.
Qed.

(** After the inner loop [current] counts as processed. *)
Lemma relax_inv_finish st processed current dist done l :
  relax_inv st processed current dist done l ->
  (forall v w, edge st current v w ->
     exists c, In (v, c) done /\ py_num c = Some w) ->
  dijkstra_inv st (current :: processed) l.
Proof.
  intros R All. constructor.
  - apply (rel_self R).
  - apply (rel_route R).
  - apply (rel_hops R).
  - apply (rel_queue R).
  - apply (rel_nodup R).
  - apply (rel_pending R).
  - intros s I. destruct (rel_processed R s I) as (ds & G & Hle & Hst).
    exists ds. split; auto. split; auto.
    intros d x Iq. pose proof (rel_bound R d x Iq). lia.
  - intros s ds v w [<-|I] G E.
    + rewrite (rel_current R) in G. inversion G; subst ds.
      destruct (All v w E) as (c & Ic & Nc). apply (rel_done R v c w Ic Nc).
    + apply (rel_relaxed R s ds v w I G E).
Qed.

Lemma pending_edges_mono u processed db :
  (pending_edges (u :: processed) db <= pending_edges processed db)%nat.
Proof.
  induction db as [|[k j] db IH]; simpl; auto.
  assert (H : ((if is_processed (u :: processed) k then O else adjacency_size j)
               <= (if is_processed processed k then O else adjacency_size j))%nat).
  { destruct k; simpl; auto.
    destruct (string_dec u s); simpl; [lia|].
    destruct (In_dec string_dec s processed); simpl; lia. }
  lia.
Qed.

Lemma pending_edges_take u processed db j :
  ~ In u processed ->
  In (KStr u, j) db ->
  (pending_edges (u :: processed) db + adjacency_size j
   <= pending_edges processed db)%nat.
Proof.
  intros N. induction db as [|[k j'] db IH]; simpl; [tauto|].
  intros [E|I].
  - inversion E; subst. simpl.
    destruct (string_dec u u) as [_|X]; [|congruence].
    destruct (In_dec string_dec u processed); [contradiction|].
    pose proof (pending_edges_mono u processed db). simpl. lia.
  - specialize (IH I).
    assert (H : ((if is_processed (u :: processed) k then O else adjacency_size j')
                 <= (if is_processed processed k then O else adjacency_size j'))%nat).
    { destruct k; simpl; auto.
      destruct (string_dec u s); simpl; [lia|].
      destruct (In_dec string_dec s processed); simpl; lia. }
    lia.
Qed.

(** One round of [while pq]: the invariant is kept and the measure drops. *)
Lemma settle_spec st processed l e pq' :
  ls_db_ok st ->
  dijkstra_inv st processed l ->
  LS.heappop (LS.pq l) = Some (e, pq') ->
  exists l' processed',
    LS.settle st e
      (LS.Locals (LS.distances l) (LS.predecessors l) (LS.first_hops l) pq')
      = Some l' /\
    dijkstra_inv st processed' l' /\
    (List.length (LS.pq l') + pending_edges processed' (LS.ls_db st)
     < List.length (LS.pq l) + pending_edges processed (LS.ls_db st))%nat.
Proof.
  intros OK Inv Pop. destruct e as [d u].
  destruct (heappop_spec _ _ _ Pop) as (Iu & -> & Hmin).
  destruct (inv_queue Inv d u Iu) as (du & Gu & Hdu).
  pose proof (remove_entry_NoDup (d, u) (LS.pq l) (inv_nodup Inv)) as [ND' Nin'].
  pose proof (remove_entry_length (d, u) (LS.pq l) Iu) as Len.
  unfold LS.settle. simpl. rewrite Gu.
  destruct (d >? du) eqn:Stale.
  - (* a stale entry *)
    apply Z.gtb_lt in Stale.
    eexists _, processed. split; [reflexivity|]. split; [|simpl; lia].
    constructor; simpl.
    + apply (inv_self Inv).
    + apply (inv_route Inv).
    + apply (inv_hops Inv).
    + intros d0 x I. apply (inv_queue Inv). eapply remove_entry_In; eauto.
    + exact ND'.
    + intros x dx G. destruct (inv_pending Inv x dx G) as [I|I]; auto.
      right. apply In_remove_entry; auto.
      intros X. inversion X; subst. rewrite Gu in G. inversion G. lia.
    + intros s I. destruct (inv_processed Inv s I) as (ds & G & H1 & H2).
      exists ds. split; auto. split.
      * intros d0 x Iq. apply (H1 d0 x). eapply remove_entry_In; eauto.
      * intros d0 Iq. apply H2. eapply remove_entry_In; eauto.
    + apply (inv_relaxed Inv).
  - (* the entry of [u] at its current distance *)
    assert (d = du).
    { rewrite Z.gtb_ltb in Stale. apply Z.ltb_ge in Stale. lia. }
    subst du.
    assert (Fresh : ~ In u processed).
    { intros I. destruct (inv_processed Inv u I) as (ds & G & _ & H2).
      rewrite Gu in G. inversion G; subst ds. specialize (H2 d Iu). lia. }
    set (l0 := LS.Locals (LS.distances l) (LS.predecessors l) (LS.first_hops l)
                         (LS.remove_entry (d, u) (LS.pq l))).
    assert (R0 : relax_inv st processed u d [] l0).
    { constructor; simpl.
      - apply (inv_self Inv).
      - exact Gu.
      - apply (inv_route Inv).
      - apply (inv_hops Inv).
      - intros d0 x I. apply (inv_queue Inv). eapply remove_entry_In; eauto.
      - exact ND'.
      - intros x dx G. destruct (inv_pending Inv x dx G) as [I|I]; auto.
        destruct (string_dec x u) as [->|Hx]; auto.
        right. apply In_remove_entry; auto. intros X. inversion X; congruence.
      - intros s [<-|I].
        + exists d. split; auto. split; [lia|].
          intros d0 Iq. pose proof (remove_entry_In _ _ _ Iq) as Iq'.
          destruct (inv_queue Inv d0 u Iq') as (ds & G & Hle).
          rewrite Gu in G. inversion G; subst ds.
          assert (d0 <> d) by (intros ->; contradiction). lia.
        + destruct (inv_processed Inv s I) as (ds & G & H1 & H2).
          exists ds. split; auto. split; [apply (H1 d u Iu)|].
          intros d0 Iq. apply H2. eapply remove_entry_In; eauto.
      - intros d0 x Iq. apply (Hmin (d0, x)). eapply remove_entry_In; eauto.
      - exact Fresh.
      - apply (inv_relaxed Inv).
      - intros v c w []. }
    destruct (d_get (KStr u) (LS.ls_db st)) as [j|] eqn:Gdb.
    + destruct (OK _ _ (d_get_In _ _ _ Gdb)) as (kvs & -> & Hk). simpl.
      destruct (relax_all_spec st processed u d OK kvs [] l0) as (l' & E' & R' & L').
      { intros v c I. destruct (Hk v c I) as (w & Nc & _). exists w. split; auto.
        exists kvs, c. auto. }
      { exact R0. }
      fold l0. rewrite E'. exists l', (u :: processed). split; auto. split.
      * apply (relax_inv_finish st processed u d ([] ++ kvs) l' R').
        intros v w (kvs' & c & G & I & Nc). rewrite Gdb in G. inversion G; subst kvs'.
        exists c. auto.
      * pose proof (pending_edges_take u processed (LS.ls_db st) (JObj kvs) Fresh
                      (d_get_In _ _ _ Gdb)) as Hp.
        simpl in Hp. simpl in L'. lia.
    + exists l0, (u :: processed). split; auto. split.
      * apply (relax_inv_finish st processed u d [] l0 R0).
        intros v w (kvs' & c & G & _). congruence.
      * pose proof (pending_edges_mono u processed (LS.ls_db st)). simpl. lia.
Qed.

(** The loop ends, with the invariant and an empty queue, as soon as the
    fuel exceeds the measure. *)
Lemma while_pq_spec st :
  ls_db_ok st ->
  forall fuel processed l,
    dijkstra_inv st processed l ->
    (List.length (LS.pq l) + pending_edges processed (LS.ls_db st) < fuel)%nat ->
    exists l' processed',
      LS.while_pq fuel st l = Done (LS.first_hops l') /\
      dijkstra_inv st processed' l' /\
      LS.pq l' = [].
Proof.
  intros OK. induction fuel as [|fuel IH]; intros processed l Inv M; [lia|].
  simpl. destruct (LS.heappop (LS.pq l)) as [[e pq']|] eqn:Pop.
  - destruct (settle_spec st processed l e pq' OK Inv Pop) as (l1 & P1 & E1 & Inv1 & M1).
    rewrite E1. apply (IH P1 l1 Inv1). lia.
  - exists l, processed. split; auto. split; auto. apply heappop_None; auto.
Qed.

Lemma while_pq_mono st :
  forall n l r, LS.while_pq n st l = Done r ->
  forall m, (n <= m)%nat -> LS.while_pq m st l = Done r.
Proof.
  induction n as [|n IH]; intros l r E m Hm; simpl in E; [discriminate|].
  destruct m as [|m]; [lia|]. simpl.
  destruct (LS.heappop (LS.pq l)) as [[e pq']|]; auto.
  destruct (LS.settle st e _) as [l'|]; [|discriminate].
  apply IH; auto. lia.
Qed.

Lemma calculate_deterministic st n m a b :
  LS.calculate_forwarding_table n st = Done a ->
  LS.calculate_forwarding_table m st = Done b ->
  a = b.
Proof.
  unfold LS.calculate_forwarding_table. intros Ea Eb.
  destruct (LS.while_pq n _ _) as [ra| |] eqn:Wa; try discriminate.
  destruct (LS.while_pq m _ _) as [rb| |] eqn:Wb; try discriminate.
  pose proof (while_pq_mono _ _ _ _ Wa (Nat.max n m) (Nat.le_max_l n m)) as Wa'.
  pose proof (while_pq_mono _ _ _ _ Wb (Nat.max n m) (Nat.le_max_r n m)) as Wb'.
  rewrite Wa' in Wb'. inversion Wb'; subst. inversion Ea; inversion Eb; reflexivity.
Qed.

Lemma init_inv st :
  dijkstra_inv st [] (LS.Locals [(LS.addr st, 0)] [] [] [(0, LS.addr st)]).
Proof.
  constructor; simpl.
  - destruct (eq_dec (LS.addr st) (LS.addr st)); congruence.
  - intros v d G Hv. destruct (eq_dec v (LS.addr st)); [contradiction | discriminate].
  - intros v port G. discriminate.
  - intros d v [E|[]]. inversion E; subst. exists 0.
    destruct (eq_dec (LS.addr st) (LS.addr st)); [split; [auto|lia] | congruence].
  - constructor; [simpl; tauto | constructor].
  - intros v dv G. destruct (eq_dec v (LS.addr st)) as [->|]; [|discriminate].
    inversion G; subst. right. left. reflexivity.
  - intros s [].
  - intros s ds v w [].
Qed.

(** With the queue empty every recorded distance is a lower bound of the
    cost of every route. *)
Lemma final_distances st processed l :
  dijkstra_inv st processed l ->
  LS.pq l = [] ->
  forall f v c, route st f v c ->
    exists dv, d_get v (LS.distances l) = Some dv /\ dv <= c.
Proof.
  intros Inv Q.
  assert (Hp : forall x dx, d_get x (LS.distances l) = Some dx -> In x processed).
  { intros x dx G. destruct (inv_pending Inv x dx G) as [I|I]; auto.
    rewrite Q in I. destruct I. }
  intros f v c R. induction R as [v w E | f u v c w R IH E].
  - pose proof (inv_self Inv) as G0.
    destruct (inv_relaxed Inv (LS.addr st) 0 v w (Hp _ _ G0) G0 E) as (dv & G & Hle).
    exists dv. split; auto.
  - destruct IH as (du & Gu & Hdu).
    destruct (inv_relaxed Inv u du v w (Hp _ _ Gu) Gu E) as (dv & G & Hle).
    exists dv. split; auto. lia.
Qed.

Lemma final_table st processed l :
  dijkstra_inv st processed l ->
  LS.pq l = [] ->
  links_have_ports st ->
  first_hop_table st (LS.first_hops l).
Proof.
  intros Inv Q H. split.
  - intros v Hv (f & c & R).
    destruct (final_distances st processed l Inv Q f v c R) as (dv & G & _).
    destruct (inv_route Inv v dv G Hv) as (f' & _ & Hp).
    destruct (Hp H) as (port & cost & Gp & _). eauto.
  - intros v port G. destruct (inv_hops Inv v port G) as (Hv & dv & Gd).
    split; auto.
    destruct (inv_route Inv v dv Gd Hv) as (f & R & Hp).
    destruct (Hp H) as (port' & cost & Gp & I).
    rewrite G in Gp. inversion Gp; subst port'.
    exists f, dv, cost. split; auto. split; auto.
    intros f' c' R'.
    destruct (final_distances st processed l Inv Q f' v c' R') as (dv' & G' & Hle).
    rewrite Gd in G'. inversion G'; subst. exact Hle.
Qed.

Lemma route_ext st st' f v c :
  LS.ls_db st' = LS.ls_db st -> LS.addr st' = LS.addr st ->
  route st f v c -> route st' f v c.
Proof.
  intros Edb Ea R. induction R as [v w E | f u v c w R IH E].
  - apply route_direct. rewrite Ea. unfold edge in *. rewrite Edb. exact E.
  - eapply route_step; eauto. unfold edge in *. rewrite Edb. exact E.
Qed.

Lemma first_hop_table_ext st st' table :
  LS.ls_db st' = LS.ls_db st -> LS.addr st' = LS.addr st ->
  LS.neighbors st' = LS.neighbors st ->
  first_hop_table st table -> first_hop_table st' table.
Proof.
  intros Edb Ea En [H1 H2]. split.
  - intros v Hv (f & c & R). apply H1; [congruence|].
    exists f, c. apply (route_ext st' st); auto.
  - intros v port G. destruct (H2 v port G) as (Hv & f & c & cost & [R Min] & I).
    split; [congruence|]. exists f, c, cost. split; [|rewrite En; exact I].
    split; [apply (route_ext st st'); auto|].
    intros f' c' R'. apply (Min f'). apply (route_ext st' st); auto.
Qed.

(** [calculate_forwarding_table] returns for every state of the data model,
    and what it installs is the first-hop table when the engine's own record
    agrees with the link table. *)
Lemma calculate_forwarding_table_spec st :
  ls_db_ok st ->
  exists fuel0, forall fuel, (fuel0 <= fuel)%nat ->
    exists table,
      LS.calculate_forwarding_table fuel st =
        Done (LS.with_forwarding_table st table) /\
      (links_have_ports st -> first_hop_table st table).
Proof.
  intros OK. exists (S (S (pending_edges [] (LS.ls_db st)))). intros fuel Hf.
  set (st0 := LS.with_forwarding_table st []).
  assert (OK0 : ls_db_ok st0) by exact OK.
  destruct (while_pq_spec st0 OK0 fuel [] _ (init_inv st0)) as (l' & P' & E & Inv & Q).
  { simpl. lia. }
  exists (LS.first_hops l'). unfold LS.calculate_forwarding_table. fold st0.
  rewrite E. split; [reflexivity|].
  intros H. apply (first_hop_table_ext st0 st); auto.
  apply (final_table st0 P' l' Inv Q). exact H.
Qed.

(** C1, amended: in a state whose records are dictionaries of non-negative
    costs and whose own record lists only neighbors that have a port in the
    link table, [calculate_forwarding_table] returns and replaces the
    forwarding table with exactly the map sending each destination other
    than the engine itself that is reachable in the graph of [ls_db] to a
    port whose neighbor is the first hop of a shortest path from the engine;
    the engine's own address and the unreachable destinations are absent. *)
Theorem C1_table_is_first_hop_of_shortest_path :
  forall (st : LS.state),
    ls_db_ok st ->
    links_have_ports st ->
    exists fuel0, forall fuel, (fuel0 <= fuel)%nat ->
      exists table,
        LS.calculate_forwarding_table fuel st =
          Done (LS.with_forwarding_table st table) /\
        first_hop_table st table.
Proof.
  intros st OK H. destruct (calculate_forwarding_table_spec st OK) as (fuel0 & Hf).
  exists fuel0. intros fuel Hle. destruct (Hf fuel Hle) as (table & E & T).
  exists table. split; auto.
Qed.

Lemma C1_witness :
  exists fuel0, forall fuel, (fuel0 <= fuel)%nat ->
    exists table,
      LS.calculate_forwarding_table fuel ls_example =
        Done (LS.with_forwarding_table ls_example table) /\
      first_hop_table ls_example table.
Proof.
  apply (C1_table_is_first_hop_of_shortest_path ls_example).
  - intros k j [E|[E|[]]]; inversion E; subst; eexists; (split; [reflexivity|]).
    + intros v c [E'|[]]. inversion E'; subst. exists 1. split; [reflexivity|lia].
    + intros v c [E'|[E'|[]]]; inversion E'; subst; exists 1; (split; [reflexivity|lia]).
  - intros v w (kvs & c & G & I & N). vm_compute in G. inversion G; subst kvs.
    destruct I as [E|[]]. inversion E; subst. exists 1, 1. left. reflexivity.
Defined.

(** C1 as stated fails: after a record naming node A itself as origin has
    replaced A's own record, Z is reachable in the graph of [ls_db] (A lists
    it as a neighbor) but no port leads to it, and the table has no entry
    for Z. *)
Lemma C1_counterexample :
  exists st,
    ls_run 10 0 (LS.init "A" 10) own_record_trace = Some st /\
    ~ table_of_all_reachable st.
Proof.
  eexists. split; [vm_compute; reflexivity|].
  intros (fuel & st' & E & H).
  match type of E with
  | LS.calculate_forwarding_table _ ?s = _ =>
      assert (E10 : exists t, LS.calculate_forwarding_table 10 s = Done t /\
                              LS.forwarding_table t = [])
        by (eexists; split; vm_compute; reflexivity)
  end.
  destruct E10 as (t & E10 & Ft).
  rewrite (calculate_deterministic _ _ _ _ _ E E10) in H.
  destruct (H "Z"%string) as [H1 _].
  destruct H1 as (port & f & c & cost & G & _).
  - exists "Z"%string, 1. apply route_direct.
    exists [("Z"%string, JInt 1)], (JInt 1). vm_compute. auto.
  - rewrite Ft in G. discriminate.
Qed.

(* ================================================================= *)
(** ** Link state: the handlers *)

Lemma in_history_In k h : LS.in_history k h = true <-> In k h.
Proof.
  unfold LS.in_history. rewrite existsb_exists. split.
  - intros ([a b] & I & E). simpl in E. destruct k as [x y]. simpl in E.
    destruct (eq_dec x a) as [->|]; [|discriminate].
    destruct (eq_dec y b) as [->|]; [|discriminate]. exact I.
  - intros I. exists k. split; auto.
    destruct (eq_dec (fst k) (fst k)); [|congruence].
    destruct (eq_dec (snd k) (snd k)); congruence.
Qed.

Lemma flood_packet_spec st p port :
  LS.flood_packet st p port =
  map (fun q => (q, p))
      (filter (fun q => negb (q =? port)) (d_keys (LS.neighbors st))).
Proof.
  unfold LS.flood_packet. induction (d_keys (LS.neighbors st)) as [|q l IH]; simpl; auto.
  destruct (q =? port); simpl; rewrite IH; reflexivity.
Qed.

Lemma accepted_ok st origin sequence links :
  ls_db_ok st -> adjacency_ok links -> ls_db_ok (accepted st origin sequence links).
Proof.
  intros OK OKl k j I. unfold accepted in I. simpl in I.
  apply d_set_In in I. destruct I as [->|I]; auto. eapply OK; eauto.
Qed.

(** C4: a well-formed link-state record [(origin, sequence, links)] that
    was already processed changes nothing and sends nothing; otherwise it is
    recorded as processed, and it is accepted -- [links] stored as
    [ls_db[origin]], [seq_nums[origin]] updated, the forwarding table
    recomputed, the packet forwarded to every neighbor port but the arrival
    port -- exactly when [origin] is unknown or [sequence] is greater than
    the last accepted one; a record that is not newer changes neither
    [ls_db] nor [seq_nums] nor the forwarding table and sends nothing. *)
Theorem C4_link_state_record_handling :
  forall (st : LS.state) (port : Z) (p : packet) (ls_data : json)
         (origin : string) (sequence : Z) (links : json),
    is_traceroute p = false ->
    content p = Doc ls_data ->
    py_subscript ls_data "router" = Some (JStr origin) ->
    py_subscript ls_data "seq" = Some (JInt sequence) ->
    py_subscript ls_data "links" = Some links ->
    adjacency_ok links ->
    ls_db_ok st ->
    seq_ok st origin ->
    exists fuel0, forall fuel, (fuel0 <= fuel)%nat ->
      (In (KStr origin, KNum sequence) (LS.packet_history st) ->
         LS.handle_packet fuel st port p = Done (st, [])) /\
      (~ In (KStr origin, KNum sequence) (LS.packet_history st) ->
       newer st origin sequence ->
         exists table,
           LS.calculate_forwarding_table fuel (accepted st origin sequence links)
             = Done (LS.with_forwarding_table
                       (accepted st origin sequence links) table) /\
           (links_have_ports (accepted st origin sequence links) ->
            first_hop_table (accepted st origin sequence links) table) /\
           LS.handle_packet fuel st port p =
             Done (LS.with_forwarding_table
                     (accepted st origin sequence links) table,
                   map (fun q => (q, p))
                       (filter (fun q => negb (q =? port))
                               (d_keys (LS.neighbors st))))) /\
      (~ In (KStr origin, KNum sequence) (LS.packet_history st) ->
       ~ newer st origin sequence ->
         LS.handle_packet fuel st port p =
           Done (LS.with_packet_history st
                   ((KStr origin, KNum sequence) :: LS.packet_history st), [])).
Proof.
  intros st port p ls_data origin sequence links Tr Ct Er Es El OKl OK Sq.
  destruct (calculate_forwarding_table_spec _ (accepted_ok st origin sequence links OK OKl))
    as (fuel0 & Hf).
  exists fuel0. intros fuel Hle.
  assert (Unfold : LS.handle_packet fuel st port p =
                   try_except (LS.handle_routing fuel st port p)).
  { unfold LS.handle_packet. rewrite Tr. reflexivity. }
  rewrite Unfold. unfold LS.handle_routing. rewrite Ct, Er, Es, El. simpl.
  split; [|split].
  - intros I. apply in_history_In in I. rewrite I. reflexivity.
  - intros N Nw.
    assert (Hh : LS.in_history (KStr origin, KNum sequence) (LS.packet_history st) = false).
    { destruct (LS.in_history _ _) eqn:X; auto. apply in_history_In in X. contradiction. }
    rewrite Hh. destruct (Hf fuel Hle) as (table & Ec & Ht).
    exists table. split; auto. split; auto.
    assert (Nwr : LS.is_newer
              (LS.with_packet_history st
                 ((KStr origin, KNum sequence) :: LS.packet_history st))
              (SStr origin) (SInt sequence) = Some true).
    { unfold LS.is_newer, newer in *. simpl.
      destruct (d_get (KStr origin) (LS.seq_nums st)) as [last|]; auto.
      destruct Nw as (n & En & Hn). destruct last; simpl in *; try discriminate;
        inversion En; subst; f_equal; apply Z.gtb_lt; lia. }
    rewrite Nwr. unfold accepted in Ec. simpl in Ec. rewrite Ec. simpl.
    rewrite flood_packet_spec. reflexivity.
  - intros N Nw.
    assert (Hh : LS.in_history (KStr origin, KNum sequence) (LS.packet_history st) = false).
    { destruct (LS.in_history _ _) eqn:X; auto. apply in_history_In in X. contradiction. }
    rewrite Hh.
    assert (Nwr : LS.is_newer
              (LS.with_packet_history st
                 ((KStr origin, KNum sequence) :: LS.packet_history st))
              (SStr origin) (SInt sequence) = Some false).
    { unfold LS.is_newer, newer in *. simpl.
      destruct (d_get (KStr origin) (LS.seq_nums st)) as [last|] eqn:G; [|tauto].
      destruct (Sq last G) as (n & En).
      assert (~ n < sequence) by (intros X; apply Nw; eauto).
      destruct last; simpl in *; try discriminate;
        inversion En; subst; f_equal; rewrite Z.gtb_ltb; apply Z.ltb_ge; lia. }
    rewrite Nwr. reflexivity.
Qed.

Lemma ls_example_reachable :
  ls_run 10 0 (LS.init "A" 10) ls_example_trace = Some ls_example.
Proof. vm_compute. reflexivity. Qed.

Lemma ls_example_ok : ls_db_ok ls_example.
Proof.
  intros k j [E|[E|[]]]; inversion E; subst; eexists; (split; [reflexivity|]).
  - intros v c [E'|[]]. inversion E'; subst. exists 1. split; [reflexivity|lia].
  - intros v c [E'|[E'|[]]]; inversion E'; subst; exists 1; (split; [reflexivity|lia]).
Qed.

Lemma C4_witness :
  exists fuel0, forall fuel, (fuel0 <= fuel)%nat ->
    (In (KStr "B", KNum 2) (LS.packet_history ls_example) ->
       LS.handle_packet fuel ls_example 1 newer_record_packet
         = Done (ls_example, [])) /\
    (~ In (KStr "B", KNum 2) (LS.packet_history ls_example) ->
     newer ls_example "B" 2 ->
       exists table,
         LS.calculate_forwarding_table fuel
           (accepted ls_example "B" 2 (JObj [("A"%string, JInt 1)]))
           = Done (LS.with_forwarding_table
                     (accepted ls_example "B" 2 (JObj [("A"%string, JInt 1)]))
                     table) /\
         (links_have_ports
            (accepted ls_example "B" 2 (JObj [("A"%string, JInt 1)])) ->
          first_hop_table
            (accepted ls_example "B" 2 (JObj [("A"%string, JInt 1)])) table) /\
         LS.handle_packet fuel ls_example 1 newer_record_packet =
           Done (LS.with_forwarding_table
                   (accepted ls_example "B" 2 (JObj [("A"%string, JInt 1)]))
                   table,
                 map (fun q => (q, newer_record_packet))
                     (filter (fun q => negb (q =? 1))
                             (d_keys (LS.neighbors ls_example))))) /\
    (~ In (KStr "B", KNum 2) (LS.packet_history ls_example) ->
     ~ newer ls_example "B" 2 ->
       LS.handle_packet fuel ls_example 1 newer_record_packet =
         Done (LS.with_packet_history ls_example
                 ((KStr "B", KNum 2) :: LS.packet_history ls_example), [])).
Proof.
  apply (C4_link_state_record_handling ls_example 1 newer_record_packet
           (JObj [("router"%string, JStr "B"); ("seq"%string, JInt 2);
                  ("links"%string, JObj [("A"%string, JInt 1)])])
           "B" 2 (JObj [("A"%string, JInt 1)])).
  - reflexivity.
  - reflexivity.
  - reflexivity.
  - reflexivity.
  - reflexivity.
  - eexists; split; [reflexivity|].
    intros v c [E'|[]]. inversion E'; subst. exists 1. split; [reflexivity|lia].
  - exact ls_example_ok.
  - intros last G. vm_compute in G. inversion G; subst. exists 1. reflexivity.
Defined.

(* ----------------------------------------------------------------- *)
(** *** Malformed payloads *)

(** C5 at two malformed payloads.  A link-state record whose cost is a
    string is recorded and stored, and the recomputation it triggers raises
    after the forwarding table was emptied; a distance vector whose cost is
    a string is stored before the recomputation raises.  Both exceptions are
    swallowed and the changed state stays. *)
Theorem C5_malformed_payloads_change_the_state :
  (exists st',
     LS.handle_packet 10 ls_example 1 malformed_record_packet = Done (st', []) /\
     LS.forwarding_table ls_example = [("B"%string, 1); ("C"%string, 1)] /\
     LS.forwarding_table st' = [] /\
     d_get (KStr "B") (LS.ls_db st') = Some (JObj [("A"%string, JStr "far")]) /\
     d_get (KStr "B") (LS.seq_nums st') = Some (SInt 2) /\
     LS.packet_history st' = (KStr "B", KNum 2) :: LS.packet_history ls_example) /\
  (exists st',
     DV.handle_packet insertion_order dv_example 1 malformed_vector_packet
       = Done (st', []) /\
     d_get "B"%string (DV.neighbor_dvs dv_example)
       = Some (JObj [("C"%string, JInt 1)]) /\
     d_get "B"%string (DV.neighbor_dvs st')
       = Some (JObj [("C"%string, JStr "far")])).
Proof.
  split; eexists; (split; [vm_compute; reflexivity|]); repeat split.
Qed.

(* ----------------------------------------------------------------- *)
(** *** Determinism *)

Lemma renumber_clock fuel now now' st :
  forget_clock (LS.renumber_and_announce fuel now st) =
  forget_clock (LS.renumber_and_announce fuel now' st).
Proof.
  unfold LS.renumber_and_announce.
  destruct (LS.bump_seq st) as [st1|]; auto.
  destruct (LS.calculate_forwarding_table fuel st1) as [st2|st2|]; auto.
  unfold LS.broadcast_link_state.
  destruct (d_get (KStr (LS.addr st2)) (LS.seq_nums st2)); auto.
  destruct (d_get (KStr (LS.addr st2)) (LS.ls_db st2)); auto.
Qed.

(** C8, amended: every handler is a function of the state, the event and,
    for the distance-vector engine, the set iteration order of the
    interpreter; the link-state handlers for link up and link down also
    read the wall clock, which decides nothing but the [last_sent] they
    leave: the packets sent and the rest of the state do not depend on it,
    and the packet and timer handlers do not depend on it at all. *)
Theorem C8_handlers_deterministic_up_to_clock :
  (forall S st e r r',
     DV.handle S st e = r -> DV.handle S st e = r' -> r = r') /\
  (forall fuel now now' st e,
     forget_clock (LS.handle fuel now st e) =
     forget_clock (LS.handle fuel now' st e)) /\
  (forall fuel now now' st port p,
     LS.handle fuel now st (LS.PacketArrival port p) =
     LS.handle fuel now' st (LS.PacketArrival port p)) /\
  (forall fuel now now' st time_ms,
     LS.handle fuel now st (LS.Tick time_ms) =
     LS.handle fuel now' st (LS.Tick time_ms)).
Proof.
  assert (Tick : forall now now' st time_ms,
            LS.handle_time now st time_ms = LS.handle_time now' st time_ms).
  { intros now now' st t. unfold LS.handle_time.
    destruct (t - LS.last_sent st >=? LS.heartbeat_time st); auto.
    unfold LS.broadcast_link_state.
    destruct (d_get (KStr (LS.addr st)) (LS.seq_nums st)); auto.
    destruct (d_get (KStr (LS.addr st)) (LS.ls_db st)); auto. }
  split; [|split; [|split]].
  - intros S st e r r' <- <-. reflexivity.
  - intros fuel now now' st [port p | port endpoint cost | port | t]; simpl.
    + reflexivity.
    + unfold LS.handle_new_link. simpl.
      destruct (d_get (KStr (LS.addr st)) (LS.ls_db st)) as [[]|]; auto.
      apply renumber_clock.
    + unfold LS.handle_remove_link.
      destruct (d_get port (LS.neighbors st)) as [[n c]|]; auto. simpl.
      destruct (d_get (KStr (LS.addr st)) (LS.ls_db st)) as [own|]; auto.
      destruct (py_contains own n) as [[]|]; auto.
      * destruct own; auto. apply renumber_clock.
      * apply renumber_clock.
    + rewrite (Tick now now'). reflexivity.
  - reflexivity.
  - intros. simpl. apply Tick.
Qed.

(** C8 as stated fails: the state a link up leaves depends on the reading
    of the wall clock. *)
Lemma C8_counterexample : ~ determined_by_state_and_event.
Proof.
  intros H. specialize (H 5%nat 1 2 (LS.init "A" 10) (LS.LinkUp 1 "B" 1)).
  vm_compute in H. discriminate.
Qed.

Lemma C8_witness :
  DV.handle insertion_order dv_example (DV.LinkDown 1) =
    DV.handle insertion_order dv_example (DV.LinkDown 1) /\
  forget_clock (LS.handle 10 1 ls_example (LS.LinkUp 2 "C" 1)) =
    forget_clock (LS.handle 10 2 ls_example (LS.LinkUp 2 "C" 1)).
Proof.
  split.
  - apply (proj1 C8_handlers_deterministic_up_to_clock insertion_order dv_example
             (DV.LinkDown 1)); reflexivity.
  - apply (proj1 (proj2 C8_handlers_deterministic_up_to_clock)).
Defined.

(** Content that [json.loads] rejects is dropped by both engines without a
    trace. *)
Lemma unparseable_is_dropped :
  forall p, is_traceroute p = false -> content p = Unparseable ->
    (forall fuel st port, LS.handle_packet fuel st port p = Done (st, [])) /\
    (forall S st port, DV.handle_packet S st port p = Done (st, [])).
Proof.
  intros p Tr Ct. split.
  - intros fuel st port. unfold LS.handle_packet, LS.handle_routing.
    rewrite Tr, Ct. reflexivity.
  - intros S st port. unfold DV.handle_packet, DV.handle_routing.
    rewrite Tr, Ct. destruct (d_get port (DV.neighbors st)) as [[n c]|]; reflexivity.
Qed.

(* ================================================================= *)
(** ** Link state: the engine's own record and the link table *)

Lemma own_record_ok_ext st st' :
  LS.addr st' = LS.addr st ->
  d_get (KStr (LS.addr st)) (LS.ls_db st') = d_get (KStr (LS.addr st)) (LS.ls_db st) ->
  LS.neighbors st' = LS.neighbors st ->
  own_record_ok st -> own_record_ok st'.
Proof.
  intros Ea Edb En (Sy & ND & W). unfold own_record_ok, in_sync, endpoints in *.
  rewrite Ea, Edb, En. auto.
Qed.

Lemma calculate_frame fuel st st' :
  LS.calculate_forwarding_table fuel st = Done st' \/
  LS.calculate_forwarding_table fuel st = Raised st' ->
  LS.addr st' = LS.addr st /\ LS.ls_db st' = LS.ls_db st /\
  LS.neighbors st' = LS.neighbors st.
Proof.
  unfold LS.calculate_forwarding_table.
  destruct (LS.while_pq _ _ _); intros [E|E]; inversion E; subst; simpl; auto.
Qed.

Lemma renumber_frame fuel now st st' out :
  ends_with (LS.renumber_and_announce fuel now st) st' out ->
  LS.addr st' = LS.addr st /\ LS.ls_db st' = LS.ls_db st /\
  LS.neighbors st' = LS.neighbors st.
Proof.
  unfold LS.renumber_and_announce, ends_with, LS.bump_seq.
  destruct (d_get (KStr (LS.addr st)) (LS.seq_nums st)) as [seq|].
  2:{ intros [E|E]; inversion E; subst; auto. }
  destruct (scalar_num seq) as [n|].
  2:{ intros [E|E]; inversion E; subst; auto. }
  set (st1 := LS.with_seq_nums st _).
  destruct (LS.calculate_forwarding_table fuel st1) as [st2|st2|] eqn:C.
  - destruct (calculate_frame fuel st1 st2 (or_introl C)) as (A & B & D).
    unfold LS.broadcast_link_state.
    destruct (d_get (KStr (LS.addr st2)) (LS.seq_nums st2)).
    2:{ intros [E|E]; inversion E; subst; auto. }
    destruct (d_get (KStr (LS.addr st2)) (LS.ls_db st2)).
    2:{ intros [E|E]; inversion E; subst; auto. }
    intros [E|E]; inversion E; subst; simpl; auto.
  - destruct (calculate_frame fuel st1 st2 (or_intror C)) as (A & B & D).
    intros [E|E]; inversion E; subst; auto.
  - intros [E|E]; discriminate.
Qed.

Lemma ends_with_try_except (r : LS.run) st' out :
  ends_with (try_except r) st' out -> ends_with r st' out.
Proof.
  unfold ends_with. destruct r as [[s o]|[s o]|]; simpl; intros [E|E];
    inversion E; subst; auto.
Qed.

Lemma key_of_self r s a :
  py_hashable r = Some s -> key_of s = KStr a -> r = JStr a.
Proof.
  destruct r; simpl; intros E; inversion E; subst; simpl; intros K;
    inversion K; reflexivity.
Qed.

Lemma routing_frame fuel st port p st' out :
  (forall ls_data, content p = Doc ls_data ->
     py_subscript ls_data "router" <> Some (JStr (LS.addr st))) ->
  ends_with (LS.handle_routing fuel st port p) st' out ->
  LS.addr st' = LS.addr st /\
  d_get (KStr (LS.addr st)) (LS.ls_db st') = d_get (KStr (LS.addr st)) (LS.ls_db st) /\
  LS.neighbors st' = LS.neighbors st.
Proof.
  intros Hr. unfold LS.handle_routing, ends_with.
  destruct (content p) as [|ls_data] eqn:Ct.
  { intros [E|E]; inversion E; subst; auto. }
  specialize (Hr ls_data eq_refl).
  destruct (py_subscript ls_data "router") as [r|].
  2:{ intros [E|E]; inversion E; subst; auto. }
  destruct (py_subscript ls_data "seq") as [sq|].
  2:{ intros [E|E]; inversion E; subst; auto. }
  destruct (py_subscript ls_data "links") as [links|].
  2:{ intros [E|E]; inversion E; subst; auto. }
  destruct (py_hashable r) as [s|] eqn:Hs.
  2:{ intros [E|E]; inversion E; subst; auto. }
  destruct (py_hashable sq) as [s2|].
  2:{ intros [E|E]; inversion E; subst; auto. }
  destruct (LS.in_history _ _).
  { intros [E|E]; inversion E; subst; auto. }
  destruct (LS.is_newer _ s s2) as [[]|].
  2,3: intros [E|E]; inversion E; subst; auto.
  match goal with
  | |- context [LS.calculate_forwarding_table fuel ?s1] => set (st1 := s1)
  end.
  assert (Hk : key_of s <> KStr (LS.addr st)).
  { intros K. apply Hr. f_equal. eapply key_of_self; eauto. }
  assert (F1 : LS.addr st1 = LS.addr st /\
               d_get (KStr (LS.addr st)) (LS.ls_db st1) =
                 d_get (KStr (LS.addr st)) (LS.ls_db st) /\
               LS.neighbors st1 = LS.neighbors st).
  { subst st1. simpl. repeat split; auto. apply d_get_set_neq. exact Hk. }
  destruct F1 as (A1 & B1 & C1).
  destruct (LS.calculate_forwarding_table fuel st1) as [st2|st2|] eqn:C.
  - destruct (calculate_frame fuel st1 st2 (or_introl C)) as (A & B & D).
    intros [E|E]; inversion E; subst; repeat split; congruence.
  - destruct (calculate_frame fuel st1 st2 (or_intror C)) as (A & B & D).
    intros [E|E]; inversion E; subst; repeat split; congruence.
  - intros [E|E]; discriminate.
Qed.

Lemma NoDup_map_eq {A B : Type} (f : A -> B) (l : list A) (a b : A) :
  NoDup (map f l) -> In a l -> In b l -> f a = f b -> a = b.
Proof.
  induction l as [|x l IH]; simpl; [tauto|].
  intros ND Ia Ib E. inversion ND; subst.
  destruct Ia as [->|Ia], Ib as [->|Ib]; auto.
  - exfalso. apply H1. rewrite E. apply in_map. exact Ib.
  - exfalso. apply H1. rewrite <- E. apply in_map. exact Ia.
Qed.

Lemma NoDup_map_filter {A B : Type} (f : A -> B) (g : A -> bool) (l : list A) :
  NoDup (map f l) -> NoDup (map f (filter g l)).
Proof.
  induction l as [|x l IH]; simpl; auto.
  intros ND. inversion ND; subst. destruct (g x); simpl; auto.
  constructor; auto. intros I. apply H1.
  apply in_map_iff in I. destruct I as (y & E & I).
  apply filter_In in I. apply in_map_iff. exists y. tauto.
Qed.

Lemma link_up_keeps st port endpoint cost own :
  own_record_ok st ->
  d_get (KStr (LS.addr st)) (LS.ls_db st) = Some (JObj own) ->
  ~ In port (d_keys (LS.neighbors st)) ->
  ~ In endpoint (endpoints st) ->
  own_record_ok
    (LS.with_ls_db
       (LS.with_neighbors st (d_set port (endpoint, cost) (LS.neighbors st)))
       (d_set (KStr (LS.addr st)) (JObj (d_set endpoint (JInt cost) own))
              (LS.ls_db st))).
Proof.
  intros (Sy & ND & W) G Np Ne. unfold own_record_ok, in_sync, endpoints in *. simpl.
  destruct Sy as (own0 & G0 & Hs). rewrite G in G0. inversion G0; subst own0.
  rewrite (d_set_fresh port (endpoint, cost) (LS.neighbors st) Np).
  split; [|split].
  - exists (d_set endpoint (JInt cost) own). rewrite d_get_set_eq. split; auto.
    intros e j. destruct (string_dec e endpoint) as [->|He].
    + rewrite d_get_set_eq. split.
      * intros E. inversion E; subst. exists port, cost. split; auto.
        apply in_or_app. right. left. reflexivity.
      * intros (q & c & -> & I). apply in_app_or in I. destruct I as [I|[E|[]]].
        { exfalso. apply Ne. apply in_map_iff. exists (q, (endpoint, c)). auto. }
        { inversion E; subst. reflexivity. }
    + rewrite d_get_set_neq by congruence. rewrite Hs. split.
      * intros (q & c & -> & I). exists q, c. split; auto. apply in_or_app; auto.
      * intros (q & c & -> & I). apply in_app_or in I. destruct I as [I|[E|[]]].
        { eauto. }
        { inversion E; subst. congruence. }
  - rewrite map_app. simpl. apply NoDup_snoc; auto.
  - unfold d_wf, d_keys. rewrite map_app. simpl. apply NoDup_snoc; auto.
Qed.

Lemma link_down_keeps st port n c own :
  own_record_ok st ->
  d_get (KStr (LS.addr st)) (LS.ls_db st) = Some (JObj own) ->
  d_get port (LS.neighbors st) = Some (n, c) ->
  own_record_ok
    (LS.with_ls_db
       (LS.with_neighbors st (d_del port (LS.neighbors st)))
       (d_set (KStr (LS.addr st)) (JObj (d_del n own)) (LS.ls_db st))).
Proof.
  intros (Sy & ND & W) G Gp. unfold own_record_ok, in_sync, endpoints in *. simpl.
  destruct Sy as (own0 & G0 & Hs). rewrite G in G0. inversion G0; subst own0.
  pose proof (d_get_In _ _ _ Gp) as Ip.
  split; [|split].
  - exists (d_del n own). rewrite d_get_set_eq. split; auto.
    intros e j. destruct (string_dec e n) as [->|He].
    + rewrite d_get_del_eq. split; [discriminate|].
      intros (q & c' & -> & I). apply d_del_In in I. destruct I as [Hq I].
      exfalso. apply Hq.
      assert (X : (q, (n, c')) = (port, (n, c))).
      { apply (NoDup_map_eq (fun e : Z * (string * Z) => fst (snd e))
                 (LS.neighbors st)); auto. }
      inversion X; reflexivity.
    + rewrite d_get_del_neq by congruence. rewrite Hs. split.
      * intros (q & c' & -> & I). exists q, c'. split; auto.
        apply d_del_In. split; auto. intros ->.
        rewrite (In_d_get _ _ _ W I) in Gp. inversion Gp. congruence.
      * intros (q & c' & -> & I). apply d_del_In in I. destruct I as [_ I]. eauto.
  - unfold d_del. apply NoDup_map_filter. exact ND.
  - apply d_wf_del. exact W.
Qed.

(** C9, amended: the initial state has the engine's own record in sync with
    the link table, and the synchronisation (with no two ports leading to the
    same neighbor) is kept by every handler run, completed or raised, on a
    timer tick, a link down, a link up on an unused port to an address that
    is not yet a neighbor, a data packet, and a routing packet that does not
    name the engine itself as origin. *)
Theorem C9_own_record_stays_in_sync :
  (forall a heartbeat, own_record_ok (LS.init a heartbeat)) /\
  (forall fuel now st e st' out,
     own_record_ok st ->
     keeps_own_record st e ->
     ends_with (LS.handle fuel now st e) st' out ->
     own_record_ok st').
Proof.
  split.
  - intros a hb. unfold own_record_ok, in_sync, endpoints. simpl. split; [|split].
    + exists []. destruct (eq_dec (KStr a) (KStr a)) as [_|X]; [|congruence].
      split; auto. intros e j. simpl. split; [discriminate | intros (? & ? & _ & [])].
    + constructor.
    + constructor.
  - intros fuel now st e st' out OK Keep End.
    destruct e as [port p | port endpoint cost | port | t]; simpl in *.
    + unfold LS.handle_packet in End. destruct (is_traceroute p) eqn:Tr.
      * destruct End as [E|E]; inversion E; subst. exact OK.
      * destruct Keep as [X|Keep]; [discriminate|].
        apply ends_with_try_except in End.
        destruct (routing_frame fuel st port p st' out Keep End) as (A & B & C).
        apply (own_record_ok_ext st st'); auto.
    + destruct Keep as [Np Ne]. unfold LS.handle_new_link in End. simpl in End.
      pose proof OK as (Sy & _). destruct Sy as (own & G & _).
      rewrite G in End.
      destruct (renumber_frame _ _ _ _ _ End) as (A & B & C).
      eapply own_record_ok_ext; [exact A | rewrite B; reflexivity | exact C |].
      apply link_up_keeps; auto.
    + unfold LS.handle_remove_link in End.
      destruct (d_get port (LS.neighbors st)) as [[n c]|] eqn:Gp.
      2:{ destruct End as [E|E]; inversion E; subst. exact OK. }
      simpl in End.
      pose proof OK as (Sy & _). destruct Sy as (own & G & Hs).
      rewrite G in End. simpl in End.
      assert (M : d_mem n own = true).
      { unfold d_mem.
        assert (X : d_get n own = Some (JInt c)).
        { apply Hs. exists port, c. split; auto. apply d_get_In. exact Gp. }
        rewrite X. reflexivity. }
      rewrite M in End.
      destruct (renumber_frame _ _ _ _ _ End) as (A & B & C).
      eapply own_record_ok_ext; [exact A | rewrite B; reflexivity | exact C |].
      apply (link_down_keeps st port n c own); auto.
    + unfold LS.handle_time in End.
      destruct (t - LS.last_sent st >=? LS.heartbeat_time st).
      * unfold LS.broadcast_link_state in End.
        destruct (d_get (KStr (LS.addr st)) (LS.seq_nums st)).
        2:{ destruct End as [E|E]; inversion E; subst. exact OK. }
        destruct (d_get (KStr (LS.addr st)) (LS.ls_db st)).
        2:{ destruct End as [E|E]; inversion E; subst. exact OK. }
        destruct End as [E|E]; inversion E; subst.
        apply (own_record_ok_ext st); auto.
      * destruct End as [E|E]; inversion E; subst. exact OK.
Qed.

Lemma C9_witness :
  own_record_ok (LS.init "A" 10) /\
  own_record_ok (fst after_first_link_up).
Proof.
  split.
  - apply (proj1 C9_own_record_stays_in_sync).
  - apply (proj2 C9_own_record_stays_in_sync 10%nat 0 (LS.init "A" 10)
             (LS.LinkUp 1 "B" 1) (fst after_first_link_up)
             (snd after_first_link_up)).
    + apply (proj1 C9_own_record_stays_in_sync).
    + simpl. tauto.
    + left. vm_compute. reflexivity.
Defined.

(** C9 as stated fails: node A, in sync after its first link came up,
    accepts a record that names A itself as origin with a higher sequence
    number, and its own record no longer lists its neighbor B. *)
Lemma C9_counterexample :
  exists st,
    ls_run 10 0 (LS.init "A" 10) [LS.LinkUp 1 "B" 1] = Some st /\
    ~ sync_preserved 10 0 st (LS.PacketArrival 1 own_record_packet).
Proof.
  eexists. split; [vm_compute; reflexivity|].
  intros H.
  match type of H with
  | sync_preserved _ _ ?s _ => assert (Sy : in_sync s)
  end.
  { exists [("B"%string, JInt 1)]. split; [vm_compute; reflexivity|].
    intros e j. simpl. split.
    - destruct (eq_dec e "B"%string) as [->|]; [|discriminate].
      intros E. inversion E; subst. exists 1, 1. auto.
    - intros (port & c & -> & [E|[]]). inversion E; subst.
      destruct (eq_dec "B"%string "B"%string); congruence. }
  specialize (H Sy _ _ ltac:(vm_compute; reflexivity)).
  destruct H as (own & G & Hs). vm_compute in G. inversion G; subst own.
  destruct (Hs "B"%string (JInt 1)) as [_ X].
  assert (Y : d_get "B"%string [("Z"%string, JInt 1)] = Some (JInt 1)).
  { apply X. exists 1, 1. split; auto. simpl. auto. }
  vm_compute in Y. discriminate.
Qed.

(* ================================================================= *)
(** ** Further properties: data packets and dropped packets *)

Lemma relay_to_neighbor_spec nbrs p :
  (relay_to_neighbor nbrs p = [] /\ ~ In (dst_addr p) (map endpoint_of nbrs)) \/
  (exists before port cost after,
     nbrs = before ++ (port, (dst_addr p, cost)) :: after /\
     ~ In (dst_addr p) (map endpoint_of before) /\
     relay_to_neighbor nbrs p = [(port, p)]).
Proof.
  induction nbrs as [|[port [n c]] nbrs IH]; simpl.
  - left. tauto.
  - destruct (String.eqb_spec n (dst_addr p)) as [->|Hne].
    + right. exists [], port, c, nbrs. simpl. tauto.
    + destruct IH as [[E N]|(before & q & cost & after & E & N & R)].
      * left. split; auto. unfold endpoint_of at 1. simpl. tauto.
      * subst nbrs. right. exists ((port, (n, c)) :: before), q, cost, after.
        split; [reflexivity|]. split; [|exact R].
        simpl. unfold endpoint_of at 1. simpl. tauto.
Qed.

Lemma relay_spec ft nbrs p : relayed ft nbrs p (relay ft nbrs p).
Proof.
  unfold relayed, relay. destruct (d_get (dst_addr p) ft); auto.
  apply relay_to_neighbor_spec.
Qed.

(** X1: A data packet never changes the state of either engine, and at most one
    copy of it is sent, unchanged: on the port of the forwarding table when
    the destination is there, otherwise on the port of the first link whose
    neighbor is the destination, otherwise nowhere. *)
Theorem data_packet_is_relayed_once :
  forall (p : packet),
    is_traceroute p = true ->
    (forall S st port,
       exists out,
         DV.handle_packet S st port p = Done (st, out) /\
         relayed (DV.forwarding_table st) (DV.neighbors st) p out /\
         (List.length out <= 1)%nat) /\
    (forall fuel st port,
       exists out,
         LS.handle_packet fuel st port p = Done (st, out) /\
         relayed (LS.forwarding_table st) (LS.neighbors st) p out /\
         (List.length out <= 1)%nat).
Proof.
  intros p Tr.
  assert (L : forall ft nbrs, (List.length (relay ft nbrs p) <= 1)%nat).
  { intros ft nbrs. pose proof (relay_spec ft nbrs p) as R. unfold relayed in R.
    destruct (d_get (dst_addr p) ft).
    - rewrite R. simpl. lia.
    - destruct R as [[-> _]|(? & ? & ? & ? & _ & _ & ->)]; simpl; lia. }
  split.
  - intros S st port. eexists. unfold DV.handle_packet. rewrite Tr.
    split; [reflexivity|]. split; [apply relay_spec | apply L].
  - intros fuel st port. eexists. unfold LS.handle_packet. rewrite Tr.
    split; [reflexivity|]. split; [apply relay_spec | apply L].
Qed.

Lemma data_packet_is_relayed_once_witness :
  exists out,
    DV.handle_packet insertion_order dv_example 1
      (Packet TRACEROUTE "B" "C" Unparseable) = Done (dv_example, out) /\
    relayed (DV.forwarding_table dv_example) (DV.neighbors dv_example)
      (Packet TRACEROUTE "B" "C" Unparseable) out /\
    (List.length out <= 1)%nat.
Proof.
  apply (proj1 (data_packet_is_relayed_once
                  (Packet TRACEROUTE "B" "C" Unparseable) eq_refl)).
Defined.

(** X2: Routing packets that fail before anything is written are dropped
    without a trace: for the link-state engine content that does not parse,
    that lacks one of the keys [router], [seq], [links], or whose router or
    sequence is not hashable; for the distance-vector engine content that
    does not parse or a packet on a port without a link. *)
Theorem failed_decoding_is_a_no_op :
  forall (p : packet),
    is_traceroute p = false ->
    (forall fuel st port,
       content p = Unparseable \/
       (exists ls_data,
          content p = Doc ls_data /\
          (py_subscript ls_data "router" = None \/
           py_subscript ls_data "seq" = None \/
           py_subscript ls_data "links" = None \/
           (exists r, py_subscript ls_data "router" = Some r /\
                      py_hashable r = None) \/
           (exists s, py_subscript ls_data "seq" = Some s /\
                      py_hashable s = None))) ->
       LS.handle_packet fuel st port p = Done (st, [])) /\
    (forall S st port,
       content p = Unparseable \/ ~ In port (d_keys (DV.neighbors st)) ->
       DV.handle_packet S st port p = Done (st, [])).
Proof.
  intros p Tr. split.
  - intros fuel st port H. unfold LS.handle_packet, LS.handle_routing. rewrite Tr.
    destruct H as [->|(ls_data & -> & H)]; [reflexivity|].
    destruct (py_subscript ls_data "router") as [r|] eqn:Er; [|reflexivity].
    destruct (py_subscript ls_data "seq") as [s|] eqn:Es; [|reflexivity].
    destruct (py_subscript ls_data "links") as [l|] eqn:El; [|reflexivity].
    destruct H as [H|[H|[H|[(r' & E & H)|(s' & E & H)]]]]; try discriminate.
    + inversion E; subst r'. rewrite H. reflexivity.
    + inversion E; subst s'. rewrite H. destruct (py_hashable r); reflexivity.
  - intros S st port H. unfold DV.handle_packet, DV.handle_routing. rewrite Tr.
    destruct H as [->|N].
    + destruct (d_get port (DV.neighbors st)) as [[n c]|]; reflexivity.
    + apply d_get_None in N. rewrite N. reflexivity.
Qed.

Lemma failed_decoding_is_a_no_op_witness :
  LS.handle_packet 10 ls_example 1
    (Packet ROUTING "B" "A" (Doc (JObj [("router"%string, JStr "B")])))
    = Done (ls_example, []) /\
  DV.handle_packet insertion_order dv_example 7
    (Packet ROUTING "B" "A" (Doc (JObj []))) = Done (dv_example, []).
Proof.
  split.
  - apply (proj1 (failed_decoding_is_a_no_op
             (Packet ROUTING "B" "A" (Doc (JObj [("router"%string, JStr "B")])))
             eq_refl)).
    right. eexists. split; [reflexivity|]. right. left. reflexivity.
  - apply (proj2 (failed_decoding_is_a_no_op
             (Packet ROUTING "B" "A" (Doc (JObj []))) eq_refl)).
    right. simpl. intuition lia.
Defined.

(* ================================================================= *)
(** ** Further properties: invariants of the distance-vector engine *)

(** Whatever holds of every link and of every relayed cost below 16 holds
    of the best route found. *)
Lemma best_route_ind (P : Z -> Z -> Prop) st dest :
  (forall port n c, In (port, (n, c)) (DV.neighbors st) -> P c port) ->
  (forall port n c t, In (port, (n, c)) (DV.neighbors st) -> t < 16 -> P t port) ->
  forall bc bp, DV.best_route st dest = Some (Some (bc, bp)) -> P bc bp.
Proof.
  intros Hd Hv. unfold DV.best_route.
  set (Q := fun b : DV.best =>
              match b with Some (c, p) => P c p | None => True end).
  assert (D : forall nbrs b,
            (forall e, In e nbrs -> In e (DV.neighbors st)) ->
            Q b -> Q (DV.direct_candidates dest nbrs b)).
  { unfold DV.direct_candidates.
    induction nbrs as [|[port [n c]] nbrs IH]; simpl; intros b Sub Qb; auto.
    apply IH; [intros; apply Sub; auto|].
    destruct (String.eqb n dest && DV.below c b); auto.
    simpl. apply (Hd port n c). apply Sub. left. reflexivity. }
  assert (V : forall nbrs b b',
            (forall e, In e nbrs -> In e (DV.neighbors st)) ->
            Q b -> DV.via_candidates st dest nbrs b = Some b' -> Q b').
  { induction nbrs as [|[port [n lc]] nbrs IH]; simpl; intros b b' Sub Qb E.
    - inversion E; subst; auto.
    - destruct (d_get n (DV.neighbor_dvs st)) as [vector|].
      2:{ eapply IH; eauto. }
      destruct (py_contains vector dest) as [[]|]; try discriminate.
      2:{ eapply IH; eauto. }
      destruct (py_subscript vector dest) as [nc|]; try discriminate.
      destruct (py_num nc) as [k|]; try discriminate.
      destruct (k >=? 16).
      { eapply IH; eauto. }
      destruct (DV.below (lc + k) b && (lc + k <? 16)) eqn:B.
      + eapply (IH (Some (lc + k, port))); eauto. simpl.
        apply andb_true_iff in B. destruct B as [_ B]. apply Z.ltb_lt in B.
        apply (Hv port n lc); auto.
      + eapply IH; eauto. }
  intros bc bp E.
  apply (V (DV.neighbors st) _ (Some (bc, bp))) in E; auto.
  apply D; simpl; auto.
Qed.

Lemma best_route_port st dest bc bp :
  DV.best_route st dest = Some (Some (bc, bp)) ->
  In bp (d_keys (DV.neighbors st)).
Proof.
  apply (best_route_ind (fun _ p => In p (d_keys (DV.neighbors st)))).
  - intros port n c I. unfold d_keys. apply (in_map fst) in I. exact I.
  - intros port n c t I _. unfold d_keys. apply (in_map fst) in I. exact I.
Qed.

(** How one round of the loop over the destinations leaves the state. *)
Lemma visit_outcome st updated dest st' :
  (exists updated', DV.visit st updated dest = Done (st', updated')) \/
  DV.visit st updated dest = Raised st' ->
  st' = st \/
  (dest <> DV.addr st /\
   exists bc bp, DV.best_route st dest = Some (Some (bc, bp)) /\
                 st' = install st dest bc bp) \/
  (dest <> DV.addr st /\ st' = DV.evict st dest).
Proof.
  unfold DV.visit.
  destruct (String.eqb_spec dest (DV.addr st)) as [E|Hne].
  { intros [(u' & X)|X]; inversion X; auto. }
  destruct (DV.best_route st dest) as [[[bc bp]|]|] eqn:B.
  - destruct (match d_get dest (DV.dv st) with
              | Some (cost, _) => cost >? bc
              | None => true
              end).
    + intros [(u' & X)|X]; inversion X. right. left. split; auto.
      exists bc, bp. split; auto.
    + intros [(u' & X)|X]; inversion X; auto.
  - destruct (d_mem dest (DV.dv st)).
    + intros [(u' & X)|X]; inversion X. right. right. split; auto.
    + intros [(u' & X)|X]; inversion X; auto.
  - intros [(u' & X)|X]; inversion X; auto.
Qed.

Section Preservation.
Variable I : DV.state -> Prop.
Hypothesis I_install : forall st dest bc bp,
  I st -> dest <> DV.addr st ->
  DV.best_route st dest = Some (Some (bc, bp)) -> I (install st dest bc bp).
Hypothesis I_evict : forall st dest,
  I st -> dest <> DV.addr st -> I (DV.evict st dest).
Hypothesis I_vectors : forall st v, I st -> I (DV.with_neighbor_dvs st v).
Hypothesis I_self : forall st,
  I st -> I (DV.with_dv st (d_set (DV.addr st) (0, None) (DV.dv st))).
Hypothesis I_clock : forall st t, I st -> I (DV.with_last_sent st t).

Lemma visit_all_preserves dests :
  forall st updated st',
    I st ->
    (exists updated', DV.visit_all st updated dests = Done (st', updated')) \/
    DV.visit_all st updated dests = Raised st' ->
    I st'.
Proof.
  induction dests as [|dest dests IH]; simpl; intros st updated st' Ist H.
  - destruct H as [(u' & X)|X]; inversion X; subst; auto.
  - destruct (DV.visit st updated dest) as [[st1 u1]|st1|] eqn:V.
    + apply (IH st1 u1); auto.
      destruct (visit_outcome st updated dest st1 (or_introl (ex_intro _ u1 V)))
        as [->|[(Hne & bc & bp & B & ->)|(Hne & ->)]]; eauto.
    + destruct H as [(u' & X)|X]; inversion X; subst.
      destruct (visit_outcome st updated dest st' (or_intror V))
        as [->|[(Hne & bc & bp & B & ->)|(Hne & ->)]]; eauto.
    + destruct H as [(u' & X)|X]; discriminate.
Qed.

Lemma update_preserves S st st' :
  I st ->
  (exists changed, DV.update_distance_vector S st = Done (st', changed)) \/
  DV.update_distance_vector S st = Raised st' ->
  I st'.
Proof.
  intros Ist. unfold DV.update_distance_vector.
  destruct (DV.all_destinations st) as [ds|].
  - apply visit_all_preserves; auto.
  - intros [(c & X)|X]; inversion X; subst; auto.
Qed.

(** The common tail of the handlers: recompute, then broadcast. *)
Lemma recompute_and_broadcast_preserves S st st1 changed :
  I st -> DV.update_distance_vector S st = Done (st1, changed) ->
  I (fst (DV.broadcast_dv st1)).
Proof.
  intros Ist E. unfold DV.broadcast_dv. simpl. apply I_self.
  apply (update_preserves S st st1); eauto.
Qed.

Lemma handle_packet_preserves S st port p st' out :
  I st -> dv_ends (DV.handle_packet S st port p) st' out -> I st'.
Proof.
  intros Ist. unfold DV.handle_packet, dv_ends.
  destruct (is_traceroute p).
  { intros [X|X]; inversion X; subst; auto. }
  unfold DV.handle_routing.
  destruct (d_get port (DV.neighbors st)) as [[n c]|].
  2:{ intros [X|X]; inversion X; subst; auto. }
  destruct (content p) as [|received].
  { intros [X|X]; inversion X; subst; auto. }
  destruct (DV.dv_changed st n received) as [[]|].
  - set (stored := DV.with_neighbor_dvs st _).
    assert (Is : I stored) by (apply I_vectors; auto).
    destruct (DV.update_distance_vector S stored) as [[st1 ch]|st1|] eqn:U.
    + assert (I1 : I st1) by (apply (update_preserves S stored st1); eauto).
      destruct ch; simpl.
      * intros [X|X]; inversion X; subst. apply I_self. auto.
      * intros [X|X]; inversion X; subst; auto.
    + simpl. intros [X|X]; inversion X; subst.
      apply (update_preserves S stored st'); auto.
    + simpl. intros [X|X]; discriminate.
  - simpl. intros [X|X]; inversion X; subst. apply I_vectors; auto.
  - simpl. intros [X|X]; inversion X; subst; auto.
Qed.

Lemma handle_time_preserves S st t st' out :
  I st -> dv_ends (DV.handle_time S st t) st' out -> I st'.
Proof.
  intros Ist. unfold DV.handle_time, dv_ends.
  destruct (t - DV.last_sent st >=? DV.heartbeat_time st).
  2:{ intros [X|X]; inversion X; subst; auto. }
  destruct (DV.update_distance_vector S st) as [[st1 ch]|st1|] eqn:U.
  - assert (I1 : I st1) by (apply (update_preserves S st st1); eauto).
    unfold DV.broadcast_dv. intros [X|X]; inversion X; subst.
    apply I_clock. apply I_self. auto.
  - intros [X|X]; inversion X; subst. apply (update_preserves S st st'); auto.
  - intros [X|X]; discriminate.
Qed.

(** The two link handlers after their first writes. *)
Lemma link_tail_preserves S st st' out :
  I st ->
  dv_ends
    (match DV.update_distance_vector S st with
     | Done (st1, _) => Done (DV.broadcast_dv st1)
     | Raised st1 => Raised (st1, [])
     | Diverged => Diverged
     end) st' out ->
  I st'.
Proof.
  intros Ist. unfold dv_ends.
  destruct (DV.update_distance_vector S st) as [[st1 ch]|st1|] eqn:U.
  - unfold DV.broadcast_dv. intros [X|X]; inversion X; subst.
    apply I_self. apply (update_preserves S st st1); eauto.
  - intros [X|X]; inversion X; subst. apply (update_preserves S st st'); auto.
  - intros [X|X]; discriminate.
Qed.

Lemma new_link_tail_preserves S st port st' out :
  I st ->
  dv_ends
    (match DV.update_distance_vector S st with
     | Done (st1, _) =>
         let '(st2, sent) := DV.broadcast_dv st1 in
         if d_mem port (DV.neighbors st2)
         then Done (st2, sent ++ DV.send_dv_to_neighbor st2 port)
         else Done (st2, sent)
     | Raised st1 => Raised (st1, [])
     | Diverged => Diverged
     end) st' out ->
  I st'.
Proof.
  intros Ist. unfold dv_ends.
  destruct (DV.update_distance_vector S st) as [[st1 ch]|st1|] eqn:U.
  - unfold DV.broadcast_dv. simpl.
    assert (I2 : I (DV.with_dv st1 (d_set (DV.addr st1) (0, None) (DV.dv st1)))).
    { apply I_self. apply (update_preserves S st st1); eauto. }
    destruct (d_mem port (DV.neighbors st1)); intros [X|X]; inversion X; subst; auto.
  - intros [X|X]; inversion X; subst. apply (update_preserves S st st'); auto.
  - intros [X|X]; discriminate.
Qed.

Lemma evict_all_preserves dests :
  forall st,
    I st -> (forall d, In d dests -> d <> DV.addr st) ->
    I (fold_left DV.evict dests st).
Proof.
  induction dests as [|dest dests IH]; simpl; intros st Ist H; auto.
  apply IH.
  - apply I_evict; auto.
  - intros d Hd. unfold DV.evict.
    destruct (d_mem dest _); simpl; apply H; auto.
Qed.
End Preservation.

(* ----------------------------------------------------------------- *)
(** *** The forwarding table mirrors [dv] and names only live ports *)

Lemma tables_ok_install st dest bc bp :
  dv_tables_ok st -> dest <> DV.addr st ->
  In bp (d_keys (DV.neighbors st)) ->
  dv_tables_ok (install st dest bc bp).
Proof.
  intros (W & Self & A & B) Hne Ip. unfold dv_tables_ok, self_route, install in *.
  simpl. split; [apply d_wf_set; auto|]. split; [|split].
  - rewrite d_get_set_neq by congruence. exact Self.
  - intros d port. destruct (string_dec d dest) as [->|Hd].
    + rewrite !d_get_set_eq. split.
      * intros E. inversion E; subst. eauto.
      * intros (c & E). inversion E; subst. reflexivity.
    + rewrite !d_get_set_neq by congruence. apply A.
  - intros d c port. destruct (string_dec d dest) as [->|Hd].
    + rewrite d_get_set_eq. intros E. inversion E; subst. exact Ip.
    + rewrite d_get_set_neq by congruence. apply B.
Qed.

Lemma evict_get st dest d :
  d_get d (DV.dv (DV.evict st dest)) =
    (if eq_dec d dest then None else d_get d (DV.dv st)) /\
  d_get d (DV.forwarding_table (DV.evict st dest)) =
    (if eq_dec d dest then None else d_get d (DV.forwarding_table st)) /\
  DV.addr (DV.evict st dest) = DV.addr st /\
  DV.neighbors (DV.evict st dest) = DV.neighbors st.
Proof.
  unfold DV.evict. simpl. unfold d_mem.
  destruct (d_get dest (DV.forwarding_table st)) eqn:G; simpl;
    rewrite ?d_get_del; repeat split; auto.
  destruct (eq_dec d dest) as [->|]; auto.
Qed.

Lemma tables_ok_evict st dest :
  dv_tables_ok st -> dest <> DV.addr st -> dv_tables_ok (DV.evict st dest).
Proof.
  intros (W & Self & A & B) Hne. unfold dv_tables_ok, self_route in *.
  destruct (evict_get st dest (DV.addr st)) as (E1 & _ & Ea & En).
  split; [|split; [|split]].
  - unfold DV.evict. simpl. destruct (d_mem dest _); simpl; apply d_wf_del; auto.
  - rewrite Ea, E1. destruct (eq_dec (DV.addr st) dest); [congruence | exact Self].
  - intros d port. destruct (evict_get st dest d) as (-> & -> & _ & _).
    destruct (eq_dec d dest).
    + split; [discriminate | intros (c & X); discriminate].
    + apply A.
  - intros d c port. destruct (evict_get st dest d) as (-> & _ & _ & ->).
    destruct (eq_dec d dest); [discriminate | apply B].
Qed.

Lemma self_set_get st d :
  self_route st ->
  d_get d (d_set (DV.addr st) (0, None) (DV.dv st)) = d_get d (DV.dv st).
Proof.
  intros Self. rewrite d_get_set. destruct (eq_dec d (DV.addr st)) as [->|]; auto.
Qed.

Lemma tables_ok_self st :
  dv_tables_ok st ->
  dv_tables_ok (DV.with_dv st (d_set (DV.addr st) (0, None) (DV.dv st))).
Proof.
  intros (W & Self & A & B). unfold dv_tables_ok, self_route in *. simpl.
  split; [apply d_wf_set; auto|]. split; [apply d_get_set_eq|]. split.
  - intros d port. rewrite (self_set_get st d Self). apply A.
  - intros d c port. rewrite (self_set_get st d Self). apply B.
Qed.

Lemma tables_ok_update S st st' :
  dv_tables_ok st ->
  (exists changed, DV.update_distance_vector S st = Done (st', changed)) \/
  DV.update_distance_vector S st = Raised st' ->
  dv_tables_ok st'.
Proof.
  apply (update_preserves dv_tables_ok).
  - intros s dest bc bp Is Hne Bq. apply tables_ok_install; auto.
    eapply best_route_port; eauto.
  - apply tables_ok_evict.
Qed.

Ltac close_tables :=
  try solve
    [ assumption
    | apply tables_ok_evict
    | apply tables_ok_self
    | intros; assumption
    | intros; apply tables_ok_install; auto; eapply best_route_port; eauto ].

Lemma tables_ok_init a heartbeat : dv_tables_ok (DV.init a heartbeat).
Proof.
  revert a heartbeat.
  intros a hb. unfold dv_tables_ok, self_route. simpl. split; [|split; [|split]].
  + constructor; [simpl; tauto | constructor].
  + destruct (eq_dec a a); congruence.
  + intros d port. split; [discriminate|]. intros (c & X).
    destruct (eq_dec d a); discriminate.
  + intros d c port X. destruct (eq_dec d a); discriminate.
Qed.

Lemma tables_ok_step S st e st' out :
  dv_tables_ok st ->
  dv_event_ok st e ->
  dv_ends (DV.handle S st e) st' out ->
  dv_tables_ok st'.
Proof.
  revert S st e st' out.
  intros S st e st' out OK Ev End.
  assert (Tail : forall s s' o,
            dv_tables_ok s ->
            dv_ends
              (match DV.update_distance_vector S s with
               | Done (st1, _) => Done (DV.broadcast_dv st1)
               | Raised st1 => Raised (st1, [])
               | Diverged => Diverged
               end) s' o -> dv_tables_ok s').
  { intros s s' o Is. apply (link_tail_preserves dv_tables_ok); close_tables. }
  destruct e as [port p | port endpoint cost | port | t]; simpl in *.
  + revert End. apply (handle_packet_preserves dv_tables_ok); close_tables.
  + unfold DV.handle_new_link in End.
    set (st1 := DV.with_neighbors st (d_set port (endpoint, cost) (DV.neighbors st))) in *.
    assert (I1 : dv_tables_ok st1).
    { destruct OK as (W & Self & A & B). unfold dv_tables_ok, self_route in *.
      simpl. repeat split; auto; try apply A.
      intros d c q G. apply d_keys_set. right. eapply B; eauto. }
    assert (I2 : dv_tables_ok
              (if match d_get endpoint (DV.dv st1) with
                  | Some (c, _) => c >? cost
                  | None => true
                  end
               then install st1 endpoint cost port else st1)).
    { destruct (match d_get endpoint (DV.dv st1) with
                | Some (c, _) => c >? cost
                | None => true
                end) eqn:Ei; auto.
      apply tables_ok_install; auto.
      - intros Heq. subst st1. simpl in Heq, Ei.
        destruct OK as (_ & Self & _). unfold self_route in Self.
        rewrite Heq, Self in Ei. destruct Ev as [X|X]; [congruence|].
        apply Z.gtb_lt in Ei. lia.
      - simpl. apply d_keys_set. left. reflexivity. }
    revert End. apply (new_link_tail_preserves dv_tables_ok); close_tables.
  + unfold DV.handle_remove_link in End.
    destruct (d_get port (DV.neighbors st)) as [[n c]|] eqn:Gp.
    2:{ destruct End as [X|X]; inversion X; subst; auto. }
    set (st0 := if d_mem n (DV.neighbor_dvs (DV.with_neighbors st (d_del port (DV.neighbors st))))
                then _ else _) in *.
    assert (H0 : DV.addr st0 = DV.addr st /\ DV.dv st0 = DV.dv st /\
                 DV.forwarding_table st0 = DV.forwarding_table st /\
                 DV.neighbors st0 = d_del port (DV.neighbors st)).
    { subst st0. simpl. destruct (d_mem n (DV.neighbor_dvs st)); simpl; auto. }
    destruct H0 as (Ea & Edv & Eft & En).
    destruct OK as (W & Self & A & B).
    destruct (evict_all_spec (DV.routes_through port (DV.dv st0)) st0)
      as (SL & Evd & Fr).
    set (ev := fold_left DV.evict (DV.routes_through port (DV.dv st0)) st0) in *.
    assert (R : forall d, In d (DV.routes_through port (DV.dv st0)) <->
                          exists c0, d_get d (DV.dv st) = Some (c0, Some port)).
    { intros d. rewrite routes_through_In, Edv. split.
      - intros (c0 & I). exists c0. apply In_d_get; auto.
      - intros (c0 & G). exists c0. apply d_get_In; auto. }
    revert End. apply Tail.
    destruct SL as (Eae & _ & _ & Ene & _).
    unfold dv_tables_ok, self_route. split; [|split; [|split]].
    * subst ev. apply (evict_all_preserves (fun s => d_wf (DV.dv s))).
      { intros s dest Ws _. unfold DV.evict. simpl.
        destruct (d_mem dest _); simpl; apply d_wf_del; auto. }
      { rewrite Edv. exact W. }
      { intros d Hd ->. apply R in Hd. destruct Hd as (c0 & G).
        rewrite Ea in G. unfold self_route in Self. congruence. }
    * rewrite Eae, Ea.
      assert (N : ~ In (DV.addr st) (DV.routes_through port (DV.dv st0))).
      { intros Hd. apply R in Hd. destruct Hd as (c0 & G).
        unfold self_route in Self. congruence. }
      destruct (Fr _ N) as [-> _]. rewrite Edv. exact Self.
    * intros d q.
      destruct (In_dec string_dec d (DV.routes_through port (DV.dv st0))) as [Hd|N].
      { destruct (Evd d Hd) as [-> ->].
        split; [discriminate | intros (c0 & X); discriminate]. }
      { destruct (Fr d N) as [-> ->]. rewrite Edv, Eft. apply A. }
    * intros d c0 q G.
      destruct (In_dec string_dec d (DV.routes_through port (DV.dv st0))) as [Hd|N].
      { destruct (Evd d Hd) as [X _]. congruence. }
      { destruct (Fr d N) as [X _]. rewrite X, Edv in G.
        rewrite Ene, En. apply d_keys_del. split.
        - intros ->. apply N, R. eauto.
        - eapply B; eauto. }
  + revert End. apply (handle_time_preserves dv_tables_ok); close_tables.
Qed.

(** X3: The forwarding table of the distance-vector engine always mirrors
    [dv]: in the initial state and after every handler run, completed or
    raised, the engine's own route is [(0, None)], a destination is in the
    forwarding table with a port exactly when [dv] routes it through that
    port, and every such port is a port of the link table.  (A link to the
    engine's own address must not have a negative cost.) *)
Theorem dv_forwarding_table_mirrors_dv :
  (forall a heartbeat, dv_tables_ok (DV.init a heartbeat)) /\
  (forall S st e st' out,
     dv_tables_ok st ->
     dv_event_ok st e ->
     dv_ends (DV.handle S st e) st' out ->
     dv_tables_ok st').
Proof.
  split; [exact tables_ok_init | exact tables_ok_step].
Qed.

Lemma dv_example_tables_ok : dv_tables_ok dv_example.
Proof.
  unfold dv_tables_ok, self_route. split; [|split; [reflexivity|split]].
  - unfold d_wf; simpl. solve_nodup.
  - intros d port. simpl.
    repeat match goal with
           | |- context [eq_dec d ?b] => destruct (eq_dec d b) as [?|?]
           end;
      try congruence;
      (split; [intros X; inversion X; eauto | intros (c & X); inversion X; auto]).
  - intros d c port. simpl.
    repeat match goal with
           | |- context [eq_dec d ?b] => destruct (eq_dec d b) as [?|?]
           end;
      try congruence;
      intros X; inversion X; auto.
Qed.

Lemma dv_forwarding_table_mirrors_dv_witness :
  exists st' out,
    DV.handle insertion_order dv_example (DV.LinkDown 1) = Done (st', out) /\
    dv_tables_ok st'.
Proof.
  eexists. eexists. split; [vm_compute; reflexivity|].
  eapply (proj2 dv_forwarding_table_mirrors_dv insertion_order dv_example
            (DV.LinkDown 1)).
  - exact dv_example_tables_ok.
  - exact Logic.I.
  - left. vm_compute. reflexivity.
Defined.

(* ----------------------------------------------------------------- *)
(** *** Costs stay below the infinity threshold *)

Lemma bounded_install st dest bc bp :
  dv_costs_bounded st -> bc < 16 -> dv_costs_bounded (install st dest bc bp).
Proof.
  intros [A B] Hc. split; simpl; auto.
  intros d c p. rewrite d_get_set. destruct (eq_dec d dest).
  - intros X. inversion X; subst. exact Hc.
  - apply A.
Qed.

Lemma bounded_best st dest bc bp :
  dv_costs_bounded st ->
  DV.best_route st dest = Some (Some (bc, bp)) -> bc < 16.
Proof.
  intros [_ B]. apply (best_route_ind (fun c _ => c < 16)).
  - intros port n c I. eapply B; eauto.
  - intros port n c t _ Ht. exact Ht.
Qed.

Lemma bounded_evict st dest :
  dv_costs_bounded st -> dv_costs_bounded (DV.evict st dest).
Proof.
  intros [A B]. split.
  - intros d c p. destruct (evict_get st dest d) as (-> & _).
    destruct (eq_dec d dest); [discriminate | apply A].
  - destruct (evict_get st dest dest) as (_ & _ & _ & ->). exact B.
Qed.

Lemma bounded_self st :
  dv_costs_bounded st ->
  dv_costs_bounded (DV.with_dv st (d_set (DV.addr st) (0, None) (DV.dv st))).
Proof.
  intros [A B]. split; simpl; auto.
  intros d c p. rewrite d_get_set. destruct (eq_dec d (DV.addr st)).
  - intros X. inversion X. lia.
  - apply A.
Qed.

Lemma bounded_evict_all dests :
  forall st, dv_costs_bounded st -> dv_costs_bounded (fold_left DV.evict dests st).
Proof.
  induction dests as [|d ds IH]; simpl; auto.
  intros st Is. apply IH. apply bounded_evict. exact Is.
Qed.

Ltac close_bounded :=
  try solve
    [ assumption
    | intros; apply bounded_evict; assumption
    | apply bounded_self
    | intros; assumption
    | intros; apply bounded_install; auto; eapply bounded_best; eauto ].

Lemma bounded_init a heartbeat : dv_costs_bounded (DV.init a heartbeat).
Proof.
  revert a heartbeat.
  intros a hb. split; simpl.
  + intros d c p. destruct (eq_dec d a); intros X; inversion X. lia.
  + intros port n c [].
Qed.

Lemma bounded_step S st e st' out :
  dv_costs_bounded st ->
  dv_cost_ok e ->
  dv_ends (DV.handle S st e) st' out ->
  dv_costs_bounded st'.
Proof.
  revert S st e st' out.
  intros S st e st' out OK Ev End.
  destruct e as [port p | port endpoint cost | port | t]; simpl in *.
  + revert End. apply (handle_packet_preserves dv_costs_bounded); close_bounded.
  + unfold DV.handle_new_link in End.
    set (st1 := DV.with_neighbors st (d_set port (endpoint, cost) (DV.neighbors st))) in *.
    assert (I1 : dv_costs_bounded st1).
    { destruct OK as [A B]. split; simpl; auto.
      intros q n c I. apply d_set_In in I. destruct I as [X|I].
      - inversion X; subst. exact Ev.
      - eapply B; eauto. }
    assert (I2 : dv_costs_bounded
              (if match d_get endpoint (DV.dv st1) with
                  | Some (c, _) => c >? cost
                  | None => true
                  end
               then install st1 endpoint cost port else st1)).
    { destruct (match d_get endpoint (DV.dv st1) with
                | Some (c, _) => c >? cost
                | None => true
                end); auto.
      apply bounded_install; auto. }
    revert End. apply (new_link_tail_preserves dv_costs_bounded); close_bounded.
  + unfold DV.handle_remove_link in End.
    destruct (d_get port (DV.neighbors st)) as [[n c]|] eqn:Gp.
    2:{ destruct End as [X|X]; inversion X; subst; auto. }
    revert End. apply (link_tail_preserves dv_costs_bounded); close_bounded.
    apply bounded_evict_all. destruct OK as [A B].
    destruct (d_mem n _); split; simpl; auto;
      intros q m k I; apply d_del_In in I; destruct I as [_ I];
      eapply B; eauto.
  + revert End. apply (handle_time_preserves dv_costs_bounded); close_bounded.
Qed.

(** X4: No cost of the distance-vector engine ever reaches 16: in the initial
    state and after every handler run, completed or raised, every cost of
    [dv] and every cost of the link table is below 16, as long as the
    links that come up have a cost below 16. *)
Theorem dv_costs_stay_below_infinity :
  (forall a heartbeat, dv_costs_bounded (DV.init a heartbeat)) /\
  (forall S st e st' out,
     dv_costs_bounded st ->
     dv_cost_ok e ->
     dv_ends (DV.handle S st e) st' out ->
     dv_costs_bounded st').
Proof.
  split; [exact bounded_init | exact bounded_step].
Qed.

Lemma dv_costs_stay_below_infinity_witness :
  exists st' out,
    DV.handle insertion_order dv_example (DV.LinkUp 3 "E" 4) = Done (st', out) /\
    dv_costs_bounded st'.
Proof.
  eexists. eexists. split; [vm_compute; reflexivity|].
  eapply (proj2 dv_costs_stay_below_infinity insertion_order dv_example
            (DV.LinkUp 3 "E" 4)).
  - split; simpl.
    + intros d c p.
      repeat match goal with
             | |- context [eq_dec d ?b] => destruct (eq_dec d b) as [?|?]
             end; try congruence; intros X; inversion X; lia.
    + intros port n c [X|[X|[]]]; inversion X; lia.
  - simpl. lia.
  - left. vm_compute. reflexivity.
Defined.

(* ----------------------------------------------------------------- *)
(** *** What the distance-vector engine sends *)

Lemma send_dv_advertisement st port s :
  In s (DV.send_dv_to_neighbor st port) -> dv_advertisement st s.
Proof.
  unfold DV.send_dv_to_neighbor.
  destruct (d_get port (DV.neighbors st)) as [[n c]|] eqn:G; [|intros []].
  intros [<-|[]]. exists port, n, c. split; auto. apply d_get_In; auto.
Qed.

Lemma broadcast_dv_advertisement st s :
  In s (snd (DV.broadcast_dv st)) -> dv_advertisement (fst (DV.broadcast_dv st)) s.
Proof.
  unfold DV.broadcast_dv. simpl. rewrite in_flat_map.
  intros (port & _ & I). apply send_dv_advertisement in I. exact I.
Qed.

Lemma dv_routing_out S st e st' out :
  dv_routing_event e ->
  dv_ends (DV.handle S st e) st' out ->
  forall s, In s out -> dv_advertisement st' s.
Proof.
  intros Ev End s Is.
  destruct e as [port p | port endpoint cost | port | t]; simpl in *.
  - unfold DV.handle_packet in End. rewrite Ev in End.
    unfold DV.handle_routing in End.
    destruct (d_get port (DV.neighbors st)) as [[n c]|].
    2:{ destruct End as [X|X]; inversion X; subst; destruct Is. }
    destruct (content p) as [|received].
    { destruct End as [X|X]; inversion X; subst; destruct Is. }
    destruct (DV.dv_changed st n received) as [[]|].
    + destruct (DV.update_distance_vector S _) as [[st1 []]|st1|].
      * destruct End as [X|X]; simpl in X; [|discriminate].
        destruct (DV.broadcast_dv st1) as [st2 sent] eqn:B.
        inversion X; subst.
        change st' with (fst (st', out)). rewrite <- B.
        apply broadcast_dv_advertisement. rewrite B. exact Is.
      * destruct End as [X|X]; inversion X; subst; destruct Is.
      * destruct End as [X|X]; inversion X; subst; destruct Is.
      * destruct End as [X|X]; discriminate.
    + destruct End as [X|X]; inversion X; subst; destruct Is.
    + destruct End as [X|X]; inversion X; subst; destruct Is.
  - unfold DV.handle_new_link in End.
    destruct (DV.update_distance_vector S _) as [[st1 ch]|st1|].
    + destruct (DV.broadcast_dv st1) as [st2 sent] eqn:B.
      assert (Hs : forall x, In x sent -> dv_advertisement st2 x).
      { intros x Ix. change st2 with (fst (st2, sent)). rewrite <- B.
        apply broadcast_dv_advertisement. rewrite B. exact Ix. }
      destruct (d_mem port (DV.neighbors st2));
        destruct End as [X|X]; inversion X; subst; auto.
      apply in_app_or in Is. destruct Is as [Is|Is]; auto.
      eapply send_dv_advertisement; eauto.
    + destruct End as [X|X]; inversion X; subst; destruct Is.
    + destruct End as [X|X]; discriminate.
  - unfold DV.handle_remove_link in End.
    destruct (d_get port (DV.neighbors st)) as [[n c]|].
    2:{ destruct End as [X|X]; inversion X; subst; destruct Is. }
    destruct (DV.update_distance_vector S _) as [[st1 ch]|st1|].
    + destruct End as [X|X]; [|discriminate].
      destruct (DV.broadcast_dv st1) as [st2 sent] eqn:B.
      inversion X; subst.
      change st' with (fst (st', out)). rewrite <- B.
      apply broadcast_dv_advertisement. rewrite B. exact Is.
    + destruct End as [X|X]; inversion X; subst; destruct Is.
    + destruct End as [X|X]; discriminate.
  - unfold DV.handle_time in End.
    destruct (t - DV.last_sent st >=? DV.heartbeat_time st).
    2:{ destruct End as [X|X]; inversion X; subst; destruct Is. }
    destruct (DV.update_distance_vector S st) as [[st1 ch]|st1|].
    + destruct (DV.broadcast_dv st1) as [st2 sent] eqn:B.
      destruct End as [X|X]; inversion X; subst.
      assert (A : dv_advertisement st2 s).
      { change st2 with (fst (st2, out)). rewrite <- B.
        apply broadcast_dv_advertisement. rewrite B. exact Is. }
      exact A.
    + destruct End as [X|X]; inversion X; subst; destruct Is.
    + destruct End as [X|X]; discriminate.
Qed.

(** X5: The distance-vector engine never sends on a port without a link: with
    tables that agree, whatever a handler sends, a data packet or a vector,
    leaves on a port of the link table as the handler leaves it. *)
Theorem dv_sends_only_on_linked_ports :
  forall S st e st' out,
    dv_tables_ok st ->
    dv_ends (DV.handle S st e) st' out ->
    forall port p, In (port, p) out -> In port (d_keys (DV.neighbors st')).
Proof.
  intros S st e st' out OK End port p Is.
  assert (R : dv_routing_event e ->
              In port (d_keys (DV.neighbors st'))).
  { intros Ev.
    destruct (dv_routing_out S st e st' out Ev End _ Is) as (q & n & c & I & E).
    inversion E; subst. apply (in_map fst) in I. exact I. }
  destruct e as [q pk | q endpoint cost | q | t]; try (apply R; exact Logic.I).
  destruct (is_traceroute pk) eqn:T; [|apply R; exact T].
  simpl in End. unfold DV.handle_packet in End. rewrite T in End.
  destruct End as [X|X]; inversion X; subst.
  destruct OK as (_ & _ & A & B).
  pose proof (relay_spec (DV.forwarding_table st') (DV.neighbors st') pk) as Rl.
  unfold relayed in Rl.
  destruct (d_get (dst_addr pk) (DV.forwarding_table st')) as [fp|] eqn:G.
  - rewrite Rl in Is. destruct Is as [E|[]]. inversion E; subst.
    apply A in G. destruct G as (c & G). eapply B; eauto.
  - destruct Rl as [[E _]|(before & fp & cost & after & E & _ & Eo)].
    + rewrite E in Is. destruct Is.
    + rewrite Eo in Is. destruct Is as [X'|[]]. inversion X'; subst.
      rewrite E. unfold d_keys. rewrite map_app. apply in_or_app. right.
      left. reflexivity.
Qed.

Lemma dv_sends_only_on_linked_ports_witness :
  exists st' out,
    DV.handle insertion_order dv_example (DV.LinkDown 1) = Done (st', out) /\
    out <> [] /\
    forall port p, In (port, p) out -> In port (d_keys (DV.neighbors st')).
Proof.
  eexists. eexists. split; [vm_compute; reflexivity|]. split; [discriminate|].
  eapply (dv_sends_only_on_linked_ports insertion_order dv_example
            (DV.LinkDown 1)).
  - exact dv_example_tables_ok.
  - left. vm_compute. reflexivity.
Defined.

(** X6: No vector the distance-vector engine sends holds a cost above 16: with
    tables that agree and costs below 16, whatever a handler sends, a
    relayed data packet apart, is the engine's vector with poison reverse,
    addressed to the neighbor of a link and sent on its port, and every
    cost in it is at most 16. *)
Theorem dv_advertised_costs_are_at_most_16 :
  forall S st e st' out,
    dv_tables_ok st -> dv_costs_bounded st ->
    dv_event_ok st e -> dv_cost_ok e -> dv_routing_event e ->
    dv_ends (DV.handle S st e) st' out ->
    forall s, In s out ->
      exists port n c,
        In (port, (n, c)) (DV.neighbors st') /\
        s = (port, Packet ROUTING (DV.addr st') n
                     (DV.dumps_vector (DV.poisoned_vector st' port))) /\
        forall d k, d_get d (DV.poisoned_vector st' port) = Some k -> k <= 16.
Proof.
  intros S st e st' out OK Bd Ev Ec Er End s Is.
  destruct (dv_routing_out S st e st' out Er End s Is) as (port & n & c & I & E).
  exists port, n, c. split; auto. split; auto.
  pose proof (tables_ok_step S st e st' out OK Ev End) as (W & _).
  pose proof (bounded_step S st e st' out Bd Ec End) as (A & _).
  intros d k. rewrite poisoned_vector_get by assumption.
  destruct (d_get d (DV.dv st')) as [[c0 p0]|] eqn:G.
  - intros X. inversion X; subst. unfold reported. simpl.
    apply A in G. destruct p0 as [p0|]; [|lia].
    destruct (p0 =? port); lia.
  - destruct (eq_dec d (DV.addr st')); intros X; inversion X. lia.
Qed.

Lemma dv_advertised_costs_are_at_most_16_witness :
  exists st' out,
    DV.handle insertion_order dv_example (DV.LinkDown 1) = Done (st', out) /\
    out <> [] /\
    forall s, In s out ->
      exists port n c,
        In (port, (n, c)) (DV.neighbors st') /\
        s = (port, Packet ROUTING (DV.addr st') n
                     (DV.dumps_vector (DV.poisoned_vector st' port))) /\
        forall d k, d_get d (DV.poisoned_vector st' port) = Some k -> k <= 16.
Proof.
  eexists. eexists. split; [vm_compute; reflexivity|]. split; [discriminate|].
  eapply (dv_advertised_costs_are_at_most_16 insertion_order dv_example
            (DV.LinkDown 1)).
  - exact dv_example_tables_ok.
  - split; simpl.
    + intros d c p.
      repeat match goal with
             | |- context [eq_dec d ?b] => destruct (eq_dec d b) as [?|?]
             end; try congruence; intros X; inversion X; lia.
    + intros port n c [X|[X|[]]]; inversion X; lia.
  - exact Logic.I.
  - exact Logic.I.
  - exact Logic.I.
  - left. vm_compute. reflexivity.
Defined.

(* ----------------------------------------------------------------- *)
(** *** Recomputing twice, and in another order *)

Lemma recomputed_idem b x : recomputed b (recomputed b x) = recomputed b x.
Proof.
  destruct b as [[bc bp]|]; simpl; auto.
  destruct x as [[c p]|]; simpl.
  - destruct (c >? bc) eqn:C; simpl.
    + replace (bc >? bc) with false; auto. rewrite Z.gtb_ltb. symmetry. apply Z.ltb_irrefl.
    + rewrite C. reflexivity.
  - replace (bc >? bc) with false; auto. rewrite Z.gtb_ltb. symmetry. apply Z.ltb_irrefl.
Qed.

Lemma same_links_known st st' d :
  same_links st st' -> known_destination st' d -> known_destination st d.
Proof.
  intros (_ & _ & _ & En & Ev). unfold known_destination. rewrite En, Ev. auto.
Qed.

Lemma dv_example_vectors_ok : vectors_ok dv_example.
Proof.
  intros n j [E|[]]. inversion E; subst. eexists; split; [reflexivity|].
  intros d c [E'|[]]. inversion E'; subst. eexists; reflexivity.
Qed.

(** X7: Recomputing the distance vector a second time changes nothing: with
    stored vectors that are dictionaries of numbers,
    [update_distance_vector] returns, and run again on the state it leaves,
    in whatever order the set of destinations is iterated, it returns
    [False] and leaves every field as it is. *)
Theorem recomputation_is_idempotent :
  forall S S' st,
    vectors_ok st ->
    exists st1 changed,
      DV.update_distance_vector S st = Done (st1, changed) /\
      DV.update_distance_vector S' st1 = Done (st1, false).
Proof.
  intros S S' st OK.
  destruct (update_distance_vector_spec S st OK)
    as (st1 & ch & E1 & SL & Vis & Fr & _).
  exists st1, ch. split; auto.
  assert (OK1 : vectors_ok st1) by (eapply same_links_vectors_ok; eauto).
  destruct (update_distance_vector_spec S' st1 OK1)
    as (st2 & ch2 & E2 & SL2 & Vis2 & Fr2 & [[-> ->]|[_ (d & Hd)]]); auto.
  exfalso. apply Hd.
  destruct SL as (Ea & _ & _ & En & Ev).
  destruct (string_dec d (DV.addr st)) as [->|Hne].
  { apply Fr2. right. congruence. }
  destruct (known_destination_dec st d OK) as [K|NK].
  - assert (K1 : known_destination st1 d).
    { unfold known_destination. rewrite En, Ev. exact K. }
    destruct (Vis d K Hne) as (b & B & _ & G).
    destruct (Vis2 d K1) as (b2 & B2 & _ & G2); [congruence|].
    rewrite (best_route_frame st st1 d En Ev) in B2.
    assert (b2 = b) by congruence. subst b2.
    rewrite G2, G. apply recomputed_idem.
  - apply Fr2. left. intros K1. apply NK.
    unfold known_destination in *. rewrite En, Ev in K1. exact K1.
Qed.

Lemma recomputation_is_idempotent_witness :
  exists st1 changed,
    DV.update_distance_vector insertion_order dv_example = Done (st1, changed) /\
    DV.update_distance_vector insertion_order st1 = Done (st1, false).
Proof.
  apply (recomputation_is_idempotent insertion_order insertion_order dv_example).
  exact dv_example_vectors_ok.
Defined.

(** X8: The routes recomputed do not depend on the order in which Python
    iterates the set of destinations: with stored vectors that are
    dictionaries of numbers, two runs of [update_distance_vector] from the
    same state under two iteration orders return the same flag and leave
    the same entry of [dv] for every destination (the order of the entries
    in [dv] may differ). *)
Theorem recomputed_routes_ignore_set_order :
  forall S S' st,
    vectors_ok st ->
    exists st1 st2 changed,
      DV.update_distance_vector S st = Done (st1, changed) /\
      DV.update_distance_vector S' st = Done (st2, changed) /\
      forall d, d_get d (DV.dv st1) = d_get d (DV.dv st2).
Proof.
  intros S S' st OK.
  destruct (update_distance_vector_spec S st OK)
    as (st1 & ch1 & E1 & _ & Vis1 & Fr1 & Ch1).
  destruct (update_distance_vector_spec S' st OK)
    as (st2 & ch2 & E2 & _ & Vis2 & Fr2 & Ch2).
  assert (Same : forall d, d_get d (DV.dv st1) = d_get d (DV.dv st2)).
  { intros d. destruct (string_dec d (DV.addr st)) as [->|Hne].
    { destruct (Fr1 (DV.addr st)) as [-> _]; auto.
      destruct (Fr2 (DV.addr st)) as [-> _]; auto. }
    destruct (known_destination_dec st d OK) as [K|NK].
    - destruct (Vis1 d K Hne) as (b & B & _ & ->).
      destruct (Vis2 d K Hne) as (b' & B' & _ & ->). congruence.
    - destruct (Fr1 d) as [-> _]; auto. destruct (Fr2 d) as [-> _]; auto. }
  exists st1, st2, ch1. split; auto. split; auto.
  rewrite E2. f_equal. f_equal.
  destruct Ch1 as [[-> E1']|[-> (d & Hd)]], Ch2 as [[-> E2']|[-> (d' & Hd')]];
    auto; exfalso.
  - apply Hd'. rewrite <- Same, E1'. reflexivity.
  - apply Hd. rewrite Same, E2'. reflexivity.
Qed.

Lemma recomputed_routes_ignore_set_order_witness :
  exists st1 st2 changed,
    DV.update_distance_vector insertion_order dv_example = Done (st1, changed) /\
    DV.update_distance_vector reverse_order dv_example = Done (st2, changed) /\
    forall d, d_get d (DV.dv st1) = d_get d (DV.dv st2).
Proof.
  apply (recomputed_routes_ignore_set_order insertion_order reverse_order
           dv_example).
  exact dv_example_vectors_ok.
Defined.

(* ----------------------------------------------------------------- *)
(** *** A vector received twice *)

(** However [update_distance_vector] ends, the link table, the stored
    vectors, the address and the clock fields are as before. *)
Lemma update_links_frame S st st' :
  (exists changed, DV.update_distance_vector S st = Done (st', changed)) \/
  DV.update_distance_vector S st = Raised st' ->
  same_links st st'.
Proof.
  apply (update_preserves (fun s => same_links st s)).
  - intros s dest bc bp SL _ _. exact SL.
  - intros s dest SL _. unfold DV.evict.
    destruct (d_mem dest _); exact SL.
  - apply same_links_refl.
Qed.

Lemma d_set_same {V : Type} (k : string) (v : V) (d : dict string V) :
  d_get k d = Some v -> d_set k v d = d.
Proof.
  induction d as [|[k0 v0] d IH]; simpl; [discriminate|].
  destruct (eq_dec k k0) as [->|Hne]; intros E.
  - inversion E; subst. destruct (eq_dec k0 k0); congruence.
  - destruct (eq_dec k k0); [congruence|]. rewrite IH; auto.
Qed.

Lemma py_eq_number c n : py_num c = Some n -> py_eq c c = true.
Proof.
  destruct c; simpl; try discriminate; intros _.
  - destruct b; reflexivity.
  - apply Z.eqb_refl.
Qed.

Lemma differs_stored kvs items :
  (forall d c, In (d, c) items ->
     d_get d kvs = Some c /\ exists n, py_num c = Some n) ->
  DV.differs (JObj kvs) items = Some false.
Proof.
  induction items as [|[d c] items IH]; simpl; intros H; auto.
  destruct (H d c (or_introl eq_refl)) as (G & n & N).
  unfold d_mem. rewrite G. rewrite (py_eq_number c n N). simpl.
  apply IH. intros d' c' I. apply H. right. exact I.
Qed.

(** Against a stored copy of itself a vector never counts as changed. *)
Lemma dv_changed_stored st n received :
  (forall kvs, received = JObj kvs -> d_wf kvs /\ vector_ok received) ->
  d_get n (DV.neighbor_dvs st) = Some received ->
  DV.dv_changed st n received = None \/
  DV.dv_changed st n received = Some false.
Proof.
  intros H G. unfold DV.dv_changed. rewrite G.
  destruct received as [| | | | |kvs]; simpl; auto.
  right. destruct (H kvs eq_refl) as (W & kvs' & E & Num).
  inversion E; subst kvs'. apply differs_stored.
  intros d c I. split; [apply In_d_get; auto | eapply Num; eauto].
Qed.

Lemma with_neighbor_dvs_same st n received :
  d_get n (DV.neighbor_dvs st) = Some received ->
  DV.with_neighbor_dvs st (d_set n received (DV.neighbor_dvs st)) = st.
Proof.
  intros G. rewrite (d_set_same n received _ G). destruct st; reflexivity.
Qed.

(** Once [received] is the stored vector of the neighbor on [port], the
    routing branch does nothing. *)
Lemma handle_stored_vector S st port p n c received :
  is_traceroute p = false ->
  content p = Doc received ->
  (forall kvs, received = JObj kvs -> d_wf kvs /\ vector_ok received) ->
  d_get port (DV.neighbors st) = Some (n, c) ->
  d_get n (DV.neighbor_dvs st) = Some received ->
  DV.handle_packet S st port p = Done (st, []).
Proof.
  intros T C H Gp Gn. unfold DV.handle_packet, DV.handle_routing.
  rewrite T, Gp, C.
  destruct (dv_changed_stored st n received H Gn) as [-> | ->]; simpl; auto.
  rewrite with_neighbor_dvs_same by assumption. reflexivity.
Qed.

(** X9: A routing packet delivered a second time on the same port is ignored:
    when its content, if it is a dictionary, has no repeated key and maps
    destinations to numbers, the second delivery leaves the state the
    first one left and sends nothing, in whatever order sets are
    iterated. *)
Theorem repeated_vector_is_ignored :
  forall S S' st port p st' out,
    is_traceroute p = false ->
    (forall kvs, content p = Doc (JObj kvs) ->
       d_wf kvs /\ vector_ok (JObj kvs)) ->
    DV.handle_packet S st port p = Done (st', out) ->
    DV.handle_packet S' st' port p = Done (st', []).
Proof.
  intros S S' st port p st' out T H E.
  unfold DV.handle_packet in E. rewrite T in E. unfold DV.handle_routing in E.
  destruct (d_get port (DV.neighbors st)) as [[n c]|] eqn:Gp.
  2:{ inversion E; subst. unfold DV.handle_packet, DV.handle_routing.
      rewrite T, Gp. reflexivity. }
  destruct (content p) as [|received] eqn:C.
  { inversion E; subst. unfold DV.handle_packet, DV.handle_routing.
    rewrite T, Gp, C. reflexivity. }
  assert (H' : forall kvs, received = JObj kvs -> d_wf kvs /\ vector_ok received).
  { intros kvs ->. apply H. reflexivity. }
  destruct (DV.dv_changed st n received) as [changed|] eqn:Ch.
  2:{ inversion E; subst. unfold DV.handle_packet, DV.handle_routing.
      rewrite T, Gp, C, Ch. reflexivity. }
  set (stored := DV.with_neighbor_dvs st
                   (d_set n received (DV.neighbor_dvs st))) in *.
  assert (Gs : d_get n (DV.neighbor_dvs stored) = Some received)
    by apply d_get_set_eq.
  assert (Fin : same_links stored st' ->
                DV.handle_packet S' st' port p = Done (st', [])).
  { intros (_ & _ & _ & En & Ev).
    apply (handle_stored_vector S' st' port p n c received); auto.
    - rewrite En. exact Gp.
    - rewrite Ev. exact Gs. }
  destruct changed.
  - destruct (DV.update_distance_vector S stored) as [[st1 ch]|st1|] eqn:U.
    + assert (SL : same_links stored st1)
        by (apply (update_links_frame S); eauto).
      destruct ch; simpl in E; inversion E; subst; apply Fin; auto.
    + simpl in E. inversion E; subst. apply Fin.
      apply (update_links_frame S); auto.
    + discriminate.
  - simpl in E. inversion E; subst. apply Fin. apply same_links_refl.
Qed.

Lemma repeated_vector_is_ignored_witness :
  exists st' out,
    DV.handle_packet insertion_order dv_example 2
      (vector_packet "D" "A" [("E"%string, 1)]) = Done (st', out) /\
    out <> [] /\
    DV.handle_packet reverse_order st' 2
      (vector_packet "D" "A" [("E"%string, 1)]) = Done (st', []).
Proof.
  eexists. eexists. split; [vm_compute; reflexivity|]. split; [discriminate|].
  eapply (repeated_vector_is_ignored insertion_order reverse_order dv_example 2
            (vector_packet "D" "A" [("E"%string, 1)])).
  - reflexivity.
  - intros kvs E. inversion E; subst. split.
    + unfold d_wf; simpl. solve_nodup.
    + eexists; split; [reflexivity|].
      intros d c [X|[]]. inversion X; subst. eexists; reflexivity.
  - vm_compute. reflexivity.
Defined.

(* ----------------------------------------------------------------- *)
(** *** A link coming up *)

(** X10: A link to a neighbor other than the engine itself is routed and
    announced: with stored vectors that are dictionaries of numbers and a
    link table without repeated port, [handle_new_link] returns; the link
    table holds the new link; [dv] holds a route to the endpoint at a cost
    no greater than the cost of the link; and the vector is sent to every
    neighbor of the link table, in its order, and then once more on the new
    port. *)
Theorem new_link_is_routed_and_announced :
  forall S st port endpoint cost,
    vectors_ok st ->
    d_wf (DV.neighbors st) ->
    endpoint <> DV.addr st ->
    exists st' out,
      DV.handle_new_link S st port endpoint cost = Done (st', out) /\
      DV.neighbors st' = d_set port (endpoint, cost) (DV.neighbors st) /\
      (exists c p, d_get endpoint (DV.dv st') = Some (c, p) /\ c <= cost) /\
      out = map (vector_for st') (DV.neighbors st') ++
            [vector_for st' (port, (endpoint, cost))].
Proof.
  intros S st port endpoint cost OK W Hne.
  set (st1 := DV.with_neighbors st (d_set port (endpoint, cost) (DV.neighbors st))).
  set (st2 := if match d_get endpoint (DV.dv st1) with
                 | Some (c, _) => c >? cost
                 | None => true
                 end
              then install st1 endpoint cost port else st1).
  assert (F2 : DV.addr st2 = DV.addr st /\
               DV.neighbors st2 = DV.neighbors st1 /\
               DV.neighbor_dvs st2 = DV.neighbor_dvs st).
  { subst st2. destruct (match d_get endpoint (DV.dv st1) with
                         | Some (c, _) => c >? cost
                         | None => true
                         end); simpl; auto. }
  destruct F2 as (Ea2 & En2 & Ev2).
  assert (G2 : exists c2 p2, d_get endpoint (DV.dv st2) = Some (c2, p2) /\
                             c2 <= cost).
  { subst st2. destruct (d_get endpoint (DV.dv st1)) as [[c p]|] eqn:G.
    - destruct (c >? cost) eqn:C.
      + exists cost, (Some port). simpl. rewrite d_get_set_eq. split; [auto|lia].
      + exists c, p. split; auto. rewrite Z.gtb_ltb in C. apply Z.ltb_ge in C. exact C.
    - exists cost, (Some port). simpl. rewrite d_get_set_eq. split; [auto|lia]. }
  destruct G2 as (c2 & p2 & G2 & Hc2).
  assert (OK2 : vectors_ok st2).
  { intros n j I. rewrite Ev2 in I. eapply OK; eauto. }
  assert (Il : In (port, (endpoint, cost)) (DV.neighbors st2)).
  { rewrite En2. apply d_get_In. simpl. apply d_get_set_eq. }
  assert (Form : DV.handle_new_link S st port endpoint cost =
                 match DV.update_distance_vector S st2 with
                 | Done (st3, _) =>
                     let '(st4, sent) := DV.broadcast_dv st3 in
                     if d_mem port (DV.neighbors st4)
                     then Done (st4, sent ++ DV.send_dv_to_neighbor st4 port)
                     else Done (st4, sent)
                 | Raised st3 => Raised (st3, [])
                 | Diverged => Diverged
                 end) by reflexivity.
  rewrite Form. clear Form.
  destruct (update_distance_vector_spec S st2 OK2)
    as (st3 & ch & E3 & (Ea3 & _ & _ & En3 & _) & Vis & _ & _).
  rewrite E3.
  pose proof (broadcast_dv_sends st3) as Bs.
  destruct (DV.broadcast_dv st3) as [st4 sent] eqn:B.
  assert (F4 : DV.neighbors st4 = DV.neighbors st3 /\
               DV.addr st4 = DV.addr st3 /\
               DV.dv st4 = d_set (DV.addr st3) (0, None) (DV.dv st3)).
  { unfold DV.broadcast_dv in B. inversion B; subst. simpl. auto. }
  destruct F4 as (En4 & Ea4 & Edv4).
  assert (Gp : d_get port (DV.neighbors st4) = Some (endpoint, cost)).
  { rewrite En4, En3, En2. simpl. apply d_get_set_eq. }
  unfold d_mem. rewrite Gp.
  exists st4, (sent ++ DV.send_dv_to_neighbor st4 port).
  split; auto. split; [rewrite En4, En3, En2; reflexivity|]. split.
  - rewrite Edv4, d_get_set_neq by congruence.
    destruct (Vis endpoint) as (b & Bq & L & G); [|congruence|].
    { left. exists port, cost. exact Il. }
    rewrite G, G2. destruct b as [[bc bp]|]; simpl.
    + destruct (c2 >? bc) eqn:C.
      * exists bc, (Some bp). split; auto. apply Z.gtb_lt in C. lia.
      * exists c2, p2. split; auto.
    + exfalso. simpl in L.
      assert (I : In cost (considered st2 endpoint)).
      { unfold considered. apply in_or_app. left. unfold direct_costs.
        apply in_flat_map. exists (port, (endpoint, cost)). split; auto.
        simpl. rewrite String.eqb_refl. left. reflexivity. }
      rewrite L in I. destruct I.
  - simpl in Bs. rewrite Bs.
    2:{ rewrite En3, En2. simpl. apply d_wf_set. exact W. }
    rewrite En4. f_equal. unfold DV.send_dv_to_neighbor. rewrite Gp. reflexivity.
Qed.

Lemma new_link_is_routed_and_announced_witness :
  exists st' out,
    DV.handle_new_link insertion_order dv_example 3 "C" 1 = Done (st', out) /\
    DV.neighbors st' = d_set 3 ("C"%string, 1) (DV.neighbors dv_example) /\
    (exists c p, d_get "C"%string (DV.dv st') = Some (c, p) /\ c <= 1) /\
    out = map (vector_for st') (DV.neighbors st') ++
          [vector_for st' (3, ("C"%string, 1))].
Proof.
  apply (new_link_is_routed_and_announced insertion_order dv_example 3 "C" 1).
  - exact dv_example_vectors_ok.
  - unfold d_wf; simpl. solve_nodup.
  - discriminate.
Defined.

(* ----------------------------------------------------------------- *)
(** *** The heartbeat *)

Lemma dv_heartbeat S st t st' out :
  DV.handle_time S st t = Done (st', out) ->
  t - DV.last_sent st >= DV.heartbeat_time st ->
  DV.last_sent st' = t /\ DV.heartbeat_time st' = DV.heartbeat_time st /\
  forall S' t', t' - t < DV.heartbeat_time st ->
    DV.handle_time S' st' t' = Done (st', []).
Proof.
  unfold DV.handle_time. intros E Due.
  replace (t - DV.last_sent st >=? DV.heartbeat_time st) with true in E
    by (symmetry; apply Z.geb_le; lia).
  destruct (DV.update_distance_vector S st) as [[st1 ch]|st1|] eqn:U;
    try discriminate.
  assert (SL : same_links st st1) by (apply (update_links_frame S); eauto).
  destruct SL as (_ & Eh & _).
  unfold DV.broadcast_dv in E. inversion E; subst. simpl.
  split; auto. split; auto. intros S' t' Ht.
  replace (t' - t >=? DV.heartbeat_time st1) with false; auto.
  symmetry. rewrite Z.geb_leb. apply Z.leb_gt. lia.
Qed.

(* ----------------------------------------------------------------- *)
(** *** Poison reverse, from the sender to the receiver *)

Lemma poisoned_entry a q dest cost :
  d_wf (DV.dv a) ->
  d_get dest (DV.dv a) = Some (cost, Some q) ->
  d_get dest (map (fun kv : string * Z => (fst kv, JInt (snd kv)))
                  (DV.poisoned_vector a q)) = Some (JInt 16).
Proof.
  intros W G. rewrite (d_get_map_values JInt), poisoned_vector_get by assumption.
  rewrite G. unfold reported. simpl. rewrite Z.eqb_refl. reflexivity.
Qed.

Lemma dumped_vector_ok (v : dict string Z) :
  vector_ok (JObj (map (fun kv : string * Z => (fst kv, JInt (snd kv))) v)).
Proof.
  eexists. split; [reflexivity|]. intros d c I.
  apply in_map_iff in I. destruct I as ([k n] & E & _). inversion E; subst.
  eexists. reflexivity.
Qed.

(** X11: A route is never offered back to the neighbor it goes through: when
    engine [a] routes [dest] through port [q] and the vector it sends on
    [q] arrives at an engine [b] on a port whose neighbor is [a], then,
    with stored vectors at [b] that are dictionaries of numbers, [b]
    returns, holds 16 as the cost [a] advertises for [dest], and the round
    of [update_distance_vector] for a link to [a] leaves the best route to
    [dest] found so far as it is. *)
Theorem poisoned_route_is_not_taken_back :
  forall S a b q q' nb c c' dest cost,
    d_wf (DV.dv a) ->
    d_get q (DV.neighbors a) = Some (nb, c) ->
    d_get dest (DV.dv a) = Some (cost, Some q) ->
    vectors_ok b ->
    d_get q' (DV.neighbors b) = Some (DV.addr a, c') ->
    exists p b' out,
      DV.send_dv_to_neighbor a q = [(q, p)] /\
      DV.handle_packet S b q' p = Done (b', out) /\
      advertised b' (DV.addr a) dest = Some 16 /\
      forall port lc best,
        DV.via_neighbor b' dest best (port, (DV.addr a, lc)) = Some best.
Proof.
  intros S a b q q' nb c c' dest cost W Gq Gd OK Gq'.
  set (vec := map (fun kv : string * Z => (fst kv, JInt (snd kv)))
                  (DV.poisoned_vector a q)).
  exists (Packet ROUTING (DV.addr a) nb (Doc (JObj vec))).
  assert (P16 : d_get dest vec = Some (JInt 16))
    by (eapply poisoned_entry; eauto).
  assert (Fin : forall b',
            DV.neighbor_dvs b' =
              d_set (DV.addr a) (JObj vec) (DV.neighbor_dvs b) ->
            advertised b' (DV.addr a) dest = Some 16 /\
            forall port lc best,
              DV.via_neighbor b' dest best (port, (DV.addr a, lc)) = Some best).
  { intros b' Ev. split.
    - unfold advertised. rewrite Ev, d_get_set_eq. simpl. rewrite P16. reflexivity.
    - intros port lc best. unfold DV.via_neighbor.
      rewrite Ev, d_get_set_eq. simpl. unfold d_mem. rewrite P16. reflexivity. }
  assert (Ch : exists ch, DV.dv_changed b (DV.addr a) (JObj vec) = Some ch).
  { unfold DV.dv_changed.
    destruct (d_get (DV.addr a) (DV.neighbor_dvs b)) as [old|] eqn:Go; eauto.
    apply d_get_In in Go. apply OK in Go. destruct Go as (kvs & -> & _).
    simpl. destruct (differs_spec kvs vec) as (ch & E & _). eauto. }
  destruct Ch as (ch & Ch).
  set (stored := DV.with_neighbor_dvs b
                   (d_set (DV.addr a) (JObj vec) (DV.neighbor_dvs b))).
  assert (OKs : vectors_ok stored).
  { intros n j I. simpl in I. apply d_set_In in I. destruct I as [->|I].
    - apply dumped_vector_ok.
    - eapply OK; eauto. }
  assert (Run : DV.handle_packet S b q'
                  (Packet ROUTING (DV.addr a) nb (Doc (JObj vec))) =
                try_except
                  (if ch then
                     match DV.update_distance_vector S stored with
                     | Done (st', true) => Done (DV.broadcast_dv st')
                     | Done (st', false) => Done (st', [])
                     | Raised st' => Raised (st', [])
                     | Diverged => Diverged
                     end
                   else Done (stored, []))).
  { unfold DV.handle_packet, DV.handle_routing. simpl. rewrite Gq', Ch.
    reflexivity. }
  destruct ch.
  - destruct (update_distance_vector_spec S stored OKs)
      as (st1 & chg & E1 & (_ & _ & _ & _ & Ev) & _).
    rewrite E1 in Run. destruct chg; simpl in Run.
    + destruct (DV.broadcast_dv st1) as [st2 sent] eqn:B.
      exists st2, sent. split.
      { unfold DV.send_dv_to_neighbor. rewrite Gq. reflexivity. }
      split; [exact Run|]. apply Fin.
      unfold DV.broadcast_dv in B. inversion B; subst. simpl. rewrite Ev.
      reflexivity.
    + exists st1, []. split.
      { unfold DV.send_dv_to_neighbor. rewrite Gq. reflexivity. }
      split; [exact Run|]. apply Fin. rewrite Ev. reflexivity.
  - exists stored, []. split.
    { unfold DV.send_dv_to_neighbor. rewrite Gq. reflexivity. }
    split; [exact Run|]. apply Fin. reflexivity.
Qed.

Lemma poisoned_route_is_not_taken_back_witness :
  exists p b' out,
    DV.send_dv_to_neighbor dv_example 1 = [(1, p)] /\
    DV.handle_packet insertion_order dv_peer_example 1 p = Done (b', out) /\
    advertised b' (DV.addr dv_example) "C" = Some 16 /\
    forall port lc best,
      DV.via_neighbor b' "C" best (port, (DV.addr dv_example, lc)) = Some best.
Proof.
  apply (poisoned_route_is_not_taken_back insertion_order dv_example
           dv_peer_example 1 1 "B" 1 1 "C" 2).
  - unfold d_wf; simpl. solve_nodup.
  - reflexivity.
  - reflexivity.
  - intros n j [].
  - reflexivity.
Defined.

(* ================================================================= *)
(** ** Further properties: the link-state engine *)

(** However [calculate_forwarding_table] ends, only the forwarding table
    has moved. *)
Lemma calculate_shape fuel st st' :
  LS.calculate_forwarding_table fuel st = Done st' \/
  LS.calculate_forwarding_table fuel st = Raised st' ->
  exists ft, st' = LS.with_forwarding_table st ft.
Proof.
  unfold LS.calculate_forwarding_table.
  destruct (LS.while_pq _ _ _) as [fh| |]; intros [E|E]; inversion E; subst.
  - exists fh. destruct st; reflexivity.
  - exists []. destruct st; reflexivity.
Qed.

(* ----------------------------------------------------------------- *)
(** *** A record delivered twice *)

(** A packet whose record is in the history is dropped. *)
Lemma handled_again fuel st port p ls_data router_addr seq_num link_state r s :
  is_traceroute p = false ->
  content p = Doc ls_data ->
  py_subscript ls_data "router" = Some router_addr ->
  py_subscript ls_data "seq" = Some seq_num ->
  py_subscript ls_data "links" = Some link_state ->
  py_hashable router_addr = Some r ->
  py_hashable seq_num = Some s ->
  In (key_of r, key_of s) (LS.packet_history st) ->
  LS.handle_packet fuel st port p = Done (st, []).
Proof.
  intros T C R Sq L Hr Hs I. unfold LS.handle_packet, LS.handle_routing.
  rewrite T, C, R, Sq, L, Hr, Hs.
  apply in_history_In in I. rewrite I. reflexivity.
Qed.

(** X12: A link-state packet is handled once: after a routing packet was
    handled, a packet with the same content, arriving on any port, leaves
    the state as it is and nothing is sent. *)
Theorem link_state_packet_is_handled_once :
  forall fuel fuel' st port port' p p' st' out,
    is_traceroute p = false ->
    is_traceroute p' = false ->
    content p' = content p ->
    LS.handle_packet fuel st port p = Done (st', out) ->
    LS.handle_packet fuel' st' port' p' = Done (st', []).
Proof.
  intros fuel fuel' st port port' p p' st' out T T' C E.
  unfold LS.handle_packet in E. rewrite T in E. unfold LS.handle_routing in E.
  destruct (content p) as [|ls_data] eqn:Cp.
  { simpl in E. inversion E; subst.
    unfold LS.handle_packet, LS.handle_routing. rewrite T', C. reflexivity. }
  destruct (py_subscript ls_data "router") as [router_addr|] eqn:R.
  2:{ simpl in E. inversion E; subst.
      unfold LS.handle_packet, LS.handle_routing. rewrite T', C, R. reflexivity. }
  destruct (py_subscript ls_data "seq") as [seq_num|] eqn:Sq.
  2:{ simpl in E. inversion E; subst.
      unfold LS.handle_packet, LS.handle_routing. rewrite T', C, R, Sq.
      reflexivity. }
  destruct (py_subscript ls_data "links") as [link_state|] eqn:L.
  2:{ simpl in E. inversion E; subst.
      unfold LS.handle_packet, LS.handle_routing. rewrite T', C, R, Sq, L.
      reflexivity. }
  destruct (py_hashable router_addr) as [r|] eqn:Hr.
  2:{ simpl in E. inversion E; subst.
      unfold LS.handle_packet, LS.handle_routing. rewrite T', C, R, Sq, L, Hr.
      reflexivity. }
  destruct (py_hashable seq_num) as [s|] eqn:Hs.
  2:{ simpl in E. inversion E; subst.
      unfold LS.handle_packet, LS.handle_routing. rewrite T', C, R, Sq, L, Hr, Hs.
      reflexivity. }
  assert (Again : In (key_of r, key_of s) (LS.packet_history st') ->
                  LS.handle_packet fuel' st' port' p' = Done (st', [])).
  { apply (handled_again fuel' st' port' p' ls_data router_addr seq_num
             link_state r s); auto. }
  destruct (LS.in_history (key_of r, key_of s) (LS.packet_history st)) eqn:H.
  { simpl in E. inversion E; subst. apply Again. apply in_history_In. exact H. }
  set (st1 := LS.with_packet_history st
                ((key_of r, key_of s) :: LS.packet_history st)) in *.
  destruct (LS.is_newer st1 r s) as [[]|].
  - match type of E with
    | context [LS.calculate_forwarding_table fuel ?x] => set (st2 := x) in *
    end.
    destruct (LS.calculate_forwarding_table fuel st2) as [st3|st3|] eqn:Cf;
      simpl in E; inversion E; subst; apply Again.
    + destruct (calculate_shape fuel st2 st' (or_introl Cf)) as (ft & ->).
      simpl. left. reflexivity.
    + destruct (calculate_shape fuel st2 st' (or_intror Cf)) as (ft & ->).
      simpl. left. reflexivity.
  - simpl in E. inversion E; subst. apply Again. simpl. left. reflexivity.
  - simpl in E. inversion E; subst. apply Again. simpl. left. reflexivity.
Qed.

Lemma link_state_packet_is_handled_once_witness :
  exists st' out,
    LS.handle_packet 20 ls_example 1 newer_record_packet = Done (st', out) /\
    st' <> ls_example /\
    LS.handle_packet 20 st' 2 newer_record_packet = Done (st', []).
Proof.
  eexists. eexists. split; [vm_compute; reflexivity|]. split; [discriminate|].
  eapply (link_state_packet_is_handled_once 20 20 ls_example 1 2
            newer_record_packet newer_record_packet).
  - reflexivity.
  - reflexivity.
  - reflexivity.
  - vm_compute. reflexivity.
Defined.

(* ----------------------------------------------------------------- *)
(** *** Sequence numbers *)

Lemma seq_nums_advance_refl st st' :
  LS.seq_nums st' = LS.seq_nums st -> seq_nums_advance st st'.
Proof.
  intros E k old G. exists old. rewrite E. split; auto. left. reflexivity.
Qed.

Lemma renumber_advance fuel now st st' out :
  ends_with (LS.renumber_and_announce fuel now st) st' out ->
  seq_nums_advance st st'.
Proof.
  unfold LS.renumber_and_announce, ends_with, LS.bump_seq.
  destruct (d_get (KStr (LS.addr st)) (LS.seq_nums st)) as [seq|] eqn:G.
  2:{ intros [E|E]; inversion E; subst; apply seq_nums_advance_refl; auto. }
  destruct (scalar_num seq) as [n|] eqn:N.
  2:{ intros [E|E]; inversion E; subst; apply seq_nums_advance_refl; auto. }
  set (st1 := LS.with_seq_nums st _).
  assert (A1 : forall s, LS.seq_nums s = LS.seq_nums st1 -> seq_nums_advance st s).
  { intros s Es k old Gk. rewrite Es. simpl. rewrite d_get_set.
    destruct (eq_dec k (KStr (LS.addr st))) as [->|]; [|exists old; split; auto; left; auto].
    exists (SInt (n + 1)). split; auto. right.
    assert (old = seq) by congruence. subst old.
    destruct seq; simpl in *; try discriminate; inversion N; subst;
      f_equal; apply Z.gtb_lt; lia. }
  destruct (LS.calculate_forwarding_table fuel st1) as [st2|st2|] eqn:C.
  - destruct (calculate_shape fuel st1 st2 (or_introl C)) as (ft & ->).
    unfold LS.broadcast_link_state.
    set (st2 := LS.with_forwarding_table st1 ft).
    destruct (d_get (KStr (LS.addr st2)) (LS.seq_nums st2)).
    2:{ intros [E|E]; inversion E; subst; apply A1; reflexivity. }
    destruct (d_get (KStr (LS.addr st2)) (LS.ls_db st2)).
    2:{ intros [E|E]; inversion E; subst; apply A1; reflexivity. }
    intros [E|E]; inversion E; subst; apply A1; reflexivity.
  - destruct (calculate_shape fuel st1 st2 (or_intror C)) as (ft & ->).
    intros [E|E]; inversion E; subst; apply A1; reflexivity.
  - intros [E|E]; discriminate.
Qed.

(** X13: Sequence numbers never go back: whatever the event and however the
    handler ends, every origin that had a sequence number still has one,
    and it is the one it had or one that Python compares as greater. *)
Theorem sequence_numbers_never_go_back :
  forall fuel now st e st' out,
    ends_with (LS.handle fuel now st e) st' out ->
    seq_nums_advance st st'.
Proof.
  intros fuel now st e st' out End.
  destruct e as [port p | port endpoint cost | port | t]; simpl in End.
  - unfold LS.handle_packet in End. destruct (is_traceroute p).
    { destruct End as [E|E]; inversion E; subst.
      apply seq_nums_advance_refl; auto. }
    apply ends_with_try_except in End. revert End.
    unfold LS.handle_routing, ends_with.
    destruct (content p) as [|ls_data].
    { intros [E|E]; inversion E; subst; apply seq_nums_advance_refl; auto. }
    destruct (py_subscript ls_data "router") as [r|].
    2:{ intros [E|E]; inversion E; subst; apply seq_nums_advance_refl; auto. }
    destruct (py_subscript ls_data "seq") as [sq|].
    2:{ intros [E|E]; inversion E; subst; apply seq_nums_advance_refl; auto. }
    destruct (py_subscript ls_data "links") as [links|].
    2:{ intros [E|E]; inversion E; subst; apply seq_nums_advance_refl; auto. }
    destruct (py_hashable r) as [s|].
    2:{ intros [E|E]; inversion E; subst; apply seq_nums_advance_refl; auto. }
    destruct (py_hashable sq) as [s2|].
    2:{ intros [E|E]; inversion E; subst; apply seq_nums_advance_refl; auto. }
    destruct (LS.in_history _ _).
    { intros [E|E]; inversion E; subst; apply seq_nums_advance_refl; auto. }
    destruct (LS.is_newer _ s s2) as [[]|] eqn:Nw.
    2,3: intros [E|E]; inversion E; subst; apply seq_nums_advance_refl; auto.
    match goal with
    | |- context [LS.calculate_forwarding_table fuel ?s1] => set (st1 := s1)
    end.
    assert (A1 : forall x, LS.seq_nums x = LS.seq_nums st1 -> seq_nums_advance st x).
    { intros x Ex k old Gk. rewrite Ex. simpl. rewrite d_get_set.
      destruct (eq_dec k (key_of s)) as [->|]; [|exists old; split; auto; left; auto].
      exists s2. split; auto. right.
      unfold LS.is_newer in Nw. simpl in Nw. rewrite Gk in Nw. exact Nw. }
    destruct (LS.calculate_forwarding_table fuel st1) as [st2|st2|] eqn:C.
    + destruct (calculate_shape fuel st1 st2 (or_introl C)) as (ft & ->).
      intros [E|E]; inversion E; subst; apply A1; reflexivity.
    + destruct (calculate_shape fuel st1 st2 (or_intror C)) as (ft & ->).
      intros [E|E]; inversion E; subst; apply A1; reflexivity.
    + intros [E|E]; discriminate.
  - unfold LS.handle_new_link in End.
    set (st1 := LS.with_neighbors st _) in *.
    destruct (d_get (KStr (LS.addr st1)) (LS.ls_db st1)) as [[| | | | |own]|];
      try (destruct End as [E|E]; inversion E; subst;
           apply seq_nums_advance_refl; reflexivity).
    apply renumber_advance in End. exact End.
  - unfold LS.handle_remove_link in End.
    destruct (d_get port (LS.neighbors st)) as [[n c]|].
    2:{ destruct End as [E|E]; inversion E; subst.
        apply seq_nums_advance_refl; auto. }
    set (st1 := LS.with_neighbors st _) in *.
    destruct (d_get (KStr (LS.addr st1)) (LS.ls_db st1)) as [own|].
    2:{ destruct End as [E|E]; inversion E; subst.
        apply seq_nums_advance_refl; auto. }
    destruct (py_contains own n) as [[]|].
    + destruct own as [| | | | |kvs];
        try (destruct End as [E|E]; inversion E; subst;
             apply seq_nums_advance_refl; reflexivity).
      apply renumber_advance in End. exact End.
    + apply renumber_advance in End. exact End.
    + destruct End as [E|E]; inversion E; subst.
      apply seq_nums_advance_refl; auto.
  - unfold LS.handle_time in End.
    destruct (t - LS.last_sent st >=? LS.heartbeat_time st).
    2:{ destruct End as [E|E]; inversion E; subst.
        apply seq_nums_advance_refl; auto. }
    unfold LS.broadcast_link_state in End.
    destruct (d_get _ (LS.seq_nums _)).
    2:{ destruct End as [E|E]; inversion E; subst.
        apply seq_nums_advance_refl; auto. }
    destruct (d_get _ (LS.ls_db _)).
    2:{ destruct End as [E|E]; inversion E; subst.
        apply seq_nums_advance_refl; auto. }
    destruct End as [E|E]; inversion E; subst.
    apply seq_nums_advance_refl; auto.
Qed.

Lemma sequence_numbers_never_go_back_witness :
  exists st' out,
    LS.handle 20 5 ls_example (LS.PacketArrival 1 newer_record_packet) =
      Done (st', out) /\
    LS.seq_nums st' <> LS.seq_nums ls_example /\
    seq_nums_advance ls_example st'.
Proof.
  eexists. eexists. split; [vm_compute; reflexivity|]. split; [discriminate|].
  eapply (sequence_numbers_never_go_back 20 5 ls_example
            (LS.PacketArrival 1 newer_record_packet)).
  left. vm_compute. reflexivity.
Defined.

(* ----------------------------------------------------------------- *)
(** *** Ports of the forwarding table *)

Section FirstHops.
Variable st : LS.state.

Lemma record_first_hop_live current neighbor fh :
  first_hops_live st fh -> first_hops_live st (LS.record_first_hop st current neighbor fh).
Proof.
  unfold first_hops_live, LS.record_first_hop. intros L.
  destruct (String.eqb current (LS.addr st)).
  - assert (G : forall nbrs fh0,
              (forall e, In e nbrs -> In e (LS.neighbors st)) ->
              (forall x port, d_get x fh0 = Some port ->
                 In port (d_keys (LS.neighbors st))) ->
              forall x port,
                d_get x (fold_left
                           (fun fh1 (e : Z * (string * Z)) =>
                              let '(port, (endpoint, _)) := e in
                              if String.eqb endpoint neighbor
                              then d_set neighbor port fh1 else fh1)
                           nbrs fh0) = Some port ->
                In port (d_keys (LS.neighbors st))).
    { induction nbrs as [|[q [endpoint c]] nbrs IH]; simpl; intros fh0 Sub L0; auto.
      apply IH; [intros; apply Sub; auto|].
      destruct (String.eqb endpoint neighbor); auto.
      intros x port. rewrite d_get_set. destruct (eq_dec x neighbor); eauto.
      intros E. assert (port = q) by congruence. subst port.
      assert (I0 : In (q, (endpoint, c)) (LS.neighbors st))
        by (apply Sub; left; reflexivity).
      apply (in_map fst) in I0. exact I0. }
    apply G; auto.
  - destruct (d_get current fh) as [q|] eqn:G; auto.
    intros x port. rewrite d_get_set. destruct (eq_dec x neighbor); eauto.
    intros E. inversion E; subst. eapply L; eauto.
Qed.

Lemma relax_all_live current dist items :
  forall l l',
    first_hops_live st (LS.first_hops l) ->
    LS.relax_all st current dist l items = Some l' ->
    first_hops_live st (LS.first_hops l').
Proof.
  induction items as [|[neighbor cost] items IH]; simpl; intros l l' L E.
  - inversion E; subst; auto.
  - destruct (py_num cost) as [c|]; [|discriminate].
    destruct (match d_get neighbor (LS.distances l) with
              | Some d => dist + c <? d
              | None => true
              end).
    + eapply IH; [|exact E]. simpl. apply record_first_hop_live. exact L.
    + eapply IH; eauto.
Qed.

Lemma while_pq_live fuel :
  forall l fh,
    first_hops_live st (LS.first_hops l) ->
    LS.while_pq fuel st l = Done fh -> first_hops_live st fh.
Proof.
  induction fuel as [|fuel IH]; simpl; intros l fh L E; [discriminate|].
  destruct (LS.heappop (LS.pq l)) as [[[dist current] pq']|].
  2:{ inversion E; subst; auto. }
  destruct (LS.settle st (dist, current) _) as [l1|] eqn:Se; [|discriminate].
  eapply IH; [|exact E].
  unfold LS.settle in Se.
  destruct (match d_get current (LS.distances _) with
            | Some d => dist >? d
            | None => false
            end).
  { inversion Se; subst. exact L. }
  destruct (d_get (KStr current) (LS.ls_db st)) as [adj|].
  2:{ inversion Se; subst. exact L. }
  destruct (py_items adj) as [items|]; [|discriminate].
  eapply relax_all_live; [|exact Se]. exact L.
Qed.
End FirstHops.

(** After [calculate_forwarding_table], however it ends, the forwarding
    table names only ports of the link table. *)
Lemma calculate_live fuel st st' :
  LS.calculate_forwarding_table fuel st = Done st' \/
  LS.calculate_forwarding_table fuel st = Raised st' ->
  ls_ports_live st' /\ LS.neighbors st' = LS.neighbors st.
Proof.
  unfold LS.calculate_forwarding_table.
  destruct (LS.while_pq fuel _ _) as [fh| |] eqn:W;
    intros [E|E]; inversion E; subst; split; auto.
  - intros d port G. simpl in G. simpl.
    apply (while_pq_live _ fuel _ fh) in W; [|intros x q X; discriminate].
    apply W in G. exact G.
  - intros d port G. discriminate.
Qed.

Lemma broadcast_ports now st st' out :
  ends_with (LS.broadcast_link_state now st) st' out ->
  LS.neighbors st' = LS.neighbors st /\
  LS.forwarding_table st' = LS.forwarding_table st /\
  forall port p, In (port, p) out -> In port (d_keys (LS.neighbors st)).
Proof.
  unfold LS.broadcast_link_state, ends_with.
  destruct (d_get (KStr (LS.addr st)) (LS.seq_nums st)).
  2:{ intros [E|E]; inversion E; subst; repeat split; auto. intros ? ? []. }
  destruct (d_get (KStr (LS.addr st)) (LS.ls_db st)).
  2:{ intros [E|E]; inversion E; subst; repeat split; auto. intros ? ? []. }
  intros [E|E]; inversion E; subst. repeat split; auto.
  intros port p I. apply in_map_iff in I. destruct I as (e & X & I).
  inversion X; subst. apply (in_map fst) in I. exact I.
Qed.

Lemma live_ext st st' :
  LS.neighbors st' = LS.neighbors st ->
  LS.forwarding_table st' = LS.forwarding_table st ->
  ls_ports_live st -> ls_ports_live st'.
Proof.
  unfold ls_ports_live. intros -> ->. auto.
Qed.

Lemma renumber_live fuel now st st' out :
  LS.renumber_and_announce fuel now st = Done (st', out) ->
  ls_ports_live st' /\
  forall port p, In (port, p) out -> In port (d_keys (LS.neighbors st')).
Proof.
  unfold LS.renumber_and_announce.
  destruct (LS.bump_seq st) as [st1|]; [|discriminate].
  destruct (LS.calculate_forwarding_table fuel st1) as [st2|st2|] eqn:C;
    try discriminate.
  destruct (calculate_live fuel st1 st2 (or_introl C)) as (L2 & _).
  intros E.
  destruct (broadcast_ports now st2 st' out (or_introl E)) as (En & Ef & P).
  split.
  - eapply live_ext; eauto.
  - rewrite En. exact P.
Qed.

(** X14: The link-state engine forwards and sends on linked ports only: the
    forwarding table of the initial state names no port, and when the
    forwarding table names only ports of the link table, then after every
    handler that returns it still does, and whatever the handler sent, a
    data packet, a flooded record or an announcement, left on a port of
    the link table. *)
Theorem ls_ports_stay_linked :
  (forall a heartbeat, ls_ports_live (LS.init a heartbeat)) /\
  (forall fuel now st e st' out,
     ls_ports_live st ->
     LS.handle fuel now st e = Done (st', out) ->
     ls_ports_live st' /\
     forall port p, In (port, p) out -> In port (d_keys (LS.neighbors st'))).
Proof.
  split.
  { intros a hb d port G. discriminate. }
  intros fuel now st e st' out Lv E.
  destruct e as [port p | port endpoint cost | port | t]; simpl in E.
  - unfold LS.handle_packet in E. destruct (is_traceroute p).
    { inversion E; subst. split; auto. intros q pk I.
      pose proof (relay_spec (LS.forwarding_table st') (LS.neighbors st') p) as Rl.
      unfold relayed in Rl.
      destruct (d_get (dst_addr p) (LS.forwarding_table st')) as [fp|] eqn:G.
      - rewrite Rl in I. destruct I as [X|[]]. inversion X; subst.
        eapply Lv; eauto.
      - destruct Rl as [[X _]|(before & fp & c & after & En & _ & Eo)].
        + rewrite X in I. destruct I.
        + rewrite Eo in I. destruct I as [X|[]]. inversion X; subst.
          rewrite En. unfold d_keys. rewrite map_app. apply in_or_app.
          right. left. reflexivity. }
    assert (Quiet : forall s, LS.neighbors s = LS.neighbors st ->
                              LS.forwarding_table s = LS.forwarding_table st ->
                              ls_ports_live s /\
                              forall q pk, In (q, pk) (@nil send) ->
                                           In q (d_keys (LS.neighbors s))).
    { intros s En Ef. split; [eapply live_ext; eauto | intros ? ? []]. }
    unfold LS.handle_routing in E.
    destruct (content p) as [|ls_data].
    { simpl in E. inversion E; subst. apply Quiet; auto. }
    destruct (py_subscript ls_data "router") as [r|].
    2:{ simpl in E. inversion E; subst. apply Quiet; auto. }
    destruct (py_subscript ls_data "seq") as [sq|].
    2:{ simpl in E. inversion E; subst. apply Quiet; auto. }
    destruct (py_subscript ls_data "links") as [links|].
    2:{ simpl in E. inversion E; subst. apply Quiet; auto. }
    destruct (py_hashable r) as [s|].
    2:{ simpl in E. inversion E; subst. apply Quiet; auto. }
    destruct (py_hashable sq) as [s2|].
    2:{ simpl in E. inversion E; subst. apply Quiet; auto. }
    destruct (LS.in_history _ _).
    { simpl in E. inversion E; subst. apply Quiet; auto. }
    destruct (LS.is_newer _ s s2) as [[]|].
    2,3: simpl in E; inversion E; subst; apply Quiet; auto.
    match type of E with
    | context [LS.calculate_forwarding_table fuel ?s1] => set (st1 := s1) in *
    end.
    destruct (LS.calculate_forwarding_table fuel st1) as [st2|st2|] eqn:C;
      simpl in E; inversion E; subst.
    + destruct (calculate_live fuel st1 st' (or_introl C)) as (L2 & En).
      split; auto. intros q pk I. rewrite flood_packet_spec in I.
      apply in_map_iff in I. destruct I as (x & X & I). inversion X; subst.
      apply filter_In in I. tauto.
    + destruct (calculate_live fuel st1 st' (or_intror C)) as (L2 & En).
      split; auto. intros ? ? [].
  - unfold LS.handle_new_link in E.
    set (st1 := LS.with_neighbors st _) in *.
    destruct (d_get (KStr (LS.addr st1)) (LS.ls_db st1)) as [[| | | | |own]|];
      try discriminate.
    apply renumber_live in E. exact E.
  - unfold LS.handle_remove_link in E.
    destruct (d_get port (LS.neighbors st)) as [[n c]|].
    2:{ inversion E; subst. split; auto. intros ? ? []. }
    set (st1 := LS.with_neighbors st _) in *.
    destruct (d_get (KStr (LS.addr st1)) (LS.ls_db st1)) as [own|];
      [|discriminate].
    destruct (py_contains own n) as [[]|]; [| |discriminate].
    + destruct own as [| | | | |kvs]; try discriminate.
      apply renumber_live in E. exact E.
    + apply renumber_live in E. exact E.
  - unfold LS.handle_time in E.
    destruct (t - LS.last_sent st >=? LS.heartbeat_time st).
    2:{ inversion E; subst. split; auto. intros ? ? []. }
    destruct (LS.broadcast_link_state now st) as [[s o]|[s o]|] eqn:B;
      inversion E; subst.
    destruct (broadcast_ports now st s out (or_introl B)) as (En & Ef & P).
    split.
    + apply (live_ext st); auto.
    + simpl. rewrite En. exact P.
Qed.

Lemma ls_example_ports_live : ls_ports_live ls_example.
Proof.
  intros d port. simpl.
  repeat match goal with
         | |- context [eq_dec d ?b] => destruct (eq_dec d b) as [?|?]
         end; try congruence; intros X; inversion X; auto.
Qed.

Lemma ls_ports_stay_linked_witness :
  exists st' out,
    LS.handle 20 5 ls_example (LS.PacketArrival 1 newer_record_packet) =
      Done (st', out) /\
    LS.forwarding_table st' <> LS.forwarding_table ls_example /\
    ls_ports_live st' /\
    forall port p, In (port, p) out -> In port (d_keys (LS.neighbors st')).
Proof.
  eexists. eexists. split; [vm_compute; reflexivity|]. split; [discriminate|].
  eapply (proj2 ls_ports_stay_linked 20%nat 5 ls_example
            (LS.PacketArrival 1 newer_record_packet)).
  - exact ls_example_ports_live.
  - vm_compute. reflexivity.
Defined.

(* ----------------------------------------------------------------- *)
(** *** A link change is announced *)

Lemma renumber_done fuel now st st' out :
  LS.renumber_and_announce fuel now st = Done (st', out) ->
  exists seq n links,
    d_get (KStr (LS.addr st)) (LS.seq_nums st) = Some seq /\
    scalar_num seq = Some n /\
    d_get (KStr (LS.addr st)) (LS.ls_db st) = Some links /\
    LS.addr st' = LS.addr st /\
    LS.neighbors st' = LS.neighbors st /\
    LS.ls_db st' = LS.ls_db st /\
    LS.seq_nums st' =
      d_set (KStr (LS.addr st)) (SInt (n + 1)) (LS.seq_nums st) /\
    LS.last_sent st' = now /\
    out = announcements st' (SInt (n + 1)) links.
Proof.
  unfold LS.renumber_and_announce, LS.bump_seq.
  destruct (d_get (KStr (LS.addr st)) (LS.seq_nums st)) as [seq|] eqn:G;
    [|discriminate].
  destruct (scalar_num seq) as [n|] eqn:N; [|discriminate].
  set (st1 := LS.with_seq_nums st _).
  destruct (LS.calculate_forwarding_table fuel st1) as [st2|st2|] eqn:C;
    try discriminate.
  destruct (calculate_shape fuel st1 st2 (or_introl C)) as (ft & ->).
  unfold LS.broadcast_link_state.
  set (st2 := LS.with_forwarding_table st1 ft).
  assert (G2 : d_get (KStr (LS.addr st2)) (LS.seq_nums st2) = Some (SInt (n + 1)))
    by (simpl; apply d_get_set_eq).
  rewrite G2.
  destruct (d_get (KStr (LS.addr st2)) (LS.ls_db st2)) as [links|] eqn:Gl;
    [|discriminate].
  intros E. inversion E; subst. exists seq, n, links.
  repeat split; auto.
Qed.

(** X15: A link change is announced: when [handle_new_link], or
    [handle_remove_link] for a port of the link table, returns, the
    engine's own sequence number has advanced by exactly one, the clock
    field holds the reading of the wall clock, and what was sent is the
    engine's own record as [ls_db] now holds it, under the new sequence
    number, once to the neighbor of every link of the link table, in its
    order. *)
Theorem link_change_is_announced :
  forall fuel now st e st' out,
    ls_link_change st e ->
    LS.handle fuel now st e = Done (st', out) ->
    exists seq n links,
      d_get (KStr (LS.addr st)) (LS.seq_nums st) = Some seq /\
      scalar_num seq = Some n /\
      d_get (KStr (LS.addr st')) (LS.seq_nums st') = Some (SInt (n + 1)) /\
      d_get (KStr (LS.addr st')) (LS.ls_db st') = Some links /\
      LS.last_sent st' = now /\
      out = announcements st' (SInt (n + 1)) links.
Proof.
  intros fuel now st e st' out Ev E.
  assert (K : forall st1,
            LS.addr st1 = LS.addr st ->
            LS.seq_nums st1 = LS.seq_nums st ->
            LS.renumber_and_announce fuel now st1 = Done (st', out) ->
            exists seq n links,
              d_get (KStr (LS.addr st)) (LS.seq_nums st) = Some seq /\
              scalar_num seq = Some n /\
              d_get (KStr (LS.addr st')) (LS.seq_nums st') = Some (SInt (n + 1)) /\
              d_get (KStr (LS.addr st')) (LS.ls_db st') = Some links /\
              LS.last_sent st' = now /\
              out = announcements st' (SInt (n + 1)) links).
  { intros st1 Ea Es R.
    destruct (renumber_done fuel now st1 st' out R)
      as (seq & n & links & G & N & Gl & Ea' & _ & Edb & Esq & Els & Eo).
    exists seq, n, links. rewrite Ea' , Esq, Edb.
    repeat split; auto; try congruence.
    apply d_get_set_eq. }
  destruct e as [port p | port endpoint cost | port | t]; simpl in *;
    try contradiction.
  - unfold LS.handle_new_link in E.
    set (st1 := LS.with_neighbors st _) in *.
    destruct (d_get (KStr (LS.addr st1)) (LS.ls_db st1)) as [[| | | | |own]|];
      try discriminate.
    apply K in E; auto.
  - unfold LS.handle_remove_link in E. unfold d_mem in Ev.
    destruct (d_get port (LS.neighbors st)) as [[n c]|]; [|discriminate].
    set (st1 := LS.with_neighbors st _) in *.
    destruct (d_get (KStr (LS.addr st1)) (LS.ls_db st1)) as [own|];
      [|discriminate].
    destruct (py_contains own n) as [[]|]; [| |discriminate].
    + destruct own as [| | | | |kvs]; try discriminate.
      apply K in E; auto.
    + apply K in E; auto.
Qed.

Lemma link_change_is_announced_witness :
  exists st' out seq n links,
    LS.handle 20 5 ls_example (LS.LinkDown 1) = Done (st', out) /\
    d_get (KStr (LS.addr ls_example)) (LS.seq_nums ls_example) = Some seq /\
    scalar_num seq = Some n /\
    d_get (KStr (LS.addr st')) (LS.seq_nums st') = Some (SInt (n + 1)) /\
    d_get (KStr (LS.addr st')) (LS.ls_db st') = Some links /\
    LS.last_sent st' = 5 /\
    out = announcements st' (SInt (n + 1)) links.
Proof.
  eexists. eexists.
  assert (E : LS.handle 20 5 ls_example (LS.LinkDown 1) =
              Done (?[s], ?[o])) by (vm_compute; reflexivity).
  destruct (link_change_is_announced 20 5 ls_example (LS.LinkDown 1) _ _
              eq_refl E) as (seq & n & links & H).
  exists seq, n, links. split; [exact E | exact H].
Defined.

(* ----------------------------------------------------------------- *)
(** *** The heartbeat *)

Lemma ls_heartbeat now st t st' out :
  LS.handle_time now st t = Done (st', out) ->
  t - LS.last_sent st >= LS.heartbeat_time st ->
  LS.last_sent st' = t /\
  LS.seq_nums st' = LS.seq_nums st /\
  forall now' t', t' - t < LS.heartbeat_time st ->
    LS.handle_time now' st' t' = Done (st', []).
Proof.
  unfold LS.handle_time. intros E Due.
  replace (t - LS.last_sent st >=? LS.heartbeat_time st) with true in E
    by (symmetry; apply Z.geb_le; lia).
  unfold LS.broadcast_link_state in E.
  destruct (d_get (KStr (LS.addr st)) (LS.seq_nums st)); [|discriminate].
  destruct (d_get (KStr (LS.addr st)) (LS.ls_db st)); [|discriminate].
  inversion E; subst. simpl. split; auto. split; auto.
  intros now' t' Ht.
  replace (t' - t >=? LS.heartbeat_time st) with false; auto.
  symmetry. rewrite Z.geb_leb. apply Z.leb_gt. lia.
Qed.

(** X16: The heartbeat is throttled by the time of the tick: in both engines,
    when [handle_time] is due and returns, the clock field holds the time
    of that tick (in the link-state engine the reading of the wall clock
    that [broadcast_link_state] stored is overwritten, and the sequence
    numbers are as before), and a later tick less than a heartbeat after it
    changes nothing and sends nothing. *)
Theorem heartbeat_is_throttled :
  (forall S st t st' out,
     DV.handle_time S st t = Done (st', out) ->
     t - DV.last_sent st >= DV.heartbeat_time st ->
     DV.last_sent st' = t /\
     forall S' t', t' - t < DV.heartbeat_time st ->
       DV.handle_time S' st' t' = Done (st', [])) /\
  (forall now st t st' out,
     LS.handle_time now st t = Done (st', out) ->
     t - LS.last_sent st >= LS.heartbeat_time st ->
     LS.last_sent st' = t /\
     LS.seq_nums st' = LS.seq_nums st /\
     forall now' t', t' - t < LS.heartbeat_time st ->
       LS.handle_time now' st' t' = Done (st', [])).
Proof.
  split.
  - intros S st t st' out E Due.
    destruct (dv_heartbeat S st t st' out E Due) as (A & _ & B). auto.
  - intros now st t st' out E Due. apply (ls_heartbeat now st t st' out E Due).
Qed.

Lemma heartbeat_is_throttled_witness :
  (exists st' out,
     DV.handle_time insertion_order dv_example 10 = Done (st', out) /\
     out <> [] /\
     DV.last_sent st' = 10 /\
     DV.handle_time reverse_order st' 19 = Done (st', [])) /\
  (exists st' out,
     LS.handle_time 5 ls_example 10 = Done (st', out) /\
     out <> [] /\
     LS.last_sent st' = 10 /\
     LS.handle_time 7 st' 19 = Done (st', [])).
Proof.
  split.
  - eexists. eexists.
    assert (E : DV.handle_time insertion_order dv_example 10 =
                Done (?[s], ?[o])) by (vm_compute; reflexivity).
    destruct (proj1 heartbeat_is_throttled insertion_order dv_example 10 _ _ E)
      as (A & B); [simpl; lia|].
    split; [exact E|]. split; [discriminate|]. split; [exact A|].
    apply B. simpl. lia.
  - eexists. eexists.
    assert (E : LS.handle_time 5 ls_example 10 =
                Done (?[s], ?[o])) by (vm_compute; reflexivity).
    destruct (proj2 heartbeat_is_throttled 5 ls_example 10 _ _ E)
      as (A & _ & B); [simpl; lia|].
    split; [exact E|]. split; [discriminate|]. split; [exact A|].
    apply B. simpl. lia.
Defined.

(* ----------------------------------------------------------------- *)
(** *** The handlers return *)

Lemma ls_ready_ext st st' :
  LS.addr st' = LS.addr st -> LS.ls_db st' = LS.ls_db st ->
  LS.seq_nums st' = LS.seq_nums st -> ls_ready st -> ls_ready st'.
Proof.
  unfold ls_ready, ls_db_ok. intros -> -> ->. auto.
Qed.

Lemma renumber_returns st :
  ls_ready st ->
  exists fuel0, forall fuel, (fuel0 <= fuel)%nat -> forall now,
    exists st' out,
      LS.renumber_and_announce fuel now st = Done (st', out) /\ ls_ready st'.
Proof.
  intros (OK & (own & Go) & (seq & n & Gs & N)).
  set (st1 := LS.with_seq_nums st
                (d_set (KStr (LS.addr st)) (SInt (n + 1)) (LS.seq_nums st))).
  assert (OK1 : ls_db_ok st1) by exact OK.
  destruct (calculate_forwarding_table_spec st1 OK1) as (fuel0 & Hf).
  exists fuel0. intros fuel Hle now.
  destruct (Hf fuel Hle) as (table & E & _).
  unfold LS.renumber_and_announce, LS.bump_seq. rewrite Gs, N. fold st1.
  rewrite E. unfold LS.broadcast_link_state. simpl.
  rewrite d_get_set_eq, Go. eexists. eexists. split; [reflexivity|].
  split; [exact OK|]. split; simpl.
  - exists own. exact Go.
  - exists (SInt (n + 1)), (n + 1). split; [apply d_get_set_eq | reflexivity].
Qed.

(** X17: The handlers return on the events that carry no record of another
    engine: in a state whose records are dictionaries of non-negative
    costs, with a record and a numeric sequence number of the engine's own,
    a data packet, a link coming up with a non-negative cost, a link going
    down and a tick are all handled without an exception, given fuel
    enough for the shortest-path loop, and the state left is again such a
    state. *)
Theorem local_events_are_handled :
  forall st e,
    ls_ready st ->
    ls_local_event e ->
    exists fuel0, forall fuel, (fuel0 <= fuel)%nat -> forall now,
      exists st' out,
        LS.handle fuel now st e = Done (st', out) /\ ls_ready st'.
Proof.
  intros st e Rd Ev.
  destruct e as [port p | port endpoint cost | port | t]; simpl in *.
  - exists 0%nat. intros fuel _ now. unfold LS.handle_packet. rewrite Ev.
    eexists. eexists. split; [reflexivity | exact Rd].
  - destruct Rd as (OK & (own & Go) & Sq).
    unfold LS.handle_new_link. simpl. rewrite Go.
    set (st2 := LS.with_ls_db _ _).
    assert (R2 : ls_ready st2).
    { split; [|split].
      - intros k j I. simpl in I. apply d_set_In in I. destruct I as [->|I].
        + eexists. split; [reflexivity|]. intros v c I.
          apply d_set_In in I. destruct I as [->|I].
          * exists cost. split; [reflexivity | exact Ev].
          * apply d_get_In in Go. destruct (OK _ _ Go) as (kvs & X & H).
            inversion X; subst kvs. eapply H; eauto.
        + eapply OK; eauto.
      - eexists. simpl. apply d_get_set_eq.
      - exact Sq. }
    exact (renumber_returns st2 R2).
  - unfold LS.handle_remove_link.
    destruct (d_get port (LS.neighbors st)) as [[n c]|].
    2:{ exists 0%nat. intros fuel _ now. eexists. eexists.
        split; [reflexivity | exact Rd]. }
    destruct Rd as (OK & (own & Go) & Sq). simpl. rewrite Go. simpl.
    destruct (d_mem n own) eqn:M.
    + set (st2 := LS.with_ls_db _ _).
      assert (R2 : ls_ready st2).
      { split; [|split].
        - intros k j I. simpl in I. apply d_set_In in I. destruct I as [->|I].
          + eexists. split; [reflexivity|]. intros v w I.
            apply d_del_In in I. destruct I as [_ I].
            apply d_get_In in Go. destruct (OK _ _ Go) as (kvs & X & H).
            inversion X; subst kvs. eapply H; eauto.
          + eapply OK; eauto.
        - eexists. simpl. apply d_get_set_eq.
        - exact Sq. }
      exact (renumber_returns st2 R2).
    + set (st1 := LS.with_neighbors _ _).
      assert (R1 : ls_ready st1) by (split; [exact OK | split; eauto]).
      exact (renumber_returns st1 R1).
  - exists 0%nat. intros fuel _ now. unfold LS.handle_time.
    destruct (t - LS.last_sent st >=? LS.heartbeat_time st).
    2:{ eexists. eexists. split; [reflexivity | exact Rd]. }
    pose proof Rd as (OK & (own & Go) & (seq & n & Gs & N)).
    unfold LS.broadcast_link_state. rewrite Gs, Go.
    eexists. eexists. split; [reflexivity|].
    apply (ls_ready_ext st); auto.
Qed.

Lemma ls_example_ready : ls_ready ls_example.
Proof.
  split; [exact ls_example_ok|]. split.
  - eexists. reflexivity.
  - exists (SInt 1), 1. split; reflexivity.
Qed.

Lemma local_events_are_handled_witness :
  exists fuel0, forall fuel, (fuel0 <= fuel)%nat -> forall now,
    exists st' out,
      LS.handle fuel now ls_example (LS.LinkUp 2 "D" 3) = Done (st', out) /\
      ls_ready st'.
Proof.
  apply (local_events_are_handled ls_example (LS.LinkUp 2 "D" 3)).
  - exact ls_example_ready.
  - simpl. lia.
Defined.
